(** * The TINY+ recursive-descent parser (parse.c), embedded in Rocq.

    The parser is a set of mutually recursive C procedures working on
    three pieces of global state: the lookahead [token] (with the
    scanner's [tokenString] and [lineno]), the heap of [TreeNode]s that
    the node factory allocates, and the diagnostic sink ([listing] and
    the [Error] flag).  The embedding threads that state explicitly
    through a small state-and-failure monad; pointers are indices into
    the node heap, [NULL] is [None], and dereferencing a pointer that
    does not point to a node is the failure [Crash].  The procedures
    recurse through a fuel-indexed knot ([run]); every C function call
    and every loop iteration takes one unit of fuel. *)

From Stdlib Require Import ZArith String Ascii List Lia Bool Arith.
From stdpp Require Import base list.

Set Implicit Arguments.

(** ** Tokens (globals.h) *)

(** Modelled from the spec: the token enumeration of globals.h is not
    part of parse.c.  The constructors are the token kinds parse.c
    names ([IF_] stands for the C enumerator IF, which is a reserved
    word here); [ERROR] is the scanner's error token and [OTHER n] any
    further enumerator parse.c never mentions. *)
Inductive TokenType : Type :=
  | ENDFILE | ERROR
  | IF_ | THEN | ELSE | END | REPEAT | UNTIL | READ | WRITE
  | FUNC | VAR | WHILE | FOR | RETURN | LAMBDA
  | ID | NUM
  | ASSIGN | EQ | LT | GT | PLUS | MINUS | TIMES | OVER | AND
  | LPAREN | RPAREN | SEMI | COMMA | COLON | LMBRACKET | RMBRACKET
  | OTHER (n : nat).

Definition TokenType_eq_dec (a b : TokenType) : {a = b} + {a <> b}.
Proof. decide equality. apply Nat.eq_dec. Defined.

(** [token == expected] *)
Definition tok_eqb (a b : TokenType) : bool :=
  if TokenType_eq_dec a b then true else false.

(** One token as the scanner issues it: kind, raw text, source line. *)
Record Token : Type := mkToken {
  tok_kind : TokenType;
  tok_text : string;
  tok_line : nat
}.

(** ** Syntax-tree nodes (globals.h) *)

Inductive StmtKind : Type :=
  | IfK | RepeatK | AssignK | ReadK | WriteK
  | FuncK | VarK | WhileK | ForK | ReturnK | CallK.

Inductive ExpKind : Type :=
  | OpK | ConstK | IdK | ValueK | DimK | ParamsK.

(** [nodekind] together with the [kind] union. *)
Inductive NodeKind : Type :=
  | StmtK (k : StmtKind)
  | ExpK (k : ExpKind).

(** The [attr] union; [AttrUnset] is the state the factory leaves it in. *)
Inductive Attr : Type :=
  | AttrUnset
  | AttrOp (op : TokenType)
  | AttrVal (val : Z)
  | AttrName (name : string).

(** A [TreeNode *]: [None] is NULL, [Some p] points to heap cell [p]. *)
Definition ptr : Type := option nat.

Definition MAXCHILDREN : nat := 4.

Record TreeNode : Type := mkNode {
  nodekind : NodeKind;
  child : list ptr;
  sibling : ptr;
  attr : Attr
}.

(** ** Parser state *)

(** What is written to [listing]. *)
Inductive Output : Type :=
  | OutSyntaxError (line : nat) (message : string)
  | OutToken (tok : TokenType) (text : string)
  | OutText (text : string).

Record State : Type := mkState {
  token : TokenType;        (* static TokenType token *)
  tokenString : string;     (* scanner: text of the current token *)
  lineno : nat;             (* scanner: current line *)
  input : list Token;       (* scanner: tokens not yet read *)
  heap : list TreeNode;     (* nodes allocated so far *)
  Error : bool;             (* the failure flag *)
  listing : list Output;    (* the diagnostic sink *)
  alloc_ok : nat -> bool;   (* does the n-th allocation request succeed *)
  nalloc : nat              (* allocation requests made so far *)
}.

Definition set_token (tk : TokenType) (st : State) : State :=
  mkState tk (tokenString st) (lineno st) (input st) (heap st)
          (Error st) (listing st) (alloc_ok st) (nalloc st).

Definition set_heap (h : list TreeNode) (st : State) : State :=
  mkState (token st) (tokenString st) (lineno st) (input st) h
          (Error st) (listing st) (alloc_ok st) (nalloc st).

Definition emit (o : Output) (st : State) : State :=
  mkState (token st) (tokenString st) (lineno st) (input st) (heap st)
          (Error st) (listing st ++ [o]) (alloc_ok st) (nalloc st).

Definition set_Error (b : bool) (st : State) : State :=
  mkState (token st) (tokenString st) (lineno st) (input st) (heap st)
          b (listing st) (alloc_ok st) (nalloc st).

(** The scanner state after one more token has been read.  Past the end
    of the input nothing is left to read and the text is empty. *)
Definition scan_next (st : State) : State :=
  match input st with
  | [] =>
      mkState (token st) EmptyString (lineno st) [] (heap st)
              (Error st) (listing st) (alloc_ok st) (nalloc st)
  | tk :: rest =>
      mkState (token st) (tok_text tk) (tok_line tk) rest (heap st)
              (Error st) (listing st) (alloc_ok st) (nalloc st)
  end.

Definition scan_kind (st : State) : TokenType :=
  match input st with
  | [] => ENDFILE
  | tk :: _ => tok_kind tk
  end.

(** One allocation request: the counter moves, and on success a cell is
    appended to the heap. *)
Definition count_alloc (st : State) : State :=
  mkState (token st) (tokenString st) (lineno st) (input st) (heap st)
          (Error st) (listing st) (alloc_ok st) (S (nalloc st)).

(** The state after a successful allocation of a node of kind [k]; the
    new cell is the last one. *)
Definition blank_node (k : NodeKind) : TreeNode :=
  mkNode k (replicate MAXCHILDREN None) None AttrUnset.

Definition alloc_state (k : NodeKind) (st : State) : State :=
  count_alloc (set_heap (heap st ++ [blank_node k]) st).

(** ** The monad: state passing with two ways not to return *)

Inductive Res (A : Type) : Type :=
  | Ok (a : A) (st : State)
  | Crash                       (* a pointer that is no node was dereferenced *)
  | OutOfFuel.

Arguments Ok {A} a st.
Arguments Crash {A}.
Arguments OutOfFuel {A}.

Definition M (A : Type) : Type := State -> Res A.

Definition ret {A} (a : A) : M A := fun st => Ok a st.

Definition bind {A B} (m : M A) (k : A -> M B) : M B :=
  fun st =>
    match m st with
    | Ok a st' => k a st'
    | Crash => Crash
    | OutOfFuel => OutOfFuel
    end.

Declare Scope parser_scope.
Delimit Scope parser_scope with parser.
Notation "x <- m ;; k" := (bind m (fun x => k))
  (at level 100, m at next level, k at level 200, right associativity)
  : parser_scope.
Notation "m ;; k" := (bind m (fun _ => k))
  (at level 100, k at level 200, right associativity) : parser_scope.
Local Open Scope parser_scope.

Definition gets {A} (f : State -> A) : M A := fun st => Ok (f st) st.
Definition modify (f : State -> State) : M unit := fun st => Ok tt (f st).

(** ** External collaborators *)

(** Modelled from the spec: the scanner (scan.c) is not under src/.
    [getToken] hands out the next token of the input and keeps
    answering [ENDFILE] once the input is exhausted. *)
Definition getToken : M TokenType :=
  fun st => Ok (scan_kind st) (scan_next st).

(** Modelled from the spec: the node factory (util.c) is not under
    src/.  A new node has every child slot and the sibling link unset;
    a failed allocation returns NULL. *)
Definition new_node (k : NodeKind) : TreeNode := blank_node k.

Definition alloc_node (k : NodeKind) : M ptr :=
  fun st =>
    if alloc_ok st (nalloc st)
    then Ok (Some (length (heap st))) (alloc_state k st)
    else Ok None (count_alloc st).

Definition newStmtNode (k : StmtKind) : M ptr := alloc_node (StmtK k).
Definition newExpNode (k : ExpKind) : M ptr := alloc_node (ExpK k).

(** Modelled from the spec: [copyString] (util.c) returns a copy of its
    argument. *)
Definition copyString (s : string) : string := s.

(** Modelled from the spec: [printToken] (util.c) writes the token and
    its text to the listing. *)
Definition printToken (tk : TokenType) (text : string) : M unit :=
  modify (emit (OutToken tk text)).

Definition fprintf_listing (text : string) : M unit :=
  modify (emit (OutText text)).

(** [atoi] on the text of a NUM token: the decimal value of the leading
    digits, as a 32-bit [int]. *)
Definition digit_of (c : ascii) : option Z :=
  let n := Z.of_nat (nat_of_ascii c) in
  if ((48 <=? n) && (n <=? 57))%Z then Some (n - 48)%Z else None.

Fixpoint atoi_from (acc : Z) (s : string) : Z :=
  match s with
  | EmptyString => acc
  | String c r =>
      match digit_of c with
      | Some d => atoi_from (10 * acc + d)%Z r
      | None => acc
      end
  end.

Definition wrap_int (z : Z) : Z :=
  ((z + 2 ^ 31) mod 2 ^ 32 - 2 ^ 31)%Z.

Definition atoi (s : string) : Z := wrap_int (atoi_from 0%Z s).

(** ** Field access through a [TreeNode *] *)

Definition deref (t : ptr) : M TreeNode :=
  fun st =>
    match t with
    | None => Crash
    | Some p =>
        match heap st !! p with
        | Some n => Ok n st
        | None => Crash
        end
    end.

Definition store (t : ptr) (f : TreeNode -> TreeNode) : M unit :=
  fun st =>
    match t with
    | None => Crash
    | Some p =>
        match heap st !! p with
        | Some n => Ok tt (set_heap (<[p := f n]> (heap st)) st)
        | None => Crash
        end
    end.

Definition with_child (i : nat) (v : ptr) (n : TreeNode) : TreeNode :=
  mkNode (nodekind n) (<[i := v]> (child n)) (sibling n) (attr n).

Definition with_sibling (v : ptr) (n : TreeNode) : TreeNode :=
  mkNode (nodekind n) (child n) v (attr n).

Definition with_attr (a : Attr) (n : TreeNode) : TreeNode :=
  mkNode (nodekind n) (child n) (sibling n) a.

(** [t->child[i] = v] *)
Definition set_child (t : ptr) (i : nat) (v : ptr) : M unit :=
  store t (with_child i v).

(** [t->sibling = v] *)
Definition set_sibling (t : ptr) (v : ptr) : M unit :=
  store t (with_sibling v).

(** [t->attr.name = s], [t->attr.val = z], [t->attr.op = tk] *)
Definition set_name (t : ptr) (s : string) : M unit :=
  store t (with_attr (AttrName s)).
Definition set_val (t : ptr) (z : Z) : M unit :=
  store t (with_attr (AttrVal z)).
Definition set_op (t : ptr) (tk : TokenType) : M unit :=
  store t (with_attr (AttrOp tk)).

(** Reading [t->attr.name]: the string if one was stored, no string
    otherwise. *)
Definition attr_name (a : Attr) : option string :=
  match a with
  | AttrName s => Some s
  | _ => None
  end.

Definition get_name (t : ptr) : M (option string) :=
  n <- deref t ;; ret (attr_name (attr n)).

(** [t != NULL] *)
Definition nonnull (t : ptr) : bool :=
  match t with
  | Some _ => true
  | None => false
  end.

(** C's [if (c) stmt;] *)
Definition when (c : bool) (m : M unit) : M unit :=
  if c then m else ret tt.

(** ** parse.c: diagnostics and [match] *)

Definition newline : string := String (ascii_of_nat 10) EmptyString.

Definition syntaxError (message : string) : M unit :=
  modify (emit (OutText (newline ++ ">>> ")%string)) ;;
  ln <- gets lineno ;;
  modify (emit (OutSyntaxError ln message)) ;;
  modify (set_Error true).

(** [token = getToken();] *)
Definition advance : M unit :=
  tk <- getToken ;; modify (set_token tk).

(** [match] is a reserved word, hence the underscore. *)
Definition match_ (expected : TokenType) : M unit :=
  tk <- gets token ;;
  if tok_eqb tk expected then advance
  else
    syntaxError "match:: unexpected token -> "%string ;;
    tk' <- gets token ;;
    ts <- gets tokenString ;;
    printToken tk' ts ;;
    fprintf_listing ("expected: " ++ newline)%string ;;
    printToken expected EmptyString ;;
    fprintf_listing "      "%string.

(** ** parse.c: the grammar productions *)

(** The procedures of parse.c, and the loops inside them together with
    the local variables a loop carries from one iteration to the next. *)
Inductive Prod : Type :=
  | PStmtSequence
  | PStmtSequenceLoop (t p : ptr)
  | PStatement
  | PIfStmt
  | PRepeatStmt
  | PAssignStmt
  | PReadStmt
  | PWriteStmt
  | PExp
  | PSimpleExp
  | PSimpleExpLoop (t : ptr)
  | PTerm
  | PTermLoop (t : ptr)
  | PFactor
  | PVarStmt
  | PVarList (explicit_dim : bool)
  | PVarListLoop (explicit_dim : bool) (root lst : ptr)
  | PValueExp
  | PMultiValueExp
  | PMultiValueLoop (root lst : ptr)
  | PDimExp (explicit_dim : bool)
  | PDimLoop (explicit_dim : bool) (root lst : ptr)
  | PWhileStmt
  | PReturnStmt
  | PFuncStmt
  | PParams
  | PForStmt
  | PLambdaExp
  | PCallStmt (name : option string)
  | PCallLoop (t lst : ptr).

(** [t->attr.name = name] where [name] may be a pointer that was never
    set. *)
Definition name_attr (name : option string) : Attr :=
  match name with
  | Some s => AttrName s
  | None => AttrUnset
  end.

Definition seq_continues (tk : TokenType) : bool :=
  negb (tok_eqb tk ENDFILE) && negb (tok_eqb tk END) &&
  negb (tok_eqb tk ELSE) && negb (tok_eqb tk UNTIL).

Definition seq_breaks (tk : TokenType) : bool :=
  tok_eqb tk ENDFILE || tok_eqb tk END ||
  tok_eqb tk ELSE || tok_eqb tk UNTIL.

Section Productions.

(** The recursive knot: how a procedure (or the next iteration of a
    loop) is entered. *)
Variable call : Prod -> M ptr.

Definition stmt_sequence : M ptr :=
  t <- call PStatement ;;
  call (PStmtSequenceLoop t t).

Definition stmt_sequence_loop (t p : ptr) : M ptr :=
  tk <- gets token ;;
  if seq_continues tk then
    when (tok_eqb tk SEMI) (match_ SEMI) ;;
    tk1 <- gets token ;;
    if seq_breaks tk1 then ret t
    else
      q <- call PStatement ;;
      if nonnull q then
        if negb (nonnull t) then call (PStmtSequenceLoop q q)
        else set_sibling p q ;; call (PStmtSequenceLoop t q)
      else call (PStmtSequenceLoop t p)
  else ret t.

Definition statement : M ptr :=
  tk <- gets token ;;
  match tk with
  | IF_ => call PIfStmt
  | REPEAT => call PRepeatStmt
  | ID => call PAssignStmt
  | READ => call PReadStmt
  | WRITE => call PWriteStmt
  | FUNC => call PFuncStmt
  | VAR => call PVarStmt
  | WHILE => call PWhileStmt
  | FOR => call PForStmt
  | RETURN => call PReturnStmt
  | END | ENDFILE => ret None
  | _ =>
      syntaxError "statement:: unexpected token -> "%string ;;
      ts <- gets tokenString ;;
      printToken tk ts ;;
      advance ;;
      ret None
  end.

Definition if_stmt : M ptr :=
  t <- newStmtNode IfK ;;
  match_ IF_ ;;
  when (nonnull t) (c <- call PExp ;; set_child t 0 c) ;;
  match_ THEN ;;
  when (nonnull t) (s <- call PStmtSequence ;; set_child t 1 s) ;;
  tk <- gets token ;;
  when (tok_eqb tk ELSE)
    (match_ ELSE ;;
     when (nonnull t) (s <- call PStmtSequence ;; set_child t 2 s)) ;;
  match_ END ;;
  ret t.

Definition repeat_stmt : M ptr :=
  t <- newStmtNode RepeatK ;;
  match_ REPEAT ;;
  when (nonnull t) (s <- call PStmtSequence ;; set_child t 0 s) ;;
  match_ UNTIL ;;
  when (nonnull t) (c <- call PExp ;; set_child t 1 c) ;;
  ret t.

Definition assign_stmt : M ptr :=
  t <- newStmtNode AssignK ;;
  tk <- gets token ;;
  when (nonnull t && tok_eqb tk ID)
    (ts <- gets tokenString ;; set_name t (copyString ts)) ;;
  match_ ID ;;
  tk1 <- gets token ;;
  if tok_eqb tk1 LMBRACKET then
    d <- call (PDimExp true) ;;
    set_child t 0 d ;;
    tk2 <- gets token ;;
    when (tok_eqb tk2 ASSIGN) (v <- call PValueExp ;; set_child t 1 v) ;;
    ret t
  else if tok_eqb tk1 ASSIGN then
    when (nonnull t) (v <- call PValueExp ;; set_child t 0 v) ;;
    ret t
  else if tok_eqb tk1 LPAREN then
    name <- get_name t ;;
    call (PCallStmt name)
  else ret t.

Definition read_stmt : M ptr :=
  t <- newStmtNode ReadK ;;
  match_ READ ;;
  tk <- gets token ;;
  when (nonnull t && tok_eqb tk ID)
    (ts <- gets tokenString ;; set_name t (copyString ts)) ;;
  match_ ID ;;
  ret t.

Definition write_stmt : M ptr :=
  t <- newStmtNode WriteK ;;
  match_ WRITE ;;
  when (nonnull t) (e <- call PExp ;; set_child t 0 e) ;;
  ret t.

Definition exp : M ptr :=
  t <- call PSimpleExp ;;
  tk <- gets token ;;
  if tok_eqb tk LT || tok_eqb tk EQ || tok_eqb tk GT then
    p <- newExpNode OpK ;;
    t1 <- (if nonnull p
           then set_child p 0 t ;;
                op <- gets token ;; set_op p op ;;
                ret p
           else ret t) ;;
    tk1 <- gets token ;;
    match_ tk1 ;;
    when (nonnull t1) (r <- call PSimpleExp ;; set_child t1 1 r) ;;
    ret t1
  else ret t.

Definition simple_exp : M ptr :=
  t <- call PTerm ;;
  call (PSimpleExpLoop t).

Definition simple_exp_loop (t : ptr) : M ptr :=
  tk <- gets token ;;
  if tok_eqb tk PLUS || tok_eqb tk MINUS || tok_eqb tk AND then
    p <- newExpNode OpK ;;
    if nonnull p then
      set_child p 0 t ;;
      op <- gets token ;; set_op p op ;;
      tk1 <- gets token ;;
      match_ tk1 ;;
      r <- call PTerm ;;
      set_child p 1 r ;;
      call (PSimpleExpLoop p)
    else call (PSimpleExpLoop t)
  else ret t.

Definition term : M ptr :=
  t <- call PFactor ;;
  call (PTermLoop t).

Definition term_loop (t : ptr) : M ptr :=
  tk <- gets token ;;
  if tok_eqb tk TIMES || tok_eqb tk OVER then
    p <- newExpNode OpK ;;
    if nonnull p then
      set_child p 0 t ;;
      op <- gets token ;; set_op p op ;;
      tk1 <- gets token ;;
      match_ tk1 ;;
      r <- call PFactor ;;
      set_child p 1 r ;;
      call (PTermLoop p)
    else call (PTermLoop t)
  else ret t.

Definition factor : M ptr :=
  tk <- gets token ;;
  match tk with
  | NUM =>
      t <- newExpNode ConstK ;;
      tk1 <- gets token ;;
      when (nonnull t && tok_eqb tk1 NUM)
        (ts <- gets tokenString ;; set_val t (atoi ts)) ;;
      match_ NUM ;;
      ret t
  | ID =>
      t <- newExpNode IdK ;;
      tk1 <- gets token ;;
      when (nonnull t && tok_eqb tk1 ID)
        (ts <- gets tokenString ;; set_name t (copyString ts)) ;;
      match_ ID ;;
      tk2 <- gets token ;;
      if tok_eqb tk2 LMBRACKET then
        d <- call (PDimExp true) ;;
        set_child t 0 d ;;
        ret t
      else if tok_eqb tk2 LPAREN then
        name <- get_name t ;;
        call (PCallStmt name)
      else ret t
  | LPAREN =>
      match_ LPAREN ;;
      t <- call PExp ;;
      match_ RPAREN ;;
      ret t
  | _ =>
      syntaxError "factor:: unexpected token -> "%string ;;
      ts <- gets tokenString ;;
      printToken tk ts ;;
      advance ;;
      ret None
  end.

Definition var_stmt : M ptr :=
  t <- newStmtNode VarK ;;
  match_ VAR ;;
  l <- call (PVarList true) ;;
  set_child t 0 l ;;
  ret t.

Definition var_list (explicit_dim : bool) : M ptr :=
  call (PVarListLoop explicit_dim None None).

Definition var_list_loop (explicit_dim : bool) (root lst : ptr) : M ptr :=
  tk <- gets token ;;
  if tok_eqb tk ID then
    p <- newExpNode IdK ;;
    tk1 <- gets token ;;
    let continue (root lst : ptr) : M ptr :=
      tk2 <- gets token ;;
      (if tok_eqb tk2 ASSIGN then
         v <- call PValueExp ;; set_child lst 0 v
       else if tok_eqb tk2 LMBRACKET then
         d <- call (PDimExp explicit_dim) ;;
         set_child lst 0 d ;;
         tk3 <- gets token ;;
         when (tok_eqb tk3 ASSIGN && explicit_dim)
           (m <- call PMultiValueExp ;; set_child lst 1 m)
       else ret tt) ;;
      tk4 <- gets token ;;
      if tok_eqb tk4 COMMA then
        match_ COMMA ;;
        call (PVarListLoop explicit_dim root lst)
      else ret root
    in
    if nonnull p && tok_eqb tk1 ID then
      ts <- gets tokenString ;;
      set_name p (copyString ts) ;;
      match_ ID ;;
      if negb (nonnull lst) then continue p p
      else set_sibling lst p ;; continue root p
    else continue root lst
  else ret root.

Definition value_exp : M ptr :=
  q <- newExpNode ValueK ;;
  when (nonnull q)
    (match_ ASSIGN ;;
     tk <- gets token ;;
     if tok_eqb tk LAMBDA
     then l <- call PLambdaExp ;; set_child q 0 l
     else e <- call PExp ;; set_child q 0 e) ;;
  ret q.

Definition multi_value_exp : M ptr :=
  match_ ASSIGN ;;
  match_ LPAREN ;;
  root <- call (PMultiValueLoop None None) ;;
  match_ RPAREN ;;
  ret root.

Definition multi_value_loop (root lst : ptr) : M ptr :=
  p <- newExpNode ValueK ;;
  when (nonnull p) (e <- call PExp ;; set_child p 0 e) ;;
  root1 <- (if negb (nonnull lst) then ret p
            else set_sibling lst p ;; ret root) ;;
  tk <- gets token ;;
  if tok_eqb tk COMMA then
    match_ COMMA ;;
    call (PMultiValueLoop root1 p)
  else ret root1.

Definition dim_exp (explicit_dim : bool) : M ptr :=
  call (PDimLoop explicit_dim None None).

Definition dim_loop (explicit_dim : bool) (root lst : ptr) : M ptr :=
  tk <- gets token ;;
  if tok_eqb tk LMBRACKET then
    match_ LMBRACKET ;;
    p <- newExpNode DimK ;;
    when (nonnull p && explicit_dim)
      (tk1 <- gets token ;;
       if tok_eqb tk1 ID then
         t <- newExpNode IdK ;;
         tk2 <- gets token ;;
         when (nonnull t && tok_eqb tk2 ID)
           (ts <- gets tokenString ;; set_name t (copyString ts)) ;;
         match_ ID ;;
         set_child p 0 t
       else
         e <- call PSimpleExp ;; set_child p 0 e) ;;
    match_ RMBRACKET ;;
    if negb (nonnull lst) then call (PDimLoop explicit_dim p p)
    else set_sibling lst p ;; call (PDimLoop explicit_dim root p)
  else ret root.

Definition while_stmt : M ptr :=
  t <- newStmtNode WhileK ;;
  match_ WHILE ;;
  match_ LPAREN ;;
  when (nonnull t) (c <- call PExp ;; set_child t 0 c) ;;
  match_ RPAREN ;;
  when (nonnull t) (s <- call PStmtSequence ;; set_child t 1 s) ;;
  match_ END ;;
  ret t.

Definition return_stmt : M ptr :=
  t <- newStmtNode ReturnK ;;
  match_ RETURN ;;
  when (nonnull t) (e <- call PExp ;; set_child t 0 e) ;;
  ret t.

Definition func_stmt : M ptr :=
  t <- newStmtNode FuncK ;;
  match_ FUNC ;;
  tk <- gets token ;;
  when (nonnull t && tok_eqb tk ID)
    (ts <- gets tokenString ;; set_name t (copyString ts) ;; match_ ID) ;;
  when (nonnull t)
    (p <- call PParams ;; set_child t 0 p ;;
     s <- call PStmtSequence ;; set_child t 1 s) ;;
  match_ END ;;
  ret t.

Definition params : M ptr :=
  t <- newExpNode ParamsK ;;
  match_ LPAREN ;;
  l <- call (PVarList false) ;;
  set_child t 0 l ;;
  match_ RPAREN ;;
  ret t.

Definition for_stmt : M ptr :=
  t <- newStmtNode ForK ;;
  match_ FOR ;;
  match_ LPAREN ;;
  tk <- gets token ;;
  when (tok_eqb tk VAR) (match_ VAR) ;;
  when (nonnull t)
    (v <- call (PVarList true) ;; set_child t 0 v ;;
     match_ SEMI ;;
     c <- call PExp ;; set_child t 1 c ;;
     match_ SEMI ;;
     a <- call PAssignStmt ;; set_child t 2 a ;;
     match_ RPAREN ;;
     s <- call PStmtSequence ;; set_child t 3 s) ;;
  match_ END ;;
  ret t.

Definition lambda_exp : M ptr :=
  t <- newStmtNode FuncK ;;
  match_ LAMBDA ;;
  when (nonnull t)
    (set_name t "lambda"%string ;;
     p <- call PParams ;; set_child t 0 p ;;
     match_ COLON ;;
     e <- call PExp ;; set_child t 1 e) ;;
  ret t.

Definition call_stmt (name : option string) : M ptr :=
  t <- newStmtNode CallK ;;
  when (nonnull t) (store t (with_attr (name_attr name))) ;;
  match_ LPAREN ;;
  call (PCallLoop t None) ;;
  match_ RPAREN ;;
  ret t.

Definition call_loop (t lst : ptr) : M ptr :=
  tk <- gets token ;;
  if negb (tok_eqb tk RPAREN) then
    p <- call PExp ;;
    lst1 <- (if nonnull p then
               (if negb (nonnull lst) then set_child t 0 p
                else set_sibling lst p) ;;
               ret p
             else ret lst) ;;
    tk1 <- gets token ;;
    if tok_eqb tk1 COMMA then
      match_ COMMA ;;
      call (PCallLoop t lst1)
    else ret t
  else ret t.

(** The body of each procedure and loop. *)
Definition body (c : Prod) : M ptr :=
  match c with
  | PStmtSequence => stmt_sequence
  | PStmtSequenceLoop t p => stmt_sequence_loop t p
  | PStatement => statement
  | PIfStmt => if_stmt
  | PRepeatStmt => repeat_stmt
  | PAssignStmt => assign_stmt
  | PReadStmt => read_stmt
  | PWriteStmt => write_stmt
  | PExp => exp
  | PSimpleExp => simple_exp
  | PSimpleExpLoop t => simple_exp_loop t
  | PTerm => term
  | PTermLoop t => term_loop t
  | PFactor => factor
  | PVarStmt => var_stmt
  | PVarList e => var_list e
  | PVarListLoop e root lst => var_list_loop e root lst
  | PValueExp => value_exp
  | PMultiValueExp => multi_value_exp
  | PMultiValueLoop root lst => multi_value_loop root lst
  | PDimExp e => dim_exp e
  | PDimLoop e root lst => dim_loop e root lst
  | PWhileStmt => while_stmt
  | PReturnStmt => return_stmt
  | PFuncStmt => func_stmt
  | PParams => params
  | PForStmt => for_stmt
  | PLambdaExp => lambda_exp
  | PCallStmt name => call_stmt name
  | PCallLoop t lst => call_loop t lst
  end.

End Productions.

(** Tying the knot: [run fuel c] executes procedure [c], each call and
    each loop iteration taking one unit of [fuel]. *)
Fixpoint run (fuel : nat) (c : Prod) : M ptr :=
  match fuel with
  | O => fun _ => OutOfFuel
  | S fuel' => body (run fuel') c
  end.

(** ** parse.c: the driver *)

Definition parse (fuel : nat) : M ptr :=
  advance ;;
  t <- run fuel PStmtSequence ;;
  tk <- gets token ;;
  when (negb (tok_eqb tk ENDFILE))
    (syntaxError ("Code ends before file" ++ newline)%string) ;;
  ret t.

(** The state in which [parse] is entered: nothing read, nothing
    allocated, nothing reported. *)
Definition initial (toks : list Token) (oracle : nat -> bool) : State :=
  mkState ENDFILE EmptyString 0 toks [] false [] oracle 0.

(** The state of a parse that is under way with [tk] as lookahead. *)
Definition looking_at (tk : Token) (rest : list Token)
    (oracle : nat -> bool) : State :=
  mkState (tok_kind tk) (tok_text tk) (tok_line tk) rest [] false []
          oracle 0.

(** ** Reading the tree back from the heap *)

#[warnings="-register-all"]
Inductive Tree : Type :=
  | TNode (k : NodeKind) (a : Attr) (children : list (option Tree))
          (sib : option Tree).

(** The tree below pointer [p], followed to depth [depth]. *)
Fixpoint tree_at (depth : nat) (h : list TreeNode) (p : ptr)
    : option Tree :=
  match depth, p with
  | S d, Some i =>
      match h !! i with
      | Some n =>
          Some (TNode (nodekind n) (attr n)
                      (map (tree_at d h) (child n))
                      (tree_at d h (sibling n)))
      | None => None
      end
  | _, _ => None
  end.

(** Number of syntax-error diagnostics in a listing. *)
Definition is_diagnostic (o : Output) : bool :=
  match o with
  | OutSyntaxError _ _ => true
  | _ => false
  end.

Definition diagnostics (st : State) : nat :=
  length (List.filter is_diagnostic (listing st)).

(** ** Vocabulary for the statements below *)

(** An allocator that never fails, and one that fails on request [k]
    only. *)
Definition never_fails : nat -> bool := fun _ => true.
Definition fails_at (k : nat) : nat -> bool := fun n => negb (Nat.eqb n k).

(** A token on line 1. *)
Definition tok (k : TokenType) (text : string) : Token := mkToken k text 1.

(** What a finished run leaves behind: the tree below the returned
    pointer, the lookahead, the failure flag and the number of
    diagnostics. *)
Definition outcome (r : Res ptr)
    : option (option Tree * TokenType * bool * nat) :=
  match r with
  | Ok p st =>
      Some (tree_at (length (heap st)) (heap st) p, token st, Error st,
            diagnostics st)
  | _ => None
  end.

Definition leaf (k : NodeKind) (a : Attr) : Tree :=
  TNode k a (replicate MAXCHILDREN None) None.

Definition Const (z : Z) : Tree := leaf (ExpK ConstK) (AttrVal z).
Definition Id (s : string) : Tree := leaf (ExpK IdK) (AttrName s).
Definition Op (op : TokenType) (l r : Tree) : Tree :=
  TNode (ExpK OpK) (AttrOp op) [Some l; Some r; None; None] None.

(** A [Call] node with its argument list, and a tree with a successor. *)
Definition Call (name : string) (args : option Tree) : Tree :=
  TNode (StmtK CallK) (AttrName name) [args; None; None; None] None.

Definition followed_by (t next : Tree) : Tree :=
  match t with
  | TNode k a cs _ => TNode k a cs (Some next)
  end.

(** The state a primitive leaves behind. *)
Definition after_advance (st : State) : State :=
  set_token (scan_kind st) (scan_next st).

Definition after_syntaxError (message : string) (st : State) : State :=
  set_Error true
    (emit (OutSyntaxError (lineno st) message)
       (emit (OutText (newline ++ ">>> ")%string) st)).

Definition after_mismatch (expected : TokenType) (st : State) : State :=
  emit (OutText "      "%string)
    (emit (OutToken expected EmptyString)
       (emit (OutText ("expected: " ++ newline)%string)
          (emit (OutToken (token st) (tokenString st))
             (after_syntaxError "match:: unexpected token -> "%string
                st)))).

Definition after_match (expected : TokenType) (st : State) : State :=
  if tok_eqb (token st) expected then after_advance st
  else after_mismatch expected st.


(** The lookaheads [statement] dispatches on, and the two on which it
    returns no node without a diagnostic. *)
Definition starts_statement (tk : TokenType) : bool :=
  match tk with
  | IF_ | REPEAT | ID | READ | WRITE | FUNC | VAR | WHILE | FOR | RETURN =>
      true
  | _ => false
  end.

Definition ends_block (tk : TokenType) : bool :=
  match tk with
  | END | ENDFILE => true
  | _ => false
  end.

(** The lookaheads [factor] dispatches on. *)
Definition starts_factor (tk : TokenType) : bool :=
  match tk with
  | NUM | ID | LPAREN => true
  | _ => false
  end.

(** The default branch of [statement] and of [factor]: one diagnostic,
    the offending token printed, one token read. *)
Definition after_unexpected (message : string) (st : State) : State :=
  after_advance
    (emit (OutToken (token st) (tokenString st))
       (after_syntaxError message st)).

Definition is_additive (tk : TokenType) : bool :=
  tok_eqb tk PLUS || tok_eqb tk MINUS || tok_eqb tk AND.

Definition is_multiplicative (tk : TokenType) : bool :=
  tok_eqb tk TIMES || tok_eqb tk OVER.

(** ** What a run may do to the state *)

Definition hlen (st : State) : nat := length (heap st).

(** Tokens still to be consumed: two per unread token, one more while
    the lookahead is not [ENDFILE]. *)
Definition togo (st : State) : nat :=
  2 * length (input st) + (if tok_eqb (token st) ENDFILE then 0 else 1).

(** [p] is NULL or points at or above cell [b]; NULL or below [b]. *)
Definition ptr_ge (b : nat) (p : ptr) : Prop :=
  match p with
  | Some i => b <= i
  | None => True
  end.

Definition ptr_lt (b : nat) (p : ptr) : Prop :=
  match p with
  | Some i => i < b
  | None => True
  end.

(** The three kinds of field assignment parse.c performs. *)
Inductive Write : Type :=
  | WChild (i : nat) (v : ptr)
  | WSibling (v : ptr)
  | WAttr (a : Attr).

Definition apply_write (w : Write) : TreeNode -> TreeNode :=
  match w with
  | WChild i v => with_child i v
  | WSibling v => with_sibling v
  | WAttr a => with_attr a
  end.

(** What a procedure owns while it runs: every cell from [base] on (the
    cells allocated since it was entered), the sibling link of
    [sib_tgt], the child slots of [child_tgt], the attribute of
    [attr_tgt]; the pointers it may store are those to cells it owns
    and the [known] ones it was handed. *)
Record Owner : Type := mkOwner {
  base : nat;
  sib_tgt : ptr;
  child_tgt : ptr;
  attr_tgt : ptr;
  known : list ptr
}.

Definition okv (ctx : Owner) (v : ptr) : Prop :=
  ptr_ge (base ctx) v \/ In v (known ctx).

Definition allowed (ctx : Owner) (p : nat) (w : Write) : Prop :=
  match w with
  | WAttr _ => base ctx <= p \/ attr_tgt ctx = Some p
  | WChild _ v => (base ctx <= p \/ child_tgt ctx = Some p) /\ okv ctx v
  | WSibling v => (base ctx <= p \/ sib_tgt ctx = Some p) /\ okv ctx v
  end.

(** One primitive state change. *)
Inductive Prim (ctx : Owner) : State -> State -> Prop :=
  | P_advance st : Prim ctx st (after_advance st)
  | P_emit o st : Prim ctx st (emit o st)
  | P_error st : Prim ctx st (set_Error true st)
  | P_alloc k st : Prim ctx st (alloc_state k st)
  | P_alloc_fail st : Prim ctx st (count_alloc st)
  | P_store p n w st :
      heap st !! p = Some n ->
      allowed ctx p w ->
      Prim ctx st (set_heap (<[p := apply_write w n]> (heap st)) st).

Inductive Steps (ctx : Owner) (st : State) : State -> Prop :=
  | Steps_refl : Steps ctx st st
  | Steps_snoc st1 st2 :
      Steps ctx st st1 -> Prim ctx st1 st2 -> Steps ctx st st2.

(** Cell [n] holds a pointer to cell [x]. *)
Definition points_to (n : TreeNode) (x : nat) : Prop :=
  sibling n = Some x \/ In (Some x) (child n).

Definition unreferenced (x : nat) (st : State) : Prop :=
  forall q n, heap st !! q = Some n -> ~ points_to n x.

(** The pointer arguments of a procedure or loop: the cell whose
    sibling link it may set, the cell whose child slots it may set, and
    all of them. *)
Definition sib_arg (c : Prod) : ptr :=
  match c with
  | PStmtSequenceLoop _ p => p
  | PVarListLoop _ _ lst => lst
  | PMultiValueLoop _ lst => lst
  | PDimLoop _ _ lst => lst
  | PCallLoop _ lst => lst
  | _ => None
  end.

Definition child_arg (c : Prod) : ptr :=
  match c with
  | PVarListLoop _ _ lst => lst
  | PCallLoop t _ => t
  | _ => None
  end.

Definition ptr_args (c : Prod) : list ptr :=
  match c with
  | PStmtSequenceLoop t p => [t; p]
  | PSimpleExpLoop t => [t]
  | PTermLoop t => [t]
  | PVarListLoop _ root lst => [root; lst]
  | PMultiValueLoop root lst => [root; lst]
  | PDimLoop _ root lst => [root; lst]
  | PCallLoop t lst => [t; lst]
  | _ => []
  end.

Definition ctx_of (c : Prod) (st : State) : Owner :=
  mkOwner (hlen st) (sib_arg c) (child_arg c) None (ptr_args c).

(** The procedures that consume their first token when entered on the
    lookahead they are dispatched on. *)
Definition consumes (c : Prod) (st : State) : Prop :=
  match c with
  | PStatement => ends_block (token st) = false
  | PIfStmt => token st = IF_
  | PRepeatStmt => token st = REPEAT
  | PAssignStmt => token st = ID
  | PReadStmt => token st = READ
  | PWriteStmt => token st = WRITE
  | PFuncStmt => token st = FUNC
  | PVarStmt => token st = VAR
  | PWhileStmt => token st = WHILE
  | PForStmt => token st = FOR
  | PReturnStmt => token st = RETURN
  | _ => False
  end.

(** What holds after procedure [c], entered in [st], has returned [r]
    in [st']. *)
Definition Post (c : Prod) (st : State) (r : ptr) (st' : State) : Prop :=
  Steps (ctx_of c st) st st' /\
  okv (ctx_of c st) r /\
  ptr_lt (hlen st') r /\
  (consumes c st -> togo st' < togo st).

(** The pointer arguments of [c] point into the heap of [st]. *)
Definition args_valid (c : Prod) (st : State) : Prop :=
  Forall (ptr_lt (hlen st)) (ptr_args c).

(** Partial and total correctness of a computation from a state. *)
Definition wlp {A} (m : M A) (Q : A -> State -> Prop) (st : State) : Prop :=
  match m st with
  | Ok a st' => Q a st'
  | _ => True
  end.

Definition wp {A} (m : M A) (Q : A -> State -> Prop) (st : State) : Prop :=
  match m st with
  | Ok a st' => Q a st'
  | _ => False
  end.

(** Cell [n'] is cell [n] except, perhaps, for the links the owner may
    set in cell [q]. *)
Definition same_but (ctx : Owner) (q : nat) (n n' : TreeNode) : Prop :=
  nodekind n' = nodekind n /\
  (attr_tgt ctx <> Some q -> attr n' = attr n) /\
  (sib_tgt ctx <> Some q -> sibling n' = sibling n) /\
  (child_tgt ctx <> Some q -> child n' = child n).

(** Everything owner [inner] may do, owner [outer] may do. *)
Definition ctx_le (inner outer : Owner) : Prop :=
  base outer <= base inner /\
  (ptr_ge (base outer) (sib_tgt inner) \/ sib_tgt inner = sib_tgt outer) /\
  (ptr_ge (base outer) (child_tgt inner) \/
   child_tgt inner = child_tgt outer) /\
  (ptr_ge (base outer) (attr_tgt inner) \/
   attr_tgt inner = attr_tgt outer) /\
  (forall v, In v (known inner) -> okv outer v).

(** ** Termination measure *)

(** Every allocation request succeeds. *)
Definition always_ok (st : State) : Prop :=
  forall n, alloc_ok st n = true.

(** A procedure only enters procedures of lower rank before it has
    consumed a token. *)
Definition rank (c : Prod) : nat :=
  match c with
  | PFactor | PTermLoop _ | PSimpleExpLoop _ => 0
  | PDimLoop _ _ _ | PVarListLoop _ _ _ => 0
  | PIfStmt | PRepeatStmt | PWhileStmt | PForStmt | PFuncStmt => 0
  | PReadStmt => 0
  | PTerm | PDimExp _ | PVarList _ => 1
  | PSimpleExp | PParams | PVarStmt => 2
  | PExp => 3
  | PCallLoop _ _ | PMultiValueLoop _ _ => 4
  | PLambdaExp | PWriteStmt | PReturnStmt => 4
  | PCallStmt _ | PMultiValueExp | PValueExp => 5
  | PAssignStmt => 6
  | PStatement => 7
  | PStmtSequenceLoop _ _ => 8
  | PStmtSequence => 9
  end.

Definition fuel_needed (c : Prod) (st : State) : nat :=
  rank c + 10 * togo st.

(** The state in which parse.c enters a procedure or loop: the block
    statements on their keyword, the loops with the local pointers as
    the surrounding procedure keeps them. *)
Definition entry_ok (c : Prod) (st : State) : Prop :=
  match c with
  | PIfStmt => token st = IF_
  | PRepeatStmt => token st = REPEAT
  | PWhileStmt => token st = WHILE
  | PForStmt => token st = FOR
  | PFuncStmt => token st = FUNC
  | PStmtSequenceLoop t p => nonnull t = true -> nonnull p = true
  | PCallLoop t _ => nonnull t = true
  | _ => True
  end.

Definition callable (c : Prod) (st : State) : Prop :=
  entry_ok c st /\ args_valid c st.

(** ** Nodes a procedure hands back *)

(** Cell [q] is a statement node that is not linked to a successor. *)
Definition stmt_cell (st : State) (q : nat) : Prop :=
  exists n, heap st !! q = Some n /\ sibling n = None /\
            exists k, nodekind n = StmtK k.

(** A procedure entered in [st] returned NULL or a statement node it
    allocated itself, not yet linked to a successor. *)
Definition returns_stmt (st : State) (r : ptr) (st' : State) : Prop :=
  forall q, r = Some q -> hlen st <= q /\ stmt_cell st' q.

(** Cell [q] is a [Call] node for [name], not linked to a successor. *)
Definition call_cell (name : option string) (st : State) (q : nat) : Prop :=
  exists n, heap st !! q = Some n /\ nodekind n = StmtK CallK /\
            sibling n = None /\ attr n = name_attr name.

Definition returns_call (name : option string) (st : State) (r : ptr)
    (st' : State) : Prop :=
  forall q, r = Some q -> hlen st <= q /\ call_cell name st' q.

(** The statement forms [statement] dispatches to, and [call_stmt]. *)
Definition is_stmt_form (c : Prod) : bool :=
  match c with
  | PIfStmt | PRepeatStmt | PAssignStmt | PReadStmt | PWriteStmt
  | PFuncStmt | PVarStmt | PWhileStmt | PForStmt | PReturnStmt => true
  | _ => false
  end.

(** The owner of the cell [q] a procedure has just allocated: the cells
    after it, and the child slots and attribute of [q] itself. *)
Definition owner_of_new (q : nat) : Owner :=
  mkOwner (S q) None (Some q) (Some q) [Some q].

(** The same once the attribute of [q] is settled. *)
Definition owner_of_named (q : nat) : Owner :=
  mkOwner (S q) None (Some q) None [Some q].

(** ** States a binary-operator loop passes through *)

(** The state after a store through a pointer to cell [p]. *)
Definition put (p : nat) (f : TreeNode -> TreeNode) (st : State) : State :=
  match heap st !! p with
  | Some n => set_heap (<[p := f n]> (heap st)) st
  | None => st
  end.

(** The state in which the right operand is parsed: the [Op] node has
    been allocated in cell [hlen st], [t] is its child 0, the lookahead
    operator its attribute, and the operator has been consumed. *)
Definition op_opened (t : ptr) (st : State) : State :=
  after_advance
    (put (hlen st) (with_attr (AttrOp (token st)))
       (put (hlen st) (with_child 0 t) (alloc_state (ExpK OpK) st))).

(** An [Op] cell with left operand [l] and right operand [r]. *)
Definition op_cell (op : TokenType) (l r : ptr) : TreeNode :=
  mkNode (ExpK OpK) [l; r; None; None] None (AttrOp op).

(** ** Sibling chains *)

(** Following [sibling] from [t] visits exactly the cells [l], in that
    order, and then reaches NULL. *)
Fixpoint chain (h : list TreeNode) (t : ptr) (l : list nat) : Prop :=
  match l with
  | [] => t = None
  | q :: l' =>
      t = Some q /\ exists n, h !! q = Some n /\ chain h (sibling n) l'
  end.

(** The local variables of a list-building loop: [t] heads the chain
    [l] built so far and [p] is its last cell. *)
Definition builds (t p : ptr) (l : list nat) (st : State) : Prop :=
  chain (heap st) t l /\ p = last l /\ NoDup l.

(** [if (token == SEMI) match(SEMI);] *)
Definition skip_separator (st : State) : State :=
  if tok_eqb (token st) SEMI then after_advance st else st.

(** [if (t == NULL) t = p = q; else { p->sibling = q; p = q; }] *)
Definition linked (t p : ptr) (q : nat) (st : State) : State :=
  match t, p with
  | Some _, Some i => put i (with_sibling (Some q)) st
  | _, _ => st
  end.

Definition head_after (t : ptr) (q : nat) : ptr :=
  match t with
  | Some _ => t
  | None => Some q
  end.

(** ** States the loop of [dim_exp] passes through *)

(** [if (lst == NULL) root = p; else lst->sibling = p;  lst = p;] *)
Definition appended (lst : ptr) (q : nat) (st : State) : State :=
  match lst with
  | Some i => put i (with_sibling (Some q)) st
  | None => st
  end.

Definition root_after (root lst : ptr) (q : nat) : ptr :=
  match lst with
  | Some _ => root
  | None => Some q
  end.

(** After [match(LMBRACKET)] on a bracket and the allocation of the
    [Dim] node, which lands in cell [hlen st]. *)
Definition dim_opened (st : State) : State :=
  alloc_state (ExpK DimK) (after_advance st).



Definition dim_cell (r : ptr) : TreeNode :=
  mkNode (ExpK DimK) [r; None; None; None] None AttrUnset.

Definition id_cell (name : string) : TreeNode :=
  mkNode (ExpK IdK) [None; None; None; None] None (AttrName name).

(** ** Comparing two runs that differ in the kind of one cell *)

Definition with_kind (k : NodeKind) (n : TreeNode) : TreeNode :=
  mkNode k (child n) (sibling n) (attr n).

(** The state [st] with the kind of cell [x] replaced by [k]. *)
Definition retag (x : nat) (k : NodeKind) (st : State) : State :=
  set_heap (alter (with_kind k) x (heap st)) st.

Definition res_map {A} (g : State -> State) (r : Res A) : Res A :=
  match r with
  | Ok a st => Ok a (g st)
  | Crash => Crash
  | OutOfFuel => OutOfFuel
  end.

(** Computation [m] does not look at the kind of cell [x]: run on the
    retagged state it does the same and leaves the retagged result. *)
Definition blind_to {A} (x : nat) (k : NodeKind) (m : M A) : Prop :=
  forall st,
    x < hlen st ->
    m (retag x k st) = res_map (retag x k) (m st) /\
    (forall a st', m st = Ok a st' -> x < hlen st').

(** Two outcomes that are the same call: the same pointer, the same
    tree below it, the same scanner and diagnostic state, and the same
    heap except for cell [x]. *)
Definition same_call (x : nat) (a b : Res ptr) : Prop :=
  match a, b with
  | Ok r1 s1, Ok r2 s2 =>
      r1 = r2 /\
      (forall d, tree_at d (heap s1) r1 = tree_at d (heap s2) r2) /\
      token s1 = token s2 /\ tokenString s1 = tokenString s2 /\
      input s1 = input s2 /\
      listing s1 = listing s2 /\ Error s1 = Error s2 /\
      (forall q, q <> x -> heap s1 !! q = heap s2 !! q)
  | Crash, Crash => True
  | OutOfFuel, OutOfFuel => True
  | _, _ => False
  end.

(** The state in which [call_stmt] is entered after [assign_stmt] (with
    [k] the kind [AssignK]) or [factor] (with [k] the kind [IdK]) has
    allocated its node in cell [hlen st], named it and consumed the
    identifier. *)
Definition callee_named (k : NodeKind) (st : State) : State :=
  after_advance
    (put (hlen st) (with_attr (AttrName (copyString (tokenString st))))
       (alloc_state k st)).

(** ** Properties of the state that hold throughout *)

(** Computation [m] keeps the state property [I]. *)
Definition keeps {A} (I : State -> Prop) (m : M A) : Prop :=
  forall st, I st -> wlp m (fun _ st' => I st') st.

(** The failure flag is set exactly when a syntax error has been
    reported. *)
Definition flag_matches_listing (st : State) : Prop :=
  Error st = true <-> 0 < diagnostics st.

(** State [st'] continues the listing of [st] and has not dropped its
    failure flag. *)
Definition continues_listing (st st' : State) : Prop :=
  (exists l, listing st' = listing st ++ l) /\
  (Error st = true -> Error st' = true).

(** The operators [exp] tests for. *)
Definition is_comparison (tk : TokenType) : bool :=
  tok_eqb tk LT || tok_eqb tk EQ || tok_eqb tk GT.

(** ** What the expression procedures hand back *)

(** The kinds of node an expression procedure returns: an operator, a
    constant, an identifier, or the [Call] node of [call_stmt]. *)
Definition is_exp_result (k : NodeKind) : bool :=
  match k with
  | ExpK OpK | ExpK ConstK | ExpK IdK | StmtK CallK => true
  | _ => false
  end.

(** Cell [q] is such a node and is not linked to a successor. *)
Definition exp_cell (q : nat) (st : State) : Prop :=
  exists n, heap st !! q = Some n /\ sibling n = None /\
            is_exp_result (nodekind n) = true.

Definition exp_ptr (r : ptr) (st : State) : Prop :=
  forall q, r = Some q -> exp_cell q st.

Definition is_exp_level (c : Prod) : bool :=
  match c with
  | PExp | PSimpleExp | PSimpleExpLoop _ | PTerm | PTermLoop _ | PFactor =>
      true
  | _ => false
  end.

(** Every such cell of [st] is still one in [st1]. *)
Definition carried (st st1 : State) : Prop :=
  forall q, exp_cell q st -> exp_cell q st1.

(** ** The argument list of a call *)




(** [if (token == COMMA) match(COMMA); else break;] *)
Definition after_argument (loop : State -> Res ptr) (t : ptr) (st : State)
    : Res ptr :=
  if tok_eqb (token st) COMMA then loop (after_advance st) else Ok t st.

(** ** Allocation failure *)

(** The procedures that test their own node for NULL before every use
    of it. *)
Definition checks_own_node (c : Prod) : bool :=
  match c with
  | PIfStmt | PRepeatStmt | PReadStmt | PWriteStmt | PWhileStmt
  | PReturnStmt | PFuncStmt | PForStmt | PLambdaExp | PValueExp => true
  | _ => false
  end.

(** A knot that enters no procedure: every call stops the run. *)
Definition no_call (c : Prod) : M ptr := fun _ => Crash.

(** ** Pointers inside the heap *)

(** Node [n] has its [MAXCHILDREN] child slots, and every link in it is
    NULL or points below [b]. *)
Definition node_closed (b : nat) (n : TreeNode) : Prop :=
  length (child n) = MAXCHILDREN /\
  ptr_lt b (sibling n) /\ Forall (ptr_lt b) (child n).

(** No node of the heap points outside the heap. *)
Definition heap_closed (st : State) : Prop :=
  forall q n, heap st !! q = Some n -> node_closed (hlen st) n.

(** Every sibling link points to a node allocated later. *)
Definition heap_forward (st : State) : Prop :=
  forall i n j, heap st !! i = Some n -> sibling n = Some j -> i < j.

(** ** The forms of an assignment *)

(** An [Assign] cell for [name] with child slots [c0] and [c1]. *)
Definition assign_cell (name : string) (c0 c1 : ptr) : TreeNode :=
  mkNode (StmtK AssignK) [c0; c1; None; None] None (AttrName name).

(** The tokens on which [assign_stmt] goes on after the identifier. *)
Definition continues_assignment (tk : TokenType) : bool :=
  tok_eqb tk LMBRACKET || tok_eqb tk ASSIGN || tok_eqb tk LPAREN.

(** ** A list of plain identifiers *)

(** The kind of the first of [toks]; past the end it is [ENDFILE]. *)
Definition kind_of (toks : list Token) : TokenType :=
  match toks with
  | [] => ENDFILE
  | tk :: _ => tok_kind tk
  end.

(** The scanner has [tk] as lookahead and [rest] still to read. *)
Definition reading (toks : list Token) (st : State) : Prop :=
  match toks with
  | [] => False
  | tk :: rest =>
      token st = tok_kind tk /\ tokenString st = tok_text tk /\
      input st = rest
  end.

(** The tokens [toks] are [n1 , n2 , ... , nk]: identifiers whose
    texts are [names], with one comma between each two; the lines of
    the tokens and the text of the commas are whatever the scanner
    gave them. *)
Fixpoint id_list (names : list string) (toks : list Token) : Prop :=
  match names with
  | [] => toks = []
  | n :: ns =>
      match toks with
      | [] => False
      | t :: toks1 =>
          tok_kind t = ID /\ tok_text t = n /\
          match ns with
          | [] => toks1 = []
          | _ :: _ =>
              match toks1 with
              | [] => False
              | c :: toks2 => tok_kind c = COMMA /\ id_list ns toks2
              end
          end
      end
  end.

(** The [Id] nodes for [names] in cells [b], [b+1], ..., each linked to
    the next. *)
Fixpoint id_cells (b : nat) (names : list string) : list TreeNode :=
  match names with
  | [] => []
  | n :: ns =>
      match ns with
      | [] => [id_cell n]
      | _ :: _ => with_sibling (Some (S b)) (id_cell n) :: id_cells (S b) ns
      end
  end.

(** [lst->sibling = q] in heap [h], when there is a [lst]. *)
Definition link_last (lst : ptr) (q : nat) (h : list TreeNode)
    : list TreeNode :=
  match lst with
  | Some i => alter (with_sibling (Some q)) i h
  | None => h
  end.

(** The tokens after which [var_list] does not go on with an
    initialiser or a dimension. *)
Definition declaration_goes_on (tk : TokenType) : bool :=
  tok_eqb tk ASSIGN || tok_eqb tk LMBRACKET.

(** What may follow the last identifier for the list to end there: no
    initialiser, no dimension, and a comma only if no identifier comes
    after it. *)
Definition list_ends (rest : list Token) : Prop :=
  declaration_goes_on (kind_of rest) = false /\
  (kind_of rest = COMMA -> kind_of (tail rest) <> ID).

(** Where the scanner stands after the list: a trailing comma has been
    consumed. *)
Definition after_list (rest : list Token) : list Token :=
  if tok_eqb (kind_of rest) COMMA then tail rest else rest.

(** ** The node a form is built on *)


(** ** A [read] statement *)

(** The text of the token after the lookahead. *)
Definition scan_text (st : State) : string :=
  match input st with
  | [] => EmptyString
  | tk :: _ => tok_text tk
  end.

(** A [Read] cell, named or not. *)
Definition read_cell (a : Attr) : TreeNode :=
  mkNode (StmtK ReadK) [None; None; None; None] None a.

(** ** A sequence of statements *)

(** Cell [q] is a statement node. *)
Definition stmt_node (st : State) (q : nat) : Prop :=
  exists n, heap st !! q = Some n /\ exists k, nodekind n = StmtK k.

(** ** Which kind of node hangs where *)

Definition is_stmt (k : NodeKind) : bool :=
  match k with
  | StmtK _ => true
  | ExpK _ => false
  end.

Definition is_kind (k0 k : NodeKind) : bool :=
  match k0, k with
  | StmtK IfK, StmtK IfK | StmtK RepeatK, StmtK RepeatK
  | StmtK AssignK, StmtK AssignK | StmtK ReadK, StmtK ReadK
  | StmtK WriteK, StmtK WriteK | StmtK FuncK, StmtK FuncK
  | StmtK VarK, StmtK VarK | StmtK WhileK, StmtK WhileK
  | StmtK ForK, StmtK ForK | StmtK ReturnK, StmtK ReturnK
  | StmtK CallK, StmtK CallK
  | ExpK OpK, ExpK OpK | ExpK ConstK, ExpK ConstK | ExpK IdK, ExpK IdK
  | ExpK ValueK, ExpK ValueK | ExpK DimK, ExpK DimK
  | ExpK ParamsK, ExpK ParamsK => true
  | _, _ => false
  end.

Definition either (a b : NodeKind -> bool) (k : NodeKind) : bool :=
  a k || b k.

Definition no_kind (k : NodeKind) : bool := false.

(** What [assign_stmt] returns: its own node or the one of
    [call_stmt]. *)
Definition is_assign_or_call : NodeKind -> bool :=
  either (is_kind (StmtK AssignK)) (is_kind (StmtK CallK)).

(** What an initialised or dimensioned name carries in child 0. *)
Definition is_dim_or_value : NodeKind -> bool :=
  either (is_kind (ExpK DimK)) (is_kind (ExpK ValueK)).

(** The kinds of node parse.c stores in child slot [i] of a node of
    kind [k]; a slot it never assigns stays NULL. *)
Definition child_kind (k : NodeKind) (i : nat) : NodeKind -> bool :=
  match k, i with
  | StmtK IfK, 0 => is_exp_result
  | StmtK IfK, 1 | StmtK IfK, 2 => is_stmt
  | StmtK RepeatK, 0 => is_stmt
  | StmtK RepeatK, 1 => is_exp_result
  | StmtK AssignK, 0 => is_dim_or_value
  | StmtK AssignK, 1 => is_kind (ExpK ValueK)
  | StmtK WriteK, 0 => is_exp_result
  | StmtK ReturnK, 0 => is_exp_result
  | StmtK VarK, 0 => is_kind (ExpK IdK)
  | StmtK WhileK, 0 => is_exp_result
  | StmtK WhileK, 1 => is_stmt
  | StmtK FuncK, 0 => is_kind (ExpK ParamsK)
  | StmtK FuncK, 1 => either is_stmt is_exp_result
  | StmtK ForK, 0 => is_kind (ExpK IdK)
  | StmtK ForK, 1 => is_exp_result
  | StmtK ForK, 2 => is_assign_or_call
  | StmtK ForK, 3 => is_stmt
  | StmtK CallK, 0 => is_exp_result
  | ExpK OpK, 0 | ExpK OpK, 1 => is_exp_result
  | ExpK IdK, 0 => is_dim_or_value
  | ExpK IdK, 1 => is_kind (ExpK ValueK)
  | ExpK ValueK, 0 => either is_exp_result (is_kind (StmtK FuncK))
  | ExpK DimK, 0 => is_exp_result
  | ExpK ParamsK, 0 => is_kind (ExpK IdK)
  | _, _ => no_kind
  end.

(** The kinds of node parse.c links behind a node of kind [k]. *)
Definition sibling_kind (k : NodeKind) : NodeKind -> bool :=
  match k with
  | StmtK CallK => either is_stmt is_exp_result
  | StmtK _ => is_stmt
  | ExpK OpK | ExpK ConstK | ExpK IdK => is_exp_result
  | ExpK DimK => is_kind (ExpK DimK)
  | ExpK ValueK => is_kind (ExpK ValueK)
  | ExpK ParamsK => no_kind
  end.

(** Pointer [p] is NULL or points to a node whose kind is in [cls]. *)
Definition has_kind (st : State) (p : ptr) (cls : NodeKind -> bool) : Prop :=
  match p with
  | None => True
  | Some q => exists n, heap st !! q = Some n /\ cls (nodekind n) = true
  end.

Definition node_kinded (st : State) (n : TreeNode) : Prop :=
  has_kind st (sibling n) (sibling_kind (nodekind n)) /\
  forall i c, child n !! i = Some c ->
    has_kind st c (child_kind (nodekind n) i).

(** Every link of every node holds a node of a kind parse.c puts
    there. *)
Definition heap_kinded (st : State) : Prop :=
  forall q n, heap st !! q = Some n -> node_kinded st n.

(** The kind of node each procedure returns. *)
Definition result_kind (c : Prod) : NodeKind -> bool :=
  match c with
  | PStmtSequence | PStmtSequenceLoop _ _ | PStatement
  | PIfStmt | PRepeatStmt | PReadStmt | PWriteStmt | PVarStmt
  | PWhileStmt | PForStmt | PReturnStmt => is_stmt
  | PFuncStmt | PLambdaExp => is_kind (StmtK FuncK)
  | PAssignStmt => is_assign_or_call
  | PExp | PSimpleExp | PSimpleExpLoop _ | PTerm | PTermLoop _ | PFactor =>
      is_exp_result
  | PVarList _ | PVarListLoop _ _ _ => is_kind (ExpK IdK)
  | PValueExp | PMultiValueExp | PMultiValueLoop _ _ => is_kind (ExpK ValueK)
  | PDimExp _ | PDimLoop _ _ _ => is_kind (ExpK DimK)
  | PParams => is_kind (ExpK ParamsK)
  | PCallStmt _ | PCallLoop _ _ => is_kind (StmtK CallK)
  end.

(** The kinds of the nodes a loop is handed: those it returns, and for
    the loop of [call_stmt] the [Call] node and the last argument. *)
Definition args_kinded (c : Prod) (st : State) : Prop :=
  match c with
  | PCallLoop t lst =>
      has_kind st t (is_kind (StmtK CallK)) /\ has_kind st lst is_exp_result
  | _ => Forall (fun t => has_kind st t (result_kind c)) (ptr_args c)
  end.

(** Every node of [a] is still there in [b], with the kind it had. *)
Definition kinds_kept (a b : State) : Prop :=
  forall q n, heap a !! q = Some n ->
    exists n', heap b !! q = Some n' /\ nodekind n' = nodekind n.

(** ** A function definition *)

(** A [Func] cell with attribute [a], parameters [ps] and body [b]. *)
Definition func_cell (a : Attr) (ps b : ptr) : TreeNode :=
  mkNode (StmtK FuncK) [ps; b; None; None] None a.

(** The state in which [func_stmt] enters [params]: the [Func] node is
    in cell [hlen st], [func] has been consumed, and so has the name if
    an identifier follows [func]. *)
Definition func_opened (st : State) : State :=
  let st0 := after_advance (alloc_state (StmtK FuncK) st) in
  if tok_eqb (token st0) ID
  then after_advance
         (put (hlen st) (with_attr (AttrName (copyString (tokenString st0))))
            st0)
  else st0.

(** The attribute of the [Func] node: the text of the token after
    [func] if that is an identifier, nothing otherwise. *)
Definition func_name (st : State) : Attr :=
  if tok_eqb (scan_kind st) ID then AttrName (scan_text st) else AttrUnset.

(** ** Basic facts about the primitives *)

Lemma tok_eqb_eq (a b : TokenType) : tok_eqb a b = true <-> a = b.
Proof.
  unfold tok_eqb. destruct (TokenType_eq_dec a b); split; congruence.
Qed.

Lemma tok_eqb_neq (a b : TokenType) : tok_eqb a b = false <-> a <> b.
Proof.
  unfold tok_eqb. destruct (TokenType_eq_dec a b); split; congruence.
Qed.

Lemma tok_eqb_refl (a : TokenType) : tok_eqb a a = true.
Proof. apply tok_eqb_eq. reflexivity. Qed.

Lemma advance_eq (st : State) : advance st = Ok tt (after_advance st).
Proof. reflexivity. Qed.

Lemma syntaxError_eq (message : string) (st : State) :
  syntaxError message st = Ok tt (after_syntaxError message st).
Proof. reflexivity. Qed.

Lemma match_eq (expected : TokenType) (st : State) :
  match_ expected st = Ok tt (after_match expected st).
Proof.
  unfold match_, after_match, bind, gets.
  destruct (tok_eqb (token st) expected); reflexivity.
Qed.

Lemma diagnostics_emit (o : Output) (st : State) :
  diagnostics (emit o st) =
  diagnostics st + (if is_diagnostic o then 1 else 0).
Proof.
  unfold diagnostics, emit; simpl.
  rewrite List.filter_app, length_app; simpl.
  destruct (is_diagnostic o); reflexivity.
Qed.

Lemma diagnostics_after_syntaxError (message : string) (st : State) :
  diagnostics (after_syntaxError message st) = S (diagnostics st).
Proof.
  unfold after_syntaxError.
  change (diagnostics (set_Error true ?s)) with (diagnostics s).
  rewrite !diagnostics_emit; simpl. lia.
Qed.

Lemma diagnostics_after_mismatch (expected : TokenType) (st : State) :
  diagnostics (after_mismatch expected st) = S (diagnostics st).
Proof.
  unfold after_mismatch.
  rewrite !diagnostics_emit, diagnostics_after_syntaxError; simpl. lia.
Qed.

(** ** What primitive state changes preserve *)

Lemma ptr_ge_mono (a b : nat) (p : ptr) : a <= b -> ptr_ge b p -> ptr_ge a p.
Proof. destruct p; simpl; lia. Qed.

Lemma ptr_lt_mono (a b : nat) (p : ptr) : a <= b -> ptr_lt a p -> ptr_lt b p.
Proof. destruct p; simpl; lia. Qed.

Lemma In_insert {A} (l : list A) (i : nat) (v y : A) :
  In y (<[i := v]> l) -> y = v \/ In y l.
Proof.
  revert i. induction l as [| a l IH]; intros [| i]; simpl; auto.
  - intros [-> | H]; auto.
  - intros [-> | H]; auto. destruct (IH _ H); auto.
Qed.

Lemma In_replicate {A} (n : nat) (x y : A) : In y (replicate n x) -> y = x.
Proof. induction n; simpl; intuition. Qed.

Lemma same_but_refl (ctx : Owner) (q : nat) (n : TreeNode) :
  same_but ctx q n n.
Proof. repeat split. Qed.

Lemma same_but_trans (ctx : Owner) (q : nat) (n1 n2 n3 : TreeNode) :
  same_but ctx q n1 n2 -> same_but ctx q n2 n3 -> same_but ctx q n1 n3.
Proof.
  intros (A1 & B1 & C1 & D1) (A2 & B2 & C2 & D2).
  repeat split; intros; try congruence.
  - rewrite B2, B1; auto.
  - rewrite C2, C1; auto.
  - rewrite D2, D1; auto.
Qed.

Section PrimFacts.

Variable ctx : Owner.

Lemma Prim_hlen st st' : Prim ctx st st' -> hlen st <= hlen st'.
Proof.
  unfold hlen. destruct 1; simpl;
    rewrite ?length_app, ?length_insert; simpl; try lia.
  unfold after_advance, scan_next. destruct (input st); simpl; lia.
Qed.

Lemma after_advance_togo st : togo (after_advance st) <= togo st.
Proof.
  unfold togo, after_advance, scan_next, scan_kind; simpl.
  destruct (input st) as [| tk rest]; simpl.
  - destruct (tok_eqb (token st) ENDFILE); lia.
  - destruct (tok_eqb (tok_kind tk) ENDFILE),
             (tok_eqb (token st) ENDFILE); lia.
Qed.

Lemma after_advance_togo_lt st :
  token st <> ENDFILE -> togo (after_advance st) < togo st.
Proof.
  intros H. apply tok_eqb_neq in H.
  unfold togo, after_advance, scan_next, scan_kind; simpl. rewrite H.
  destruct (input st) as [| tk rest]; simpl; [lia |].
  destruct (tok_eqb (tok_kind tk) ENDFILE); lia.
Qed.

Lemma Prim_togo st st' : Prim ctx st st' -> togo st' <= togo st.
Proof.
  destruct 1; try (unfold togo; simpl; lia).
  apply after_advance_togo.
Qed.

Lemma Prim_alloc_ok st st' : Prim ctx st st' -> alloc_ok st' = alloc_ok st.
Proof.
  destruct 1; try reflexivity.
  unfold after_advance, scan_next. destruct (input st); reflexivity.
Qed.

Lemma Prim_Error st st' :
  Prim ctx st st' -> Error st = true -> Error st' = true.
Proof.
  destruct 1; simpl; auto.
  unfold after_advance, scan_next. destruct (input st); auto.
Qed.

Lemma Prim_diagnostics st st' :
  Prim ctx st st' -> diagnostics st <= diagnostics st'.
Proof.
  destruct 1; try (unfold diagnostics; simpl; lia).
  - unfold diagnostics, after_advance, scan_next.
    destruct (input st); simpl; lia.
  - rewrite diagnostics_emit. lia.
Qed.

Lemma Prim_frame st st' q n :
  Prim ctx st st' -> q < base ctx -> heap st !! q = Some n ->
  exists n', heap st' !! q = Some n' /\ same_but ctx q n n'.
Proof.
  destruct 1 as [st | o st | st | k st | st | p m w st Hp Hw];
    intros Hq Hn; simpl;
    try (exists n; split; [assumption | apply same_but_refl]).
  - exists n. split; [| apply same_but_refl].
    unfold after_advance, scan_next. destruct (input st); assumption.
  - exists n. split; [| apply same_but_refl].
    rewrite lookup_app_l; [assumption |].
    eapply lookup_lt_Some; eassumption.
  - destruct (Nat.eq_dec p q) as [-> | Hne].
    + rewrite Hn in Hp. injection Hp as <-.
      exists (apply_write w n). split.
      * apply list_lookup_insert_eq. eapply lookup_lt_Some; eassumption.
      * destruct w as [i v | v | a]; simpl in Hw.
        -- destruct Hw as [[Hb | Hc] _]; [lia |].
           repeat split; simpl; congruence.
        -- destruct Hw as [[Hb | Hc] _]; [lia |].
           repeat split; simpl; congruence.
        -- destruct Hw as [Hb | Hc]; [lia |].
           repeat split; simpl; congruence.
    + exists n. split; [| apply same_but_refl].
      rewrite list_lookup_insert_ne; assumption.
Qed.

Lemma Prim_unreferenced st st' x :
  Prim ctx st st' -> x < base ctx -> ~ In (Some x) (known ctx) ->
  unreferenced x st -> unreferenced x st'.
Proof.
  assert (Hv : forall v, x < base ctx -> ~ In (Some x) (known ctx) ->
                         okv ctx v -> v <> Some x).
  { intros v Hx Hk [Hge | Hin] ->; simpl in *; [lia | auto]. }
  destruct 1 as [st | o st | st | k st | st | p m w st Hp Hw];
    intros Hx Hk Hu; try exact Hu.
  - unfold unreferenced, after_advance, scan_next in *.
    destruct (input st); exact Hu.
  - intros q n Hq. simpl in Hq.
    apply lookup_app_Some in Hq as [Hq | [_ Hq]]; [eauto |].
    destruct (q - length (heap st)); simpl in Hq; [| discriminate].
    injection Hq as <-. intros [H | H]; [discriminate |].
    apply In_replicate in H. discriminate.
  - intros q n Hq. simpl in Hq.
    destruct (Nat.eq_dec p q) as [-> | Hne].
    + rewrite list_lookup_insert_eq in Hq
        by (eapply lookup_lt_Some; eassumption).
      injection Hq as <-. specialize (Hu _ _ Hp).
      destruct w as [i v | v | a]; simpl in *.
      * destruct Hw as [_ Hw]. specialize (Hv _ Hx Hk Hw).
        intros [H | H]; [apply Hu; left; exact H |].
        simpl in H. apply In_insert in H as [H | H]; [congruence |].
        apply Hu. right. exact H.
      * destruct Hw as [_ Hw]. specialize (Hv _ Hx Hk Hw).
        intros [H | H]; simpl in H; [congruence |].
        apply Hu. right. exact H.
      * exact Hu.
    + rewrite list_lookup_insert_ne in Hq by assumption. eauto.
Qed.

End PrimFacts.

Lemma allowed_weaken (inner outer : Owner) (p : nat) (w : Write) :
  ctx_le inner outer -> allowed inner p w -> allowed outer p w.
Proof.
  intros (Hb & Hs & Hc & Ha & Hk).
  assert (Hv : forall v, okv inner v -> okv outer v).
  { intros v [Hge | Hin]; [left; eapply ptr_ge_mono; eassumption | auto]. }
  destruct w as [i v | v | a]; simpl.
  - intros [[H | H] Ho]; (split; [| auto]).
    + left. lia.
    + rewrite H in Hc.
      destruct Hc as [Hc | Hc]; simpl in Hc; [left; lia | right; congruence].
  - intros [[H | H] Ho]; (split; [| auto]).
    + left. lia.
    + rewrite H in Hs.
      destruct Hs as [Hs | Hs]; simpl in Hs; [left; lia | right; congruence].
  - intros [H | H].
    + left. lia.
    + rewrite H in Ha.
      destruct Ha as [Ha | Ha]; simpl in Ha; [left; lia | right; congruence].
Qed.

Lemma Prim_weaken (inner outer : Owner) st st' :
  ctx_le inner outer -> Prim inner st st' -> Prim outer st st'.
Proof.
  intros Hle. destruct 1; try solve [constructor].
  constructor; [assumption | eapply allowed_weaken; eassumption].
Qed.

Lemma Steps_weaken (inner outer : Owner) st st' :
  ctx_le inner outer -> Steps inner st st' -> Steps outer st st'.
Proof.
  intros Hle. induction 1; [constructor |].
  econstructor; [eassumption | eapply Prim_weaken; eassumption].
Qed.

Lemma Steps_trans (ctx : Owner) st1 st2 st3 :
  Steps ctx st1 st2 -> Steps ctx st2 st3 -> Steps ctx st1 st3.
Proof.
  intros H12. induction 1; [assumption |].
  econstructor; eassumption.
Qed.

Lemma Steps_one (ctx : Owner) st st' : Prim ctx st st' -> Steps ctx st st'.
Proof. intros H. econstructor; [constructor | exact H]. Qed.

Section StepsFacts.

Variable ctx : Owner.

Lemma Steps_hlen st st' : Steps ctx st st' -> hlen st <= hlen st'.
Proof.
  induction 1; [lia |].
  pose proof (Prim_hlen H0). lia.
Qed.

Lemma Steps_togo st st' : Steps ctx st st' -> togo st' <= togo st.
Proof.
  induction 1; [lia |].
  pose proof (Prim_togo H0). lia.
Qed.

Lemma Steps_alloc_ok st st' : Steps ctx st st' -> alloc_ok st' = alloc_ok st.
Proof.
  induction 1; [reflexivity |].
  rewrite (Prim_alloc_ok H0). assumption.
Qed.

Lemma Steps_Error st st' :
  Steps ctx st st' -> Error st = true -> Error st' = true.
Proof. induction 1; eauto using Prim_Error. Qed.

Lemma Steps_diagnostics st st' :
  Steps ctx st st' -> diagnostics st <= diagnostics st'.
Proof.
  induction 1; [lia |].
  pose proof (Prim_diagnostics H0). lia.
Qed.

Lemma Steps_frame st st' q n :
  Steps ctx st st' -> q < base ctx -> heap st !! q = Some n ->
  exists n', heap st' !! q = Some n' /\ same_but ctx q n n'.
Proof.
  induction 1 as [| st1 st2 H12 IH HP]; intros Hq Hn.
  - exists n. split; [assumption | apply same_but_refl].
  - destruct (IH Hq Hn) as (n1 & Hn1 & S1).
    destruct (Prim_frame HP Hq Hn1) as (n2 & Hn2 & S2).
    exists n2. split; [assumption |].
    eapply same_but_trans; eassumption.
Qed.

Lemma Steps_unreferenced st st' x :
  Steps ctx st st' -> x < base ctx -> ~ In (Some x) (known ctx) ->
  unreferenced x st -> unreferenced x st'.
Proof. induction 1; eauto using Prim_unreferenced. Qed.

End StepsFacts.

(** ** Stepping through a procedure body *)

Lemma wlp_ret {A} (a : A) (Q : A -> State -> Prop) st :
  Q a st -> wlp (ret a) Q st.
Proof. exact (fun H => H). Qed.

Lemma wlp_gets {A} (f : State -> A) (Q : A -> State -> Prop) st :
  Q (f st) st -> wlp (gets f) Q st.
Proof. exact (fun H => H). Qed.

Lemma wlp_bind {A B} (m : M A) (k : A -> M B) (Q : B -> State -> Prop) st :
  wlp m (fun a st1 => wlp (k a) Q st1) st -> wlp (bind m k) Q st.
Proof. unfold wlp, bind. destruct (m st); auto. Qed.

Lemma wlp_conseq {A} (m : M A) (Q1 Q2 : A -> State -> Prop) st :
  wlp m Q1 st -> (forall a st1, Q1 a st1 -> Q2 a st1) -> wlp m Q2 st.
Proof. unfold wlp. destruct (m st); auto. Qed.

Lemma wlp_elim {A} (m : M A) (Q : A -> State -> Prop) st a st1 :
  wlp m Q st -> m st = Ok a st1 -> Q a st1.
Proof. unfold wlp. intros H E. rewrite E in H. exact H. Qed.

Lemma okv_weaken (inner outer : Owner) (v : ptr) :
  ctx_le inner outer -> okv inner v -> okv outer v.
Proof.
  intros (Hb & _ & _ & _ & Hk) [Hge | Hin]; [| auto].
  left. eapply ptr_ge_mono; eassumption.
Qed.

Section Accumulate.

(** The owner on whose behalf the steps are taken, and the state in
    which it started. *)
Variable ctx0 : Owner.
Variable st0 : State.

Lemma acc_alloc k (Q : ptr -> State -> Prop) cur :
  Steps ctx0 st0 cur ->
  (forall st1, Steps ctx0 st0 st1 -> hlen st1 = S (hlen cur) ->
     togo st1 = togo cur -> token st1 = token cur ->
     Q (Some (hlen cur)) st1) ->
  (forall st1, Steps ctx0 st0 st1 -> hlen st1 = hlen cur ->
     togo st1 = togo cur -> token st1 = token cur ->
     Q None st1) ->
  wlp (alloc_node k) Q cur.
Proof.
  intros Hs Hok Hfail. unfold wlp, alloc_node.
  destruct (alloc_ok cur (nalloc cur)).
  - apply Hok; try reflexivity.
    + eapply Steps_snoc; [exact Hs | apply P_alloc].
    + unfold hlen; simpl. rewrite length_app; simpl. lia.
  - apply Hfail; try reflexivity.
    eapply Steps_snoc; [exact Hs | apply P_alloc_fail].
Qed.

Lemma Steps_emit o cur : Steps ctx0 st0 cur -> Steps ctx0 st0 (emit o cur).
Proof. intros Hs. eapply Steps_snoc; [exact Hs | apply P_emit]. Qed.

Lemma Steps_syntaxError message cur :
  Steps ctx0 st0 cur -> Steps ctx0 st0 (after_syntaxError message cur).
Proof.
  intros Hs. unfold after_syntaxError.
  eapply Steps_snoc; [| apply P_error].
  apply (Steps_emit (OutSyntaxError (lineno cur) message)).
  apply Steps_emit. exact Hs.
Qed.

Lemma Steps_match expected cur :
  Steps ctx0 st0 cur -> Steps ctx0 st0 (after_match expected cur).
Proof.
  intros Hs. unfold after_match.
  destruct (tok_eqb (token cur) expected).
  - eapply Steps_snoc; [exact Hs | apply P_advance].
  - unfold after_mismatch.
    apply Steps_emit.
    apply (Steps_emit (OutToken expected EmptyString)).
    apply Steps_emit.
    apply (Steps_emit (OutToken (token cur) (tokenString cur))).
    apply Steps_syntaxError. exact Hs.
Qed.

Lemma after_advance_hlen cur : hlen (after_advance cur) = hlen cur.
Proof.
  unfold hlen, after_advance, scan_next. destruct (input cur); reflexivity.
Qed.

Lemma acc_advance (Q : unit -> State -> Prop) cur :
  Steps ctx0 st0 cur ->
  (forall st1, Steps ctx0 st0 st1 -> hlen st1 = hlen cur ->
     togo st1 <= togo cur ->
     (token cur <> ENDFILE -> togo st1 < togo cur) ->
     Q tt st1) ->
  wlp advance Q cur.
Proof.
  intros Hs HQ. unfold wlp. rewrite advance_eq. apply HQ.
  - eapply Steps_snoc; [exact Hs | apply P_advance].
  - apply after_advance_hlen.
  - apply after_advance_togo.
  - apply after_advance_togo_lt.
Qed.

Lemma acc_match expected (Q : unit -> State -> Prop) cur :
  Steps ctx0 st0 cur ->
  (forall st1, Steps ctx0 st0 st1 -> hlen st1 = hlen cur ->
     togo st1 <= togo cur ->
     (token cur = expected -> expected <> ENDFILE ->
      togo st1 < togo cur) ->
     (token cur <> expected -> token st1 = token cur) ->
     Q tt st1) ->
  wlp (match_ expected) Q cur.
Proof.
  intros Hs HQ. unfold wlp. rewrite match_eq. apply HQ.
  - apply Steps_match. exact Hs.
  - unfold after_match. destruct (tok_eqb (token cur) expected);
      [apply after_advance_hlen | reflexivity].
  - unfold after_match. destruct (tok_eqb (token cur) expected);
      [apply after_advance_togo | unfold togo; simpl; lia].
  - intros H1 H2. unfold after_match.
    apply tok_eqb_eq in H1. rewrite H1.
    apply after_advance_togo_lt. apply tok_eqb_eq in H1. congruence.
  - intros H. apply tok_eqb_neq in H. unfold after_match. rewrite H.
    reflexivity.
Qed.

Lemma acc_syntaxError message (Q : unit -> State -> Prop) cur :
  Steps ctx0 st0 cur ->
  (forall st1, Steps ctx0 st0 st1 -> hlen st1 = hlen cur ->
     togo st1 = togo cur -> token st1 = token cur ->
     Q tt st1) ->
  wlp (syntaxError message) Q cur.
Proof.
  intros Hs HQ. unfold wlp. rewrite syntaxError_eq.
  apply HQ; try reflexivity. apply Steps_syntaxError. exact Hs.
Qed.

Lemma acc_printToken tk text (Q : unit -> State -> Prop) cur :
  Steps ctx0 st0 cur ->
  (forall st1, Steps ctx0 st0 st1 -> hlen st1 = hlen cur ->
     togo st1 = togo cur -> token st1 = token cur ->
     Q tt st1) ->
  wlp (printToken tk text) Q cur.
Proof.
  intros Hs HQ. unfold wlp, printToken, modify.
  apply HQ; try reflexivity. apply Steps_emit. exact Hs.
Qed.

Lemma acc_store t w (Q : unit -> State -> Prop) cur :
  Steps ctx0 st0 cur ->
  (forall p, t = Some p -> allowed ctx0 p w) ->
  (forall st1, Steps ctx0 st0 st1 -> hlen st1 = hlen cur ->
     togo st1 = togo cur -> token st1 = token cur ->
     Q tt st1) ->
  wlp (store t (apply_write w)) Q cur.
Proof.
  intros Hs Hw HQ. unfold wlp, store.
  destruct t as [p |]; [| exact I].
  destruct (heap cur !! p) as [n |] eqn:E; [| exact I].
  apply HQ; try reflexivity.
  - eapply Steps_snoc; [exact Hs |]. apply P_store; auto.
  - unfold hlen; simpl. apply length_insert.
Qed.

Lemma acc_set_child t i v (Q : unit -> State -> Prop) cur :
  Steps ctx0 st0 cur ->
  ptr_ge (base ctx0) t \/ t = child_tgt ctx0 ->
  okv ctx0 v ->
  (forall st1, Steps ctx0 st0 st1 -> hlen st1 = hlen cur ->
     togo st1 = togo cur -> token st1 = token cur ->
     Q tt st1) ->
  wlp (set_child t i v) Q cur.
Proof.
  intros Hs Ht Hv HQ.
  apply (@acc_store t (WChild i v)); auto.
  intros p ->. simpl. split; [| exact Hv].
  destruct Ht as [Ht | Ht]; [left; exact Ht | right; congruence].
Qed.

Lemma acc_set_sibling t v (Q : unit -> State -> Prop) cur :
  Steps ctx0 st0 cur ->
  ptr_ge (base ctx0) t \/ t = sib_tgt ctx0 ->
  okv ctx0 v ->
  (forall st1, Steps ctx0 st0 st1 -> hlen st1 = hlen cur ->
     togo st1 = togo cur -> token st1 = token cur ->
     Q tt st1) ->
  wlp (set_sibling t v) Q cur.
Proof.
  intros Hs Ht Hv HQ.
  apply (@acc_store t (WSibling v)); auto.
  intros p ->. simpl. split; [| exact Hv].
  destruct Ht as [Ht | Ht]; [left; exact Ht | right; congruence].
Qed.

Lemma acc_set_attr t a (Q : unit -> State -> Prop) cur :
  Steps ctx0 st0 cur ->
  ptr_ge (base ctx0) t \/ t = attr_tgt ctx0 ->
  (forall st1, Steps ctx0 st0 st1 -> hlen st1 = hlen cur ->
     togo st1 = togo cur -> token st1 = token cur ->
     Q tt st1) ->
  wlp (store t (with_attr a)) Q cur.
Proof.
  intros Hs Ht HQ.
  apply (@acc_store t (WAttr a)); auto.
  intros p ->. simpl.
  destruct Ht as [Ht | Ht]; [left; exact Ht | right; congruence].
Qed.

Lemma acc_get_name t (Q : option string -> State -> Prop) cur :
  (forall name, Q name cur) -> wlp (get_name t) Q cur.
Proof.
  intros HQ. unfold wlp, get_name, bind, deref, ret.
  destruct t as [p |]; [| exact I].
  destruct (heap cur !! p); [apply HQ | exact I].
Qed.

(** Entering procedure [c] in state [cur]: what its postcondition gives
    the caller. *)
Lemma acc_call (m : M ptr) c (Q : ptr -> State -> Prop) cur :
  wlp m (Post c cur) cur ->
  Steps ctx0 st0 cur ->
  ctx_le (ctx_of c cur) ctx0 ->
  (forall r st1, Steps ctx0 st0 st1 -> hlen cur <= hlen st1 ->
     togo st1 <= togo cur ->
     (consumes c cur -> togo st1 < togo cur) ->
     okv (ctx_of c cur) r -> ptr_lt (hlen st1) r ->
     Q r st1) ->
  wlp m Q cur.
Proof.
  intros Hm Hs Hle HQ. eapply wlp_conseq; [exact Hm |].
  intros r st1 (S1 & O1 & V1 & C1). apply HQ; auto.
  - eapply Steps_trans; [exact Hs |]. eapply Steps_weaken; eassumption.
  - eapply Steps_hlen; eassumption.
  - eapply Steps_togo; eassumption.
Qed.

End Accumulate.

(** ** Every procedure keeps to what it owns *)

Lemma wlp_out_of_fuel {A} (Q : A -> State -> Prop) st :
  wlp (fun _ => OutOfFuel) Q st.
Proof. exact I. Qed.

(** Turn what is known about tokens into equations and use them. *)
Ltac tok_facts :=
  repeat match goal with
  | H : tok_eqb _ _ = true |- _ => apply tok_eqb_eq in H
  | H : tok_eqb _ _ = false |- _ => apply tok_eqb_neq in H
  | H : token ?a = ?x -> _ |- _ =>
      let T := fresh in
      assert (T : token a = x) by congruence; specialize (H T); clear T
  | H : token ?a <> ?x -> _ |- _ =>
      let T := fresh in
      assert (T : token a <> x) by congruence; specialize (H T); clear T
  | H : ?x <> ENDFILE -> _ |- _ =>
      let T := fresh in
      assert (T : x <> ENDFILE) by congruence; specialize (H T); clear T
  end.

Ltac tok_rewrite :=
  repeat match goal with
  | E : token ?s = ?x, H : context [token ?s] |- _ =>
      lazymatch x with
      | context [token _] => fail
      | _ =>
          lazymatch type of H with
          | token s = x => fail
          | _ => rewrite E in H
          end
      end
  end.

Ltac ctx_simpl :=
  cbn [ctx_of base sib_tgt child_tgt attr_tgt known sib_arg child_arg
       ptr_args].

(** Use what is known about where pointer [v] came from: either it is
    fresh, or it is one of the pointers handed to the callee that
    returned it. *)
Ltac via_origin v fresh_case again :=
  match goal with
  | H : okv _ v |- _ =>
      destruct H as [H | H];
      [ fresh_case H
      | simpl in H;
        repeat (destruct H as [H | H];
                [ first [subst | inversion H; subst]; again |]);
        contradiction ]
  end.

Ltac in_known :=
  lazymatch goal with
  | |- _ = _ \/ _ => first [left; reflexivity | right; in_known]
  end.

Ltac ge_from H :=
  first [ exact H
        | eapply ptr_ge_mono; [| exact H]; simpl in *; lia
        | simpl in *; lia ].

Ltac solve_ptr :=
  ctx_simpl;
  lazymatch goal with
  | |- okv _ None => left; exact I
  | |- okv _ ?v =>
      first [ assumption
            | left; simpl in *; lia
            | right; simpl; in_known
            | via_origin v ltac:(fun H => left; ge_from H)
                         ltac:(solve_ptr) ]
  | |- ptr_ge _ None \/ _ => left; exact I
  | |- ptr_ge _ ?t \/ _ =>
      first [ right; reflexivity
            | left; simpl in *; lia
            | via_origin t ltac:(fun H => left; ge_from H)
                         ltac:(solve_ptr) ]
  | |- ptr_ge _ None => exact I
  | |- ptr_ge _ ?t =>
      first [ simpl in *; lia
            | via_origin t ltac:(fun H => ge_from H)
                         ltac:(solve_ptr) ]
  | |- ptr_lt _ None => exact I
  | |- ptr_lt _ ?p =>
      first [ simpl in *; lia
            | match goal with
              | H : ptr_lt _ p |- _ =>
                  eapply ptr_lt_mono; [| exact H]; lia
              end ]
  end.

Ltac solve_ctx_le :=
  unfold ctx_le; ctx_simpl;
  split; [lia |];
  split; [solve_ptr |];
  split; [solve_ptr |];
  split; [solve_ptr |];
  intros ? Hin; simpl in Hin;
  repeat (destruct Hin as [<- | Hin]; [solve_ptr |]); contradiction.

Ltac solve_args :=
  unfold args_valid; simpl; repeat constructor; solve_ptr.

Ltac acc_intros :=
  let st1 := fresh "st" in
  intros st1 ? ? ? ?.

Ltac acc_step IH :=
  cbv beta;
  cbn [nonnull andb orb negb];
  lazymatch goal with
  | |- wlp (bind _ _) _ _ => apply wlp_bind
  | |- wlp (ret _) _ _ => apply wlp_ret
  | |- wlp (gets _) _ _ => apply wlp_gets
  | |- wlp (when _ _) _ _ => unfold when
  | |- wlp (if nonnull ?r then _ else _) _ _ => destruct r
  | |- wlp (if negb (nonnull ?r) then _ else _) _ _ => destruct r
  | |- wlp (if nonnull ?r && _ then _ else _) _ _ => destruct r
  | |- wlp (if ?c then _ else _) _ _ => destruct c eqn:?
  | |- wlp (match ?tk with ENDFILE => _ | _ => _ end) _ _ =>
      destruct tk eqn:?
  | |- wlp (alloc_node _) _ _ =>
      eapply acc_alloc; [eassumption | acc_intros | acc_intros]
  | |- wlp (newStmtNode _) _ _ => unfold newStmtNode
  | |- wlp (newExpNode _) _ _ => unfold newExpNode
  | |- wlp (match_ _) _ _ =>
      eapply acc_match; [eassumption | intros ? ? ? ? ? ?]
  | |- wlp advance _ _ =>
      eapply acc_advance; [eassumption | intros ? ? ? ? ?]
  | |- wlp (syntaxError _) _ _ =>
      eapply acc_syntaxError; [eassumption | acc_intros]
  | |- wlp (printToken _ _) _ _ =>
      eapply acc_printToken; [eassumption | acc_intros]
  | |- wlp (set_child _ _ _) _ _ =>
      eapply acc_set_child; [eassumption | solve_ptr | solve_ptr | acc_intros]
  | |- wlp (set_sibling _ _) _ _ =>
      eapply acc_set_sibling;
      [eassumption | solve_ptr | solve_ptr | acc_intros]
  | |- wlp (set_name _ _) _ _ => unfold set_name
  | |- wlp (set_val _ _) _ _ => unfold set_val
  | |- wlp (set_op _ _) _ _ => unfold set_op
  | |- wlp (store _ (with_attr _)) _ _ =>
      eapply acc_set_attr; [eassumption | solve_ptr | acc_intros]
  | |- wlp (get_name _) _ _ => apply acc_get_name; intros ?
  | |- wlp (run _ ?c) _ _ =>
      eapply acc_call;
      [ apply IH; solve_args
      | eassumption
      | solve_ctx_le
      | intros ? ? ? ? ? ? ? ? ]
  end.

Ltac solve_post :=
  unfold Post; split; [eassumption |];
  split; [solve_ptr |];
  split; [solve_ptr |];
  simpl; intros; tok_facts; tok_rewrite; tok_facts; simpl in *;
  tok_facts; tok_rewrite; tok_facts;
  try discriminate; try contradiction; try lia.

Ltac split_args H :=
  unfold args_valid in H; simpl in H;
  repeat match type of H with
  | Forall _ (_ :: _) =>
      let H1 := fresh "Harg" in
      let H2 := fresh "Hargs" in
      pose proof (Forall_inv H) as H1;
      pose proof (Forall_inv_tail H) as H2;
      clear H; rename H2 into H
  end.

Ltac unfold_body :=
  unfold body, stmt_sequence, stmt_sequence_loop, statement, if_stmt,
    repeat_stmt, assign_stmt, read_stmt, write_stmt, exp, simple_exp,
    simple_exp_loop, term, term_loop, factor, var_stmt, var_list,
    var_list_loop, value_exp, multi_value_exp, multi_value_loop, dim_exp,
    dim_loop, while_stmt, return_stmt, func_stmt, params, for_stmt,
    lambda_exp, call_stmt, call_loop;
  cbv zeta.

(** Whatever the fuel, a procedure that returns has taken only steps
    its owner context allows, returns a pointer it made or was handed,
    and has consumed a token where it must. *)
Lemma run_post (fuel : nat) :
  forall c st, args_valid c st -> wlp (run fuel c) (Post c st) st.
Proof.
  induction fuel as [| f IH]; intros c st Hargs; [exact I |].
  assert (Hacc : Steps (ctx_of c st) st st) by constructor.
  change (run (S f) c) with (body (run f) c).
  destruct c; split_args Hargs; unfold_body.
  all: repeat acc_step IH.
  all: solve_post.
Qed.

(** ** Claims settled by the primitives alone *)

(** C4.  [match expected]: when the lookahead is [expected] the next
    token is read into the lookahead; otherwise one syntax error is
    reported, the failure flag is set, and the scanner state (lookahead,
    text, line, remaining input) and the heap are left as they were.  In
    both cases [match] returns normally. *)
Theorem match_advances_or_reports (expected : TokenType) (st : State) :
  (token st = expected ->
   exists st', match_ expected st = Ok tt st' /\
     token st' = scan_kind st /\ input st' = tail (input st) /\
     Error st' = Error st /\ diagnostics st' = diagnostics st) /\
  (token st <> expected ->
   exists st', match_ expected st = Ok tt st' /\
     Error st' = true /\ diagnostics st' = S (diagnostics st) /\
     token st' = token st /\ tokenString st' = tokenString st /\
     lineno st' = lineno st /\ input st' = input st /\
     heap st' = heap st).
Proof.
  split; intros H; rewrite match_eq; unfold after_match.
  - apply tok_eqb_eq in H. rewrite H.
    exists (after_advance st).
    unfold after_advance, scan_next, diagnostics; simpl.
    destruct (input st); repeat split.
  - apply tok_eqb_neq in H. rewrite H.
    exists (after_mismatch expected st). repeat split.
    apply diagnostics_after_mismatch.
Qed.

Lemma match_advances_or_reports_witness :
  (exists st', match_ NUM (looking_at (tok NUM "7") [tok PLUS "+"] never_fails)
                 = Ok tt st' /\ token st' = PLUS /\ input st' = []) /\
  (exists st', match_ THEN (looking_at (tok NUM "7") [tok PLUS "+"] never_fails)
                 = Ok tt st' /\ Error st' = true /\ diagnostics st' = 1 /\
                 token st' = NUM /\ input st' = [tok PLUS "+"]).
Proof.
  pose (st := looking_at (tok NUM "7") [tok PLUS "+"] never_fails).
  split.
  - destruct (proj1 (match_advances_or_reports NUM st))
      as (st' & E & Ht & Hi & _); [reflexivity |].
    exists st'. auto.
  - destruct (proj2 (match_advances_or_reports THEN st))
      as (st' & E & He & Hd & Ht & _ & _ & Hi & _); [discriminate |].
    exists st'. auto.
Defined.

Lemma after_unexpected_facts (message : string) (st : State) :
  let st' := after_unexpected message st in
  Error st' = true /\ diagnostics st' = S (diagnostics st) /\
  token st' = scan_kind st /\ input st' = tail (input st) /\
  heap st' = heap st.
Proof.
  unfold after_unexpected, after_advance, scan_next, scan_kind,
    diagnostics; simpl.
  destruct (input st); simpl;
    rewrite !List.filter_app, !length_app; simpl;
    repeat split; lia.
Qed.

(** C5, as amended.  On a lookahead that falls through to the default
    branch -- in [statement] a token that starts none of the ten
    statement forms and is neither [END] nor [ENDFILE], in [factor] a
    token other than [NUM], [ID] and [LPAREN] -- the procedure reports
    one syntax error, reads exactly one token and returns NULL.  No
    other procedure is entered, whatever the recursive knot is.  On
    [END] and on [ENDFILE], [statement] returns NULL in the state it
    was entered in: nothing is reported and nothing is read. *)
Theorem unexpected_token_single_skip (call : Prod -> M ptr) (st : State) :
  (starts_statement (token st) = false ->
   ends_block (token st) = false ->
   statement call st =
     Ok None (after_unexpected "statement:: unexpected token -> " st)) /\
  (starts_factor (token st) = false ->
   factor call st =
     Ok None (after_unexpected "factor:: unexpected token -> " st)) /\
  (forall message,
     let st' := after_unexpected message st in
     Error st' = true /\ diagnostics st' = S (diagnostics st) /\
     token st' = scan_kind st /\ input st' = tail (input st) /\
     heap st' = heap st) /\
  (ends_block (token st) = true -> statement call st = Ok None st).
Proof.
  split; [| split; [| split]].
  - intros Hs He. unfold statement, bind, gets, after_unexpected.
    destruct (token st) eqn:E; try discriminate; reflexivity.
  - intros Hf. unfold factor, bind, gets, after_unexpected.
    destruct (token st) eqn:E; try discriminate; reflexivity.
  - intros message. apply after_unexpected_facts.
  - intros He. unfold statement, bind, gets.
    destruct (token st) eqn:E; try discriminate; reflexivity.
Qed.

Lemma unexpected_token_single_skip_witness :
  let st := looking_at (tok RPAREN ")") [tok ID "x"; tok SEMI ";"] never_fails in
  let at_end := looking_at (tok END "end") [tok ID "x"] never_fails in
  let at_eof := looking_at (tok ENDFILE "") [] never_fails in
  (exists st1 st2,
     statement (run 0) st = Ok None st1 /\ factor (run 0) st = Ok None st2 /\
     token st1 = ID /\ input st1 = [tok SEMI ";"] /\ diagnostics st1 = 1 /\
     token st2 = ID /\ input st2 = [tok SEMI ";"] /\ diagnostics st2 = 1) /\
  statement (run 0) at_end = Ok None at_end /\
  statement (run 0) at_eof = Ok None at_eof.
Proof.
  intros st at_end at_eof.
  destruct (unexpected_token_single_skip (run 0) st) as (Hs & Hf & _).
  split; [| split].
  - eexists _, _. split; [apply Hs; reflexivity |].
    split; [apply Hf; reflexivity |].
    vm_compute. repeat split.
  - apply (unexpected_token_single_skip (run 0) at_end). reflexivity.
  - apply (unexpected_token_single_skip (run 0) at_eof). reflexivity.
Defined.

(** Counterexample to C5 as stated: [END] starts no statement form, yet
    [statement] reports nothing and reads nothing on it. *)
Lemma statement_silent_on_END :
  let st := looking_at (tok END "end") [tok ID "x"] never_fails in
  starts_statement (token st) = false /\
  statement (run 0) st = Ok None st /\
  Error st = false /\ diagnostics st = 0.
Proof. vm_compute. repeat split. Qed.

(** C9.  The input "write": the failure flag is set, exactly one
    diagnostic is reported, and [parse] returns a [Write] node none of
    whose child slots is set. *)
Theorem write_without_expression :
  outcome (parse 10 (initial [tok WRITE "write"] never_fails)) =
  Some (Some (leaf (StmtK WriteK) AttrUnset), ENDFILE, true, 1).
Proof. vm_compute. reflexivity. Qed.

(** C6, the failing run.  The input "var x" with the first allocation
    failing: [var_stmt] stores into [t->child[0]] through the NULL that
    [newStmtNode] returned. *)
Theorem var_stmt_null_dereference :
  parse 10 (initial [tok VAR "var"; tok ID "x"] (fails_at 0)) = Crash.
Proof. vm_compute. reflexivity. Qed.

(** The same happens in [params] (input "func f ( )", second allocation
    failing) and in [assign_stmt] (input "a [ 1 ]", first allocation
    failing). *)
Lemma params_null_dereference :
  parse 12 (initial [tok FUNC "func"; tok ID "f"; tok LPAREN "(";
                    tok RPAREN ")"; tok END "end"] (fails_at 1)) = Crash.
Proof. vm_compute. reflexivity. Qed.

Lemma assign_stmt_null_dereference :
  parse 12 (initial [tok ID "a"; tok LMBRACKET "["; tok NUM "1";
                     tok RMBRACKET "]"] (fails_at 0)) = Crash.
Proof. vm_compute. reflexivity. Qed.

(** Where the caller does check, a failed allocation is survived:
    "write 1" with the first allocation failing. *)
Lemma write_stmt_survives_null :
  outcome (parse 10 (initial [tok WRITE "write"; tok NUM "1"] (fails_at 0)))
  = Some (None, ENDFILE, true, 1).
Proof. vm_compute. reflexivity. Qed.

(** C1.  Precedence: a multiplicative operator binds tighter than an
    additive one.  For numerals [a], [b], [c], an additive operator
    [o1] and a multiplicative operator [o2], the tokens [a o1 b o2 c]
    parse to [Op o1 a (Op o2 b c)], without a diagnostic. *)
Theorem term_binds_tighter (a b c s1 s2 : string) (o1 o2 : TokenType) :
  is_additive o1 = true ->
  is_multiplicative o2 = true ->
  outcome (run 8 PExp
             (looking_at (tok NUM a)
                [tok o1 s1; tok NUM b; tok o2 s2; tok NUM c] never_fails))
  = Some (Some (Op o1 (Const (atoi a))
                  (Op o2 (Const (atoi b)) (Const (atoi c)))),
          ENDFILE, false, 0).
Proof.
  intros H1 H2.
  assert (A : o1 = PLUS \/ o1 = MINUS \/ o1 = AND).
  { unfold is_additive in H1.
    apply orb_true_iff in H1 as [H1 | H1];
      [apply orb_true_iff in H1 as [H1 | H1] |];
      apply tok_eqb_eq in H1; auto. }
  assert (B : o2 = TIMES \/ o2 = OVER).
  { unfold is_multiplicative in H2.
    apply orb_true_iff in H2 as [H2 | H2]; apply tok_eqb_eq in H2; auto. }
  destruct A as [-> | [-> | ->]]; destruct B as [-> | ->];
    cbv -[atoi]; reflexivity.
Qed.

(** The instance of the claim: "1+2*3". *)
Lemma term_binds_tighter_witness :
  outcome (run 8 PExp
             (looking_at (tok NUM "1")
                [tok PLUS "+"; tok NUM "2"; tok TIMES "*"; tok NUM "3"]
                never_fails))
  = Some (Some (Op PLUS (Const 1) (Op TIMES (Const 2) (Const 3))),
          ENDFILE, false, 0).
Proof.
  exact (term_binds_tighter "1" "2" "3" "+" "*" PLUS TIMES
           eq_refl eq_refl).
Defined.

(** ** Termination *)

Lemma wp_ret {A} (a : A) (Q : A -> State -> Prop) st :
  Q a st -> wp (ret a) Q st.
Proof. exact (fun H => H). Qed.

Lemma wp_gets {A} (f : State -> A) (Q : A -> State -> Prop) st :
  Q (f st) st -> wp (gets f) Q st.
Proof. exact (fun H => H). Qed.

Lemma wp_bind {A B} (m : M A) (k : A -> M B) (Q : B -> State -> Prop) st :
  wp m (fun a st1 => wp (k a) Q st1) st -> wp (bind m k) Q st.
Proof. unfold wp, bind. destruct (m st); auto. Qed.

Lemma wp_wlp {A} (m : M A) (Q1 Q2 : A -> State -> Prop) st :
  wp m Q1 st -> wlp m Q2 st -> wp m (fun a st1 => Q1 a st1 /\ Q2 a st1) st.
Proof. unfold wp, wlp. destruct (m st); auto. Qed.

Lemma wp_conseq {A} (m : M A) (Q1 Q2 : A -> State -> Prop) st :
  wp m Q1 st -> (forall a st1, Q1 a st1 -> Q2 a st1) -> wp m Q2 st.
Proof. unfold wp. destruct (m st); auto. Qed.

Lemma wp_returns {A} (m : M A) (Q : A -> State -> Prop) st :
  wp m Q st -> exists a st1, m st = Ok a st1 /\ Q a st1.
Proof. unfold wp. destruct (m st); [eauto | contradiction ..]. Qed.

Lemma always_ok_after_advance st : always_ok st -> always_ok (after_advance st).
Proof.
  unfold always_ok, after_advance, scan_next.
  destruct (input st); auto.
Qed.

Lemma always_ok_after_match x st : always_ok st -> always_ok (after_match x st).
Proof.
  unfold after_match. destruct (tok_eqb (token st) x);
    [apply always_ok_after_advance | auto].
Qed.

Lemma tot_alloc k (Q : ptr -> State -> Prop) cur :
  always_ok cur ->
  (forall st1, hlen st1 = S (hlen cur) -> togo st1 = togo cur ->
     token st1 = token cur -> always_ok st1 ->
     Q (Some (hlen cur)) st1) ->
  wp (alloc_node k) Q cur.
Proof.
  intros Hok HQ. unfold wp, alloc_node. rewrite Hok.
  apply HQ; try reflexivity; [| exact Hok].
  unfold hlen; simpl. rewrite length_app; simpl. lia.
Qed.

Lemma tot_advance (Q : unit -> State -> Prop) cur :
  always_ok cur ->
  (forall st1, hlen st1 = hlen cur -> togo st1 <= togo cur ->
     (token cur <> ENDFILE -> togo st1 < togo cur) ->
     always_ok st1 ->
     Q tt st1) ->
  wp advance Q cur.
Proof.
  intros Hok HQ. unfold wp. rewrite advance_eq. apply HQ.
  - apply after_advance_hlen.
  - apply after_advance_togo.
  - apply after_advance_togo_lt.
  - apply always_ok_after_advance. exact Hok.
Qed.

Lemma tot_match expected (Q : unit -> State -> Prop) cur :
  always_ok cur ->
  (forall st1, hlen st1 = hlen cur -> togo st1 <= togo cur ->
     (token cur = expected -> expected <> ENDFILE ->
      togo st1 < togo cur) ->
     (token cur <> expected -> token st1 = token cur) ->
     always_ok st1 ->
     Q tt st1) ->
  wp (match_ expected) Q cur.
Proof.
  intros Hok HQ.
  pose proof (@acc_match (ctx_of PStatement cur) cur expected
                (fun _ st1 =>
                   hlen st1 = hlen cur /\ togo st1 <= togo cur /\
                   (token cur = expected -> expected <> ENDFILE ->
                    togo st1 < togo cur) /\
                   (token cur <> expected -> token st1 = token cur))
                cur (Steps_refl _ _)) as H.
  unfold wlp in H. unfold wp. rewrite match_eq in *.
  destruct H as (H1 & H2 & H3 & H4); [auto |].
  apply HQ; auto. apply always_ok_after_match. exact Hok.
Qed.

Lemma tot_syntaxError message (Q : unit -> State -> Prop) cur :
  always_ok cur ->
  (forall st1, hlen st1 = hlen cur -> togo st1 = togo cur ->
     token st1 = token cur -> always_ok st1 ->
     Q tt st1) ->
  wp (syntaxError message) Q cur.
Proof.
  intros Hok HQ. unfold wp. rewrite syntaxError_eq.
  apply HQ; try reflexivity. exact Hok.
Qed.

Lemma tot_printToken tk text (Q : unit -> State -> Prop) cur :
  always_ok cur ->
  (forall st1, hlen st1 = hlen cur -> togo st1 = togo cur ->
     token st1 = token cur -> always_ok st1 ->
     Q tt st1) ->
  wp (printToken tk text) Q cur.
Proof.
  intros Hok HQ. unfold wp, printToken, modify.
  apply HQ; try reflexivity. exact Hok.
Qed.

Lemma tot_store p f (Q : unit -> State -> Prop) cur :
  p < hlen cur ->
  always_ok cur ->
  (forall st1, hlen st1 = hlen cur -> togo st1 = togo cur ->
     token st1 = token cur -> always_ok st1 ->
     Q tt st1) ->
  wp (store (Some p) f) Q cur.
Proof.
  intros Hp Hok HQ. unfold wp, store.
  destruct (lookup_lt_is_Some_2 (heap cur) p Hp) as [n Hn]. rewrite Hn.
  apply HQ; try reflexivity; [| exact Hok].
  unfold hlen; simpl. apply length_insert.
Qed.

Lemma tot_get_name p (Q : option string -> State -> Prop) cur :
  p < hlen cur ->
  (forall name, Q name cur) ->
  wp (get_name (Some p)) Q cur.
Proof.
  intros Hp HQ. unfold wp, get_name, bind, deref, ret.
  destruct (lookup_lt_is_Some_2 (heap cur) p Hp) as [n Hn]. rewrite Hn.
  apply HQ.
Qed.

Lemma tot_call f c (Q : ptr -> State -> Prop) cur :
  wp (run f c) (fun _ _ => True) cur ->
  always_ok cur ->
  args_valid c cur ->
  (forall r st1, hlen cur <= hlen st1 -> togo st1 <= togo cur ->
     (consumes c cur -> togo st1 < togo cur) ->
     always_ok st1 -> ptr_lt (hlen st1) r ->
     Q r st1) ->
  wp (run f c) Q cur.
Proof.
  intros Hwp Hok Hargs HQ.
  eapply wp_conseq;
    [eapply wp_wlp; [exact Hwp | apply run_post; exact Hargs] |].
  intros r st1 (_ & S1 & _ & V1 & C1). apply HQ; auto.
  - eapply Steps_hlen; eassumption.
  - eapply Steps_togo; eassumption.
  - intros n. rewrite (Steps_alloc_ok S1). apply Hok.
Qed.

Lemma seq_breaks_ends_block tk : seq_breaks tk = false -> ends_block tk = false.
Proof. destruct tk; simpl; auto; discriminate. Qed.

Lemma seq_continues_breaks tk : seq_continues tk = negb (seq_breaks tk).
Proof. destruct tk; reflexivity. Qed.

Ltac bool_facts :=
  repeat match goal with
  | H : _ || _ = true |- _ => apply orb_true_iff in H; destruct H
  | H : _ || _ = false |- _ => apply orb_false_iff in H; destruct H
  | H : _ && _ = true |- _ => apply andb_true_iff in H; destruct H
  | H : negb _ = true |- _ => apply negb_true_iff in H
  | H : negb _ = false |- _ => apply negb_false_iff in H
  end.

Ltac solve_bound :=
  unfold fuel_needed in *;
  repeat match goal with
  | H : consumes PStatement ?s -> _, B : seq_breaks (token ?s) = false |- _ =>
      specialize (H (seq_breaks_ends_block _ B))
  end;
  bool_facts;
  simpl in *; tok_facts; tok_rewrite; tok_facts; simpl in *;
  tok_facts; tok_rewrite; tok_facts;
  try discriminate; try contradiction; lia.

Ltac solve_entry :=
  simpl;
  first [ exact I
        | reflexivity
        | assumption
        | congruence
        | intros; first [assumption | reflexivity | discriminate | tauto] ].

Ltac solve_callable :=
  split; [solve_entry | solve_args].

Ltac tot_intros :=
  let st1 := fresh "st" in
  intros st1 ? ? ? ?.

Ltac tot_step IH :=
  cbv beta;
  cbn [nonnull andb orb negb];
  lazymatch goal with
  | |- wp (bind _ _) _ _ => apply wp_bind
  | |- wp (ret _) _ _ => apply wp_ret
  | |- wp (gets _) _ _ => apply wp_gets
  | |- wp (when _ _) _ _ => unfold when
  | |- wp (if nonnull ?r then _ else _) _ _ => destruct r
  | |- wp (if negb (nonnull ?r) then _ else _) _ _ => destruct r
  | |- wp (if nonnull ?r && _ then _ else _) _ _ => destruct r
  | |- wp (if ?c then _ else _) _ _ => destruct c eqn:?
  | |- wp (match ?tk with ENDFILE => _ | _ => _ end) _ _ =>
      destruct tk eqn:?
  | |- wp (alloc_node _) _ _ =>
      eapply tot_alloc; [assumption | tot_intros]
  | |- wp (newStmtNode _) _ _ => unfold newStmtNode
  | |- wp (newExpNode _) _ _ => unfold newExpNode
  | |- wp (match_ _) _ _ =>
      eapply tot_match; [assumption | intros ? ? ? ? ? ?]
  | |- wp advance _ _ =>
      eapply tot_advance; [assumption | intros ? ? ? ? ?]
  | |- wp (syntaxError _) _ _ =>
      eapply tot_syntaxError; [assumption | tot_intros]
  | |- wp (printToken _ _) _ _ =>
      eapply tot_printToken; [assumption | tot_intros]
  | |- wp (set_child _ _ _) _ _ => unfold set_child
  | |- wp (set_sibling _ _) _ _ => unfold set_sibling
  | |- wp (set_name _ _) _ _ => unfold set_name
  | |- wp (set_val _ _) _ _ => unfold set_val
  | |- wp (set_op _ _) _ _ => unfold set_op
  | |- wp (store (Some _) _) _ _ =>
      eapply tot_store; [simpl in *; lia | assumption | tot_intros]
  | |- wp (store None _) _ _ =>
      exfalso;
      first [ simpl in *; discriminate
            | simpl in *; tauto
            | simpl in *;
              match goal with
              | H : ?a = ?a -> _ |- _ => specialize (H eq_refl); discriminate
              end
            | tok_facts; congruence ]
  | |- wp (store ?t _) _ _ => destruct t
  | |- wp (get_name (Some _)) _ _ =>
      eapply tot_get_name; [simpl in *; lia | intros ?]
  | |- wp (run _ ?c) _ _ =>
      eapply tot_call;
      [ apply IH; [assumption | solve_callable | solve_bound]
      | assumption
      | solve_args
      | intros ? ? ? ? ? ? ? ]
  | |- True => exact I
  end.

(** With an allocator that never fails, a procedure entered the way
    parse.c enters it returns, given fuel beyond its rank plus ten
    units per token still to be consumed. *)
Lemma run_total (fuel : nat) :
  forall c st,
    always_ok st -> callable c st -> fuel_needed c st < fuel ->
    wp (run fuel c) (fun _ _ => True) st.
Proof.
  induction fuel as [| f IH]; intros c st Hok [Hentry Hargs] Hfuel;
    [lia |].
  change (run (S f) c) with (body (run f) c).
  destruct c; split_args Hargs; unfold_body.
  all: repeat tot_step IH.
Qed.

(** ** Termination of [parse] *)

Lemma run_returns (fuel : nat) c st :
  always_ok st -> callable c st -> fuel_needed c st < fuel ->
  exists r st', run fuel c st = Ok r st' /\ Post c st r st' /\ always_ok st'.
Proof.
  intros Hok Hc Hf.
  assert (Hwp : wp (run fuel c) (fun _ _ => True) st)
    by (apply run_total; assumption).
  destruct Hc as [_ Hargs].
  assert (H : wp (run fuel c)
                 (fun r st' => True /\ Post c st r st') st)
    by (apply wp_wlp; [exact Hwp | apply run_post; exact Hargs]).
  apply wp_returns in H as (r & st' & E & _ & HP).
  exists r, st'. split; [exact E |]. split; [exact HP |].
  destruct HP as (S1 & _). intros n.
  erewrite Steps_alloc_ok by eassumption. apply Hok.
Qed.

Lemma starved_simple_exp_loop (fuel : nat) :
  forall t st,
    (forall n, alloc_ok st n = false) ->
    is_additive (token st) = true ->
    run fuel (PSimpleExpLoop t) st = OutOfFuel.
Proof.
  induction fuel as [| f IH]; intros t st Hno Hop; [reflexivity |].
  change (run (S f) (PSimpleExpLoop t)) with (simple_exp_loop (run f) t).
  unfold simple_exp_loop, bind, gets, newExpNode, alloc_node.
  unfold is_additive in Hop. rewrite Hop, Hno. simpl.
  apply IH; [exact Hno | exact Hop].
Qed.

Lemma starved_term_loop (fuel : nat) :
  forall t st,
    (forall n, alloc_ok st n = false) ->
    is_multiplicative (token st) = true ->
    run fuel (PTermLoop t) st = OutOfFuel.
Proof.
  induction fuel as [| f IH]; intros t st Hno Hop; [reflexivity |].
  change (run (S f) (PTermLoop t)) with (term_loop (run f) t).
  unfold term_loop, bind, gets, newExpNode, alloc_node.
  unfold is_multiplicative in Hop. rewrite Hop, Hno. simpl.
  apply IH; [exact Hno | exact Hop].
Qed.

(** C10.  With an allocator that never fails (and a scanner that keeps
    answering [ENDFILE] past the end of its input, as [getToken] does),
    [parse] returns on every finite token list once the fuel exceeds a
    bound linear in the length of the input; so does every procedure
    and every loop of parse.c from any state in which parse.c enters
    it, without consuming more than is there.  The allocator matters:
    when every allocation fails, the loops of [simple_exp] and [term]
    never return on an operator lookahead. *)
Theorem parse_terminates :
  (forall toks oracle,
     (forall n, oracle n = true) ->
     forall fuel, 10 + 20 * length toks <= fuel ->
     exists r st', parse fuel (initial toks oracle) = Ok r st' /\
                   ptr_lt (hlen st') r) /\
  (forall c st fuel,
     always_ok st -> callable c st -> fuel_needed c st < fuel ->
     exists r st', run fuel c st = Ok r st' /\ togo st' <= togo st) /\
  (forall t st fuel,
     (forall n, alloc_ok st n = false) ->
     (is_additive (token st) = true ->
      run fuel (PSimpleExpLoop t) st = OutOfFuel) /\
     (is_multiplicative (token st) = true ->
      run fuel (PTermLoop t) st = OutOfFuel)).
Proof.
  split; [| split].
  - intros toks oracle Hok fuel Hfuel.
    set (st0 := initial toks oracle).
    assert (Hok1 : always_ok (after_advance st0)).
    { apply always_ok_after_advance. exact Hok. }
    assert (Ht : togo (after_advance st0) <= 2 * length toks).
    { pose proof (after_advance_togo st0) as H.
      unfold togo at 2 in H. simpl in H. lia. }
    assert (R : exists r st',
               run fuel PStmtSequence (after_advance st0) = Ok r st' /\
               Post PStmtSequence (after_advance st0) r st' /\
               always_ok st').
    { apply run_returns.
      - exact Hok1.
      - split; [exact I | constructor].
      - unfold fuel_needed. simpl rank. lia. }
    destruct R as (r & st1 & E & (S1 & _ & V1 & _) & _).
    + unfold parse, bind. rewrite advance_eq. fold st0. rewrite E.
      unfold gets, when.
      destruct (negb (tok_eqb (token st1) ENDFILE)).
      * rewrite syntaxError_eq. eexists _, _. split; [reflexivity |].
        exact V1.
      * eexists _, _. split; [reflexivity |]. exact V1.
  - intros c st fuel Hok Hc Hf.
    assert (R : exists r st',
               run fuel c st = Ok r st' /\ Post c st r st' /\ always_ok st')
      by (apply run_returns; assumption).
    destruct R as (r & st' & E & (S1 & _) & _).
    exists r, st'. split; [exact E |].
    eapply Steps_togo; eassumption.
  - intros t st fuel Hno. split; intros Hop.
    + apply starved_simple_exp_loop; assumption.
    + apply starved_term_loop; assumption.
Qed.

Lemma parse_terminates_witness :
  (exists r st',
     parse 100 (initial [tok WRITE "write"; tok NUM "1"; tok PLUS "+";
                        tok NUM "2"] never_fails) = Ok r st' /\
     ptr_lt (hlen st') r) /\
  run 5 (PSimpleExpLoop None)
      (looking_at (tok PLUS "+") [tok NUM "2"] (fun _ => false)) = OutOfFuel.
Proof.
  split.
  - apply (proj1 parse_terminates); [reflexivity | simpl; lia].
  - apply (proj2 (proj2 parse_terminates)); reflexivity.
Defined.

(** ** The node a statement procedure hands back *)

Lemma wlp_alloc_node k (Q : ptr -> State -> Prop) st :
  Q (Some (hlen st)) (alloc_state k st) ->
  Q None (count_alloc st) ->
  wlp (alloc_node k) Q st.
Proof.
  intros Hok Hfail. unfold wlp, alloc_node.
  destruct (alloc_ok st (nalloc st)); assumption.
Qed.

Lemma wlp_store_known p f n (Q : unit -> State -> Prop) st :
  heap st !! p = Some n ->
  Q tt (set_heap (<[p := f n]> (heap st)) st) ->
  wlp (store (Some p) f) Q st.
Proof. intros Hn HQ. unfold wlp, store. rewrite Hn. exact HQ. Qed.

Lemma alloc_state_hlen k st : hlen (alloc_state k st) = S (hlen st).
Proof. unfold hlen, alloc_state; simpl. rewrite length_app; simpl. lia. Qed.

Lemma alloc_state_cell k st :
  heap (alloc_state k st) !! hlen st = Some (blank_node k).
Proof.
  unfold alloc_state, hlen; simpl. apply list_lookup_middle. reflexivity.
Qed.

Lemma alloc_state_old k st q n :
  heap st !! q = Some n -> heap (alloc_state k st) !! q = Some n.
Proof.
  intros H. unfold alloc_state; simpl.
  rewrite lookup_app_l; [exact H |]. eapply lookup_lt_Some; exact H.
Qed.

Lemma node_eq (n n' : TreeNode) :
  nodekind n' = nodekind n -> attr n' = attr n ->
  sibling n' = sibling n -> child n' = child n -> n' = n.
Proof. destruct n, n'; simpl; intros; congruence. Qed.

(** A procedure without pointer arguments leaves every cell that
    existed when it was entered as it was. *)
Lemma closed_frame (ctx : Owner) st st' q n :
  Steps ctx st st' ->
  sib_tgt ctx = None -> child_tgt ctx = None -> attr_tgt ctx = None ->
  q < base ctx -> heap st !! q = Some n ->
  heap st' !! q = Some n.
Proof.
  intros HS Hs Hc Ha Hq Hn.
  destruct (Steps_frame HS Hq Hn) as (n' & Hn' & K & A & S & C).
  rewrite Hn'. f_equal.
  apply node_eq; [exact K | apply A | apply S | apply C];
    congruence.
Qed.

(** The cell an owner may only fill keeps its kind and stays unlinked. *)
Lemma Steps_keeps_cell (ctx : Owner) st st' q n :
  Steps ctx st st' -> q < base ctx -> sib_tgt ctx = None ->
  heap st !! q = Some n ->
  exists n', heap st' !! q = Some n' /\ nodekind n' = nodekind n /\
             sibling n' = sibling n /\
             (attr_tgt ctx = None -> attr n' = attr n).
Proof.
  intros HS Hq Hs Hn.
  destruct (Steps_frame HS Hq Hn) as (n' & Hn' & K & A & S & C).
  exists n'. repeat split; auto.
  - apply S. congruence.
  - intros Ha. apply A. congruence.
Qed.

Ltac open_alloc st1 :=
  apply wlp_bind;
  first [unfold newStmtNode | unfold newExpNode];
  apply wlp_alloc_node;
  [ match goal with
    | |- wlp _ _ (alloc_state ?k ?st) =>
        pose proof (alloc_state_hlen k st);
        pose proof (alloc_state_cell k st);
        assert (token (alloc_state k st) = token st) by reflexivity;
        assert (togo (alloc_state k st) = togo st) by reflexivity;
        let E := fresh "E" in
        remember (alloc_state k st) as st1 eqn:E; clear E
    end
  | ].

(** [call_stmt] returns NULL or the [Call] node it allocated, carrying
    the callee's name and no sibling. *)
Lemma call_stmt_returns_call (fuel : nat) name st :
  wlp (run fuel (PCallStmt name)) (returns_call name st) st.
Proof.
  destruct fuel as [| f]; [exact I |].
  change (run (S f) (PCallStmt name)) with (call_stmt (run f) name).
  pose proof (run_post f) as IH.
  unfold call_stmt.
  open_alloc st1.
  - cbn [nonnull]. unfold when. apply wlp_bind.
    eapply wlp_store_known; [eassumption |].
    match goal with
    | |- wlp _ _ ?s => remember s as st2 eqn:E2
    end.
    assert (H3 : hlen st2 = S (hlen st)).
    { subst st2. unfold hlen, set_heap; cbn [heap]. rewrite length_insert.
      assumption. }
    assert (H4 : heap st2 !! hlen st =
                 Some (with_attr (name_attr name) (blank_node (StmtK CallK)))).
    { subst st2. unfold set_heap; cbn [heap]. apply list_lookup_insert_eq.
      eapply lookup_lt_Some; eassumption. }
    clear E2.
    assert (Hacc : Steps (owner_of_named (hlen st)) st2 st2) by constructor.
    unfold owner_of_named in Hacc.
    repeat acc_step IH.
    intros q [= <-]. split; [lia |].
    match goal with
    | HS : Steps _ st2 ?cur |- call_cell _ ?cur _ =>
        destruct (Steps_keeps_cell HS (q := hlen st) ltac:(simpl; lia)
                    eq_refl H4) as (n' & Hn' & K & S & A)
    end.
    exists n'. repeat split; auto.
  - cbn [nonnull]. unfold when.
    assert (Hacc : Steps (ctx_of (PCallStmt name) (count_alloc st))
                     (count_alloc st) (count_alloc st)) by constructor.
    assert (hlen (count_alloc st) = hlen st) by reflexivity.
    repeat acc_step IH.
    all: try (intros q [=]).
Qed.

Ltac tail_call_stmt :=
  lazymatch goal with
  | |- wlp (run _ (PCallStmt ?name)) (returns_stmt ?st) ?cur =>
      eapply wlp_conseq; [apply call_stmt_returns_call |];
      let q := fresh "q" in
      let Hq := fresh "Hq" in
      intros ? ? HR q Hq;
      destruct (HR q Hq) as [? (n & Hn & K & S & _)];
      split; [lia |];
      exists n; split; [exact Hn |]; split; [exact S |];
      eexists; exact K
  end.

Ltac returned_cell st1 :=
  lazymatch goal with
  | |- returns_stmt _ None _ => intros ? [=]
  | |- returns_stmt ?st (Some (hlen ?st)) ?cur =>
      intros ? [= <-]; split; [lia |];
      match goal with
      | HS : Steps _ st1 cur, Hc : heap st1 !! hlen st = Some _ |- _ =>
          destruct (Steps_keeps_cell HS (q := hlen st) ltac:(simpl; lia)
                      eq_refl Hc) as (n' & Hn' & K & S & _);
          exists n'; split; [exact Hn' |];
          split; [rewrite S; reflexivity |];
          eexists; rewrite K; reflexivity
      end
  end.

(** Each statement form returns NULL or the statement node it
    allocated (for a call statement, the node [call_stmt] allocated),
    without a sibling. *)
Lemma stmt_form_returns_stmt (fuel : nat) c st :
  is_stmt_form c = true ->
  wlp (run fuel c) (returns_stmt st) st.
Proof.
  intros Hc. destruct fuel as [| f]; [exact I |].
  change (run (S f) c) with (body (run f) c).
  pose proof (run_post f) as IH.
  destruct c; try discriminate Hc; unfold_body.
  all: open_alloc st1;
    [ assert (Hacc : Steps (owner_of_new (hlen st)) st1 st1) by constructor;
      unfold owner_of_new in Hacc
    | assert (Hacc : Steps (ctx_of PStatement (count_alloc st))
                       (count_alloc st) (count_alloc st)) by constructor;
      assert (hlen (count_alloc st) = hlen st) by reflexivity ].
  all: repeat first [tail_call_stmt | acc_step IH].
  all: returned_cell st1.
Qed.

(** So does [statement]. *)
Lemma statement_returns_stmt (fuel : nat) st :
  wlp (run fuel PStatement) (returns_stmt st) st.
Proof.
  destruct fuel as [| f]; [exact I |].
  change (run (S f) PStatement) with (statement (run f)).
  unfold statement. apply wlp_bind, wlp_gets.
  destruct (token st);
    try (apply stmt_form_returns_stmt; reflexivity);
    try (apply wlp_ret; intros ? [=]).
  all: unfold wlp, bind; rewrite syntaxError_eq; simpl; intros ? [=].
Qed.

(** ** The additive level is left-associative *)

Lemma store_put p f n st :
  heap st !! p = Some n -> store (Some p) f st = Ok tt (put p f st).
Proof. intros H. unfold store, put. rewrite H. reflexivity. Qed.

Lemma put_cell p f n st :
  heap st !! p = Some n -> heap (put p f st) !! p = Some (f n).
Proof.
  intros H. unfold put. rewrite H. simpl.
  apply list_lookup_insert_eq. eapply lookup_lt_Some; exact H.
Qed.

Lemma put_other p f st q :
  q <> p -> heap (put p f st) !! q = heap st !! q.
Proof.
  intros H. unfold put. destruct (heap st !! p); [| reflexivity].
  simpl. apply list_lookup_insert_ne. congruence.
Qed.

Lemma put_token p f st : token (put p f st) = token st.
Proof. unfold put. destruct (heap st !! p); reflexivity. Qed.

Lemma put_hlen p f st : hlen (put p f st) = hlen st.
Proof.
  unfold put, hlen. destruct (heap st !! p); [| reflexivity].
  simpl. apply length_insert.
Qed.

Lemma after_advance_heap st : heap (after_advance st) = heap st.
Proof. unfold after_advance, scan_next. destruct (input st); reflexivity. Qed.

Lemma op_opened_hlen t st : hlen (op_opened t st) = S (hlen st).
Proof.
  unfold op_opened.
  rewrite after_advance_hlen, !put_hlen. apply alloc_state_hlen.
Qed.

Lemma op_opened_cell t st :
  heap (op_opened t st) !! hlen st =
  Some (with_attr (AttrOp (token st))
          (with_child 0 t (blank_node (ExpK OpK)))).
Proof.
  unfold op_opened. rewrite after_advance_heap.
  apply put_cell, put_cell, alloc_state_cell.
Qed.

Lemma op_opened_old t st q n :
  heap st !! q = Some n -> heap (op_opened t st) !! q = Some n.
Proof.
  intros H. unfold op_opened. rewrite after_advance_heap.
  assert (q <> hlen st).
  { apply lookup_lt_Some in H. unfold hlen. lia. }
  rewrite !put_other by assumption. apply alloc_state_old. exact H.
Qed.

(** Entering the loop body on an operator, with the allocation
    succeeding, leads to the state [op_opened t st] in which the right
    operand is parsed. *)
Lemma open_op_node (call : Prod -> M ptr) (operand : Prod)
    (k : ptr -> ptr -> M ptr) t st :
  alloc_ok st (nalloc st) = true ->
  (p <- newExpNode OpK ;;
   if nonnull p then
     set_child p 0 t ;;
     op <- gets token ;; set_op p op ;;
     tk1 <- gets token ;;
     match_ tk1 ;;
     r <- call operand ;;
     k p r
   else call (PSimpleExpLoop t))%parser st
  = (r <- call operand ;; k (Some (hlen st)) r)%parser (op_opened t st).
Proof.
  intros Hok.
  unfold bind at 1. unfold newExpNode, alloc_node. rewrite Hok.
  cbn [nonnull].
  unfold bind at 1. unfold set_child.
  erewrite store_put by apply alloc_state_cell.
  unfold bind at 1. unfold gets at 1.
  unfold bind at 1. unfold set_op.
  erewrite store_put by (apply put_cell, alloc_state_cell).
  unfold bind at 1. unfold gets at 1.
  unfold bind at 1. rewrite match_eq. unfold after_match.
  rewrite tok_eqb_refl.
  rewrite !put_token.
  change (token (alloc_state (ExpK OpK) st)) with (token st).
  reflexivity.
Qed.

(** What a procedure without pointer arguments leaves in place. *)
Lemma run_closed_frame (fuel : nat) c st r st' q n :
  run fuel c st = Ok r st' ->
  ptr_args c = [] -> sib_arg c = None -> child_arg c = None ->
  heap st !! q = Some n ->
  heap st' !! q = Some n.
Proof.
  intros E Ha Hs Hc Hn.
  assert (V : args_valid c st) by (unfold args_valid; rewrite Ha; constructor).
  assert (HP : Post c st r st')
    by (eapply wlp_elim; [apply run_post; exact V | exact E]).
  destruct HP as (S1 & _).
  eapply closed_frame; try eassumption; try reflexivity.
  simpl. eapply lookup_lt_Some; exact Hn.
Qed.

(** C2.  The loop of [simple_exp]: on a lookahead that is not [+], [-]
    or the logical and, it returns the accumulated tree unchanged.  On
    such an operator (the allocation succeeding) it builds an [Op] node
    in the next free cell, whose child 0 is the tree accumulated so far,
    whose attribute is the operator and whose child 1 is what [term]
    returns for the tokens after the operator, and goes round again with
    that node as the accumulated tree; the cells of the accumulated tree
    and of the operand are left as they were.  So "1-2-3" yields
    [Op(-, Op(-, 1, 2), 3)]. *)
Theorem simple_exp_left_assoc :
  (forall fuel t st,
     is_additive (token st) = false ->
     run (S fuel) (PSimpleExpLoop t) st = Ok t st) /\
  (forall fuel t st r st5,
     is_additive (token st) = true ->
     alloc_ok st (nalloc st) = true ->
     run fuel PTerm (op_opened t st) = Ok r st5 ->
     let p := hlen st in
     let st6 := put p (with_child 1 r) st5 in
     run (S fuel) (PSimpleExpLoop t) st =
       run fuel (PSimpleExpLoop (Some p)) st6 /\
     heap st6 !! p = Some (op_cell (token st) t r) /\
     (forall q n, heap st !! q = Some n -> heap st6 !! q = Some n) /\
     (forall q n, q <> p -> heap st5 !! q = Some n ->
                  heap st6 !! q = Some n)) /\
  outcome (run 10 PExp
             (looking_at (tok NUM "1")
                [tok MINUS "-"; tok NUM "2"; tok MINUS "-"; tok NUM "3"]
                never_fails))
  = Some (Some (Op MINUS (Op MINUS (Const 1) (Const 2)) (Const 3)),
          ENDFILE, false, 0).
Proof.
  split; [| split].
  - intros fuel t st Hop.
    change (run (S fuel) (PSimpleExpLoop t))
      with (simple_exp_loop (run fuel) t).
    unfold simple_exp_loop, bind, gets. unfold is_additive in Hop.
    rewrite Hop. reflexivity.
  - intros fuel t st r st5 Hop Hok E p st6.
    assert (Hcell : heap st5 !! p =
                    Some (with_attr (AttrOp (token st))
                            (with_child 0 t (blank_node (ExpK OpK))))).
    { eapply run_closed_frame; try exact E; try reflexivity.
      apply op_opened_cell. }
    split; [| split; [| split]].
    + change (run (S fuel) (PSimpleExpLoop t))
        with (simple_exp_loop (run fuel) t).
      unfold simple_exp_loop. unfold bind at 1. unfold gets at 1.
      unfold is_additive in Hop. rewrite Hop.
      etransitivity;
        [apply (open_op_node (run fuel) PTerm
                  (fun p r => (set_child p 1 r ;;
                               run fuel (PSimpleExpLoop p))%parser));
         exact Hok |].
      unfold bind at 1. rewrite E.
      unfold bind at 1. unfold set_child.
      erewrite store_put by exact Hcell. reflexivity.
    + unfold st6. erewrite put_cell by exact Hcell. reflexivity.
    + intros q n Hn. unfold st6.
      assert (q <> p).
      { apply lookup_lt_Some in Hn. unfold p, hlen. lia. }
      rewrite put_other by assumption.
      eapply run_closed_frame; try exact E; try reflexivity.
      apply op_opened_old. exact Hn.
    + intros q n Hq Hn. unfold st6. rewrite put_other by assumption.
      exact Hn.
  - vm_compute. reflexivity.
Qed.

Lemma simple_exp_left_assoc_witness :
  let st := looking_at (tok MINUS "-") [tok NUM "2"; tok MINUS "-"; tok NUM "3"]
              never_fails in
  run 1 (PSimpleExpLoop (Some 7))
      (looking_at (tok RPAREN ")") [] never_fails)
  = Ok (Some 7) (looking_at (tok RPAREN ")") [] never_fails) /\
  exists r st6,
    run 5 (PSimpleExpLoop None) st = run 4 (PSimpleExpLoop (Some 0)) st6 /\
    heap st6 !! 0 = Some (op_cell MINUS None r).
Proof.
  intros st. split.
  - apply (proj1 simple_exp_left_assoc). reflexivity.
  - edestruct (proj1 (proj2 simple_exp_left_assoc) 4 None st)
      as (H1 & H2 & _);
      [reflexivity | reflexivity | vm_compute; reflexivity |].
    eexists _, _. split; [exact H1 | exact H2].
Defined.

(** ** Statement sequences *)

Lemma chain_lookup h t l q :
  chain h t l -> In q l -> exists n, h !! q = Some n.
Proof.
  revert t. induction l as [| a l IH]; intros t Hc Hin; [contradiction |].
  destruct Hc as (_ & n & Hn & Hc).
  destruct Hin as [<- | Hin]; [eauto | eapply IH; eauto].
Qed.

Lemma chain_ext h h' t l :
  (forall q, In q l -> h' !! q = h !! q) -> chain h t l -> chain h' t l.
Proof.
  revert t. induction l as [| a l IH]; intros t Hs Hc; [exact Hc |].
  destruct Hc as (Ht & n & Hn & Hc).
  split; [exact Ht |]. exists n. split.
  - rewrite Hs; [exact Hn | left; reflexivity].
  - apply IH; [| exact Hc]. intros q Hq. apply Hs. right. exact Hq.
Qed.

Lemma last_cons_In {A} (a : A) (l : list A) p :
  last (a :: l) = Some p -> l <> [] -> In p l.
Proof.
  revert a. induction l as [| b l IH]; intros a Hl Hne; [congruence |].
  destruct l as [| c l].
  - simpl in Hl. injection Hl as <-. left. reflexivity.
  - right. apply (IH b); [exact Hl | discriminate].
Qed.

(** Linking [q] behind the last cell of a chain makes the chain one
    longer. *)
Lemma chain_snoc h t l p np q nq :
  chain h t l -> last l = Some p -> NoDup l ->
  h !! p = Some np -> ~ In q l -> h !! q = Some nq -> sibling nq = None ->
  chain (<[p := with_sibling (Some q) np]> h) t (l ++ [q]).
Proof.
  revert t. induction l as [| a l IH]; intros t Hc Hl Hnd Hp Hq Hnq Hs;
    [discriminate |].
  destruct Hc as (Ht & n & Hn & Hc).
  apply NoDup_cons in Hnd as [Ha Hnd].
  assert (Hqa : q <> a) by (intros ->; apply Hq; left; reflexivity).
  assert (Hql : ~ In q l) by (intros H; apply Hq; right; exact H).
  destruct l as [| b l].
  - simpl in Hl. injection Hl as <-.
    rewrite Hp in Hn. injection Hn as <-.
    simpl in Hc.
    split; [exact Ht |].
    exists (with_sibling (Some q) np). split.
    + apply list_lookup_insert_eq. eapply lookup_lt_Some; exact Hp.
    + simpl. split; [reflexivity |]. exists nq. split.
      * rewrite list_lookup_insert_ne by congruence. exact Hnq.
      * exact Hs.
  - assert (Hpl : In p (b :: l)) by (eapply last_cons_In; eauto; discriminate).
    assert (Hpa : p <> a).
    { intros ->. apply Ha. apply list_elem_of_In. exact Hpl. }
    split; [exact Ht |]. exists n. split.
    + rewrite list_lookup_insert_ne by congruence. exact Hn.
    + apply IH; auto.
Qed.

Lemma chain_last_In {A} (l : list A) p : last l = Some p -> In p l.
Proof.
  induction l as [| a l IH]; [discriminate |].
  destruct l as [| b l].
  - simpl. intros [= <-]. left. reflexivity.
  - intros H. right. apply IH. exact H.
Qed.

Lemma chain_bound h t l q : chain h t l -> In q l -> q < length h.
Proof.
  intros Hc Hin. destruct (@chain_lookup h t l q Hc Hin) as [n Hn].
  eapply lookup_lt_Some; exact Hn.
Qed.

Lemma chain_head_nonnull h t l : chain h t l -> nonnull t = negb (bool_decide (l = [])).
Proof.
  destruct l; simpl.
  - intros ->. reflexivity.
  - intros (-> & _). reflexivity.
Qed.

Lemma skip_separator_eq st :
  when (tok_eqb (token st) SEMI) (match_ SEMI) st = Ok tt (skip_separator st).
Proof.
  unfold when, skip_separator.
  destruct (tok_eqb (token st) SEMI) eqn:E; [| reflexivity].
  rewrite match_eq. unfold after_match. rewrite E. reflexivity.
Qed.

Lemma skip_separator_heap st : heap (skip_separator st) = heap st.
Proof.
  unfold skip_separator. destruct (tok_eqb (token st) SEMI);
    [apply after_advance_heap | reflexivity].
Qed.

(** One round of the loop of [stmt_sequence], spelled out. *)
Lemma seq_loop_unfold (f : nat) t p st :
  run (S f) (PStmtSequenceLoop t p) st =
  if seq_breaks (token st) then Ok t st
  else
    let st1 := skip_separator st in
    if seq_breaks (token st1) then Ok t st1
    else
      match run f PStatement st1 with
      | Ok (Some q) st2 =>
          match t with
          | None => run f (PStmtSequenceLoop (Some q) (Some q)) st2
          | Some _ =>
              (set_sibling p (Some q) ;;
               run f (PStmtSequenceLoop t (Some q)))%parser st2
          end
      | Ok None st2 => run f (PStmtSequenceLoop t p) st2
      | Crash => Crash
      | OutOfFuel => OutOfFuel
      end.
Proof.
  change (run (S f) (PStmtSequenceLoop t p))
    with (stmt_sequence_loop (run f) t p).
  unfold stmt_sequence_loop. unfold bind at 1. unfold gets at 1.
  rewrite seq_continues_breaks.
  destruct (seq_breaks (token st)); [reflexivity |]. cbn [negb].
  unfold bind at 1. rewrite skip_separator_eq.
  unfold bind at 1. unfold gets at 1. cbv zeta.
  destruct (seq_breaks (token (skip_separator st))); [reflexivity |].
  unfold bind at 1.
  destruct (run f PStatement (skip_separator st)) as [[q |] st2 | |];
    try reflexivity.
  cbn [nonnull]. destruct t; reflexivity.
Qed.

(** The loop only ever returns on a terminator. *)
Lemma seq_loop_ends_on_terminator (fuel : nat) :
  forall t p st r st',
    run fuel (PStmtSequenceLoop t p) st = Ok r st' ->
    seq_breaks (token st') = true.
Proof.
  induction fuel as [| f IH]; intros t p st r st' E; [discriminate |].
  rewrite seq_loop_unfold in E.
  destruct (seq_breaks (token st)) eqn:B.
  { injection E as <- <-. exact B. }
  cbv zeta in E.
  destruct (seq_breaks (token (skip_separator st))) eqn:B1.
  { injection E as <- <-. exact B1. }
  destruct (run f PStatement (skip_separator st)) as [[q |] st2 | |];
    try discriminate.
  - destruct t.
    + unfold bind in E.
      destruct (set_sibling p (Some q) st2) as [[] st3 | |];
        try discriminate.
      eapply IH; exact E.
    + eapply IH; exact E.
  - eapply IH; exact E.
Qed.

Lemma builds_lookup_last t i l st :
  builds t (Some i) l st ->
  exists n, heap st !! i = Some n.
Proof.
  intros (Hc & Hl & _).
  eapply chain_lookup; [exact Hc |].
  apply chain_last_In. symmetry. exact Hl.
Qed.

Lemma builds_head t p l st : builds t p l st -> nonnull t = nonnull p.
Proof.
  intros (Hc & -> & _). destruct l as [| a l]; simpl in *.
  - subst. reflexivity.
  - destruct Hc as (-> & _). simpl.
    destruct (last (a :: l)) eqn:E; [reflexivity |].
    exfalso. clear - E. revert a E.
    induction l as [| b l IH]; intros a E; [discriminate |].
    apply (IH b). exact E.
Qed.

(** A round in which [statement] returns node [q]: [q] is linked behind
    the chain built so far. *)
Lemma seq_loop_links (f : nat) t p st l q st2 :
  builds t p l st ->
  seq_breaks (token st) = false ->
  seq_breaks (token (skip_separator st)) = false ->
  run f PStatement (skip_separator st) = Ok (Some q) st2 ->
  run (S f) (PStmtSequenceLoop t p) st =
    run f (PStmtSequenceLoop (head_after t q) (Some q)) (linked t p q st2) /\
  builds (head_after t q) (Some q) (l ++ [q]) (linked t p q st2).
Proof.
  intros HB B B1 E.
  assert (HR : returns_stmt (skip_separator st) (Some q) st2)
    by (eapply wlp_elim; [apply statement_returns_stmt | exact E]).
  destruct (HR q eq_refl) as (Hge & nq & Hnq & Hsib & _).
  assert (Hold : forall i n, heap st !! i = Some n -> heap st2 !! i = Some n).
  { intros i n Hn. eapply run_closed_frame; try exact E; try reflexivity.
    rewrite skip_separator_heap. exact Hn. }
  assert (Hfresh : forall i, In i l -> i < q).
  { intros i Hi. destruct HB as (Hc & _).
    pose proof (@chain_bound _ _ _ _ Hc Hi) as Hb.
    unfold hlen in Hge. rewrite skip_separator_heap in Hge. lia. }
  assert (Hc2 : chain (heap st2) t l).
  { destruct HB as (Hc & _). eapply chain_ext; [| exact Hc].
    intros i Hi. destruct (@chain_lookup _ _ _ _ Hc Hi) as [n Hn].
    rewrite Hn. apply Hold. exact Hn. }
  assert (Hq : ~ In q l) by (intros Hi; apply Hfresh in Hi; lia).
  pose proof (builds_head HB) as Hnn.
  rewrite seq_loop_unfold, B. cbv zeta. rewrite B1, E.
  destruct HB as (Hc & Hl & Hnd).
  destruct t as [a |]; destruct p as [i |]; try discriminate Hnn.
  - destruct (@chain_lookup _ _ _ i Hc2) as [np Hnp].
    { apply chain_last_In. symmetry. exact Hl. }
    unfold bind. unfold set_sibling. erewrite store_put by exact Hnp.
    split; [reflexivity |].
    unfold linked, head_after, put. rewrite Hnp. simpl.
    split; [| split].
    + eapply chain_snoc; eauto.
    + rewrite last_snoc. reflexivity.
    + apply NoDup_app. split; [exact Hnd |]. split.
      * intros x Hx [= ->]%list_elem_of_singleton.
        apply Hq. apply list_elem_of_In. exact Hx.
      * apply NoDup_singleton.
  - split; [reflexivity |].
    destruct l as [| b l]; [| destruct Hc as ([=] & _)].
    unfold linked, head_after. simpl.
    split; [| split].
    + split; [reflexivity |]. exists nq. split; [exact Hnq | exact Hsib].
    + reflexivity.
    + apply NoDup_singleton.
Qed.

(** A round in which [statement] returns no node leaves the chain as
    it is. *)
Lemma seq_loop_skips (f : nat) t p st l st2 :
  builds t p l st ->
  seq_breaks (token st) = false ->
  seq_breaks (token (skip_separator st)) = false ->
  run f PStatement (skip_separator st) = Ok None st2 ->
  run (S f) (PStmtSequenceLoop t p) st =
    run f (PStmtSequenceLoop t p) st2 /\
  builds t p l st2.
Proof.
  intros (Hc & Hl & Hnd) B B1 E.
  rewrite seq_loop_unfold, B. cbv zeta. rewrite B1, E.
  split; [reflexivity |].
  split; [| split; assumption].
  eapply chain_ext; [| exact Hc].
  intros i Hi. destruct (@chain_lookup _ _ _ _ Hc Hi) as [n Hn].
  rewrite Hn. eapply run_closed_frame; try exact E; try reflexivity.
  rewrite skip_separator_heap. exact Hn.
Qed.

(** Whatever the loop goes on to do, the chain it returns starts with
    the chain it was entered with. *)
Lemma seq_loop_extends (fuel : nat) :
  forall t p st l r st',
    builds t p l st ->
    run fuel (PStmtSequenceLoop t p) st = Ok r st' ->
    exists l', chain (heap st') r (l ++ l') /\ NoDup (l ++ l').
Proof.
  induction fuel as [| f IH]; intros t p st l r st' HB E; [discriminate |].
  pose proof E as E0.
  rewrite seq_loop_unfold in E.
  destruct (seq_breaks (token st)) eqn:B.
  { injection E as <- <-. exists []. rewrite app_nil_r.
    destruct HB as (Hc & _ & Hnd). auto. }
  cbv zeta in E.
  destruct (seq_breaks (token (skip_separator st))) eqn:B1.
  { injection E as <- <-. exists []. rewrite app_nil_r.
    destruct HB as (Hc & _ & Hnd). rewrite skip_separator_heap. auto. }
  destruct (run f PStatement (skip_separator st)) as [[q |] st2 | |] eqn:ES;
    try discriminate.
  - destruct (@seq_loop_links f t p st l q st2 HB B B1 ES) as (Eq & HB').
    rewrite Eq in E0.
    destruct (IH _ _ _ _ _ _ HB' E0) as (l' & Hc' & Hnd').
    exists (q :: l'). rewrite <- app_assoc in Hc', Hnd'. auto.
  - destruct (@seq_loop_skips f t p st l st2 HB B B1 ES) as (Eq & HB').
    rewrite Eq in E0. eapply IH; eassumption.
Qed.

Lemma ends_block_seq_breaks tk : ends_block tk = true -> seq_breaks tk = true.
Proof. destruct tk; simpl; auto; discriminate. Qed.

Lemma stmt_sequence_unfold (f : nat) st :
  run (S f) PStmtSequence st =
  match run f PStatement st with
  | Ok t st1 => run f (PStmtSequenceLoop t t) st1
  | Crash => Crash
  | OutOfFuel => OutOfFuel
  end.
Proof. reflexivity. Qed.

(** C3, as amended.  [stmt_sequence] parses one statement and then
    loops.
    - It never returns on a lookahead other than [ENDFILE], [END],
      [ELSE] and [UNTIL].
    - Entered on [END] or [ENDFILE] it returns NULL and consumes
      nothing.
    - At a loop test on one of the four it returns the chain built so
      far and consumes nothing; on a separator followed by one of the
      four it consumes the separator only, without a diagnostic.
    - In every other round it skips one separator if there is one and
      calls [statement]; a node that comes back is linked, once, behind
      the last node of the chain, which becomes one longer; when NULL
      comes back the chain stays as it is.
    - The pointer returned heads a sibling chain without repetition.
    - The node the first call of [statement] returns heads that chain:
      the loop is entered with it as the head and the last node of a
      chain of one (of none when NULL came back), and the chain
      returned starts with it.
    - Entered on [ELSE] or [UNTIL], the first call of [statement]
      reports one syntax error and consumes that token, and the loop is
      entered with no chain at the token after it. *)
Theorem stmt_sequence_links_in_order :
  (forall fuel st r st',
     run fuel PStmtSequence st = Ok r st' ->
     seq_breaks (token st') = true) /\
  (forall fuel st,
     ends_block (token st) = true ->
     run (S (S fuel)) PStmtSequence st = Ok None st) /\
  (forall fuel t p st,
     seq_breaks (token st) = true ->
     run (S fuel) (PStmtSequenceLoop t p) st = Ok t st) /\
  (forall fuel t p st,
     token st = SEMI ->
     seq_breaks (scan_kind st) = true ->
     run (S fuel) (PStmtSequenceLoop t p) st = Ok t (after_advance st) /\
     diagnostics (after_advance st) = diagnostics st /\
     Error (after_advance st) = Error st) /\
  (forall fuel t p st l q st2,
     builds t p l st ->
     seq_breaks (token st) = false ->
     seq_breaks (token (skip_separator st)) = false ->
     run fuel PStatement (skip_separator st) = Ok (Some q) st2 ->
     run (S fuel) (PStmtSequenceLoop t p) st =
       run fuel (PStmtSequenceLoop (head_after t q) (Some q))
           (linked t p q st2) /\
     builds (head_after t q) (Some q) (l ++ [q]) (linked t p q st2)) /\
  (forall fuel t p st l st2,
     builds t p l st ->
     seq_breaks (token st) = false ->
     seq_breaks (token (skip_separator st)) = false ->
     run fuel PStatement (skip_separator st) = Ok None st2 ->
     run (S fuel) (PStmtSequenceLoop t p) st =
       run fuel (PStmtSequenceLoop t p) st2 /\
     builds t p l st2) /\
  (forall fuel st r st',
     run fuel PStmtSequence st = Ok r st' ->
     exists l, chain (heap st') r l /\ NoDup l) /\
  (forall fuel st t st1,
     run fuel PStatement st = Ok t st1 ->
     let first := match t with
                  | Some q => [q]
                  | None => []
                  end in
     run (S fuel) PStmtSequence st = run fuel (PStmtSequenceLoop t t) st1 /\
     builds t t first st1 /\
     (forall r st',
        run (S fuel) PStmtSequence st = Ok r st' ->
        exists l', chain (heap st') r (first ++ l') /\
                   NoDup (first ++ l'))) /\
  (forall fuel st,
     token st = ELSE \/ token st = UNTIL ->
     let st1 := after_unexpected "statement:: unexpected token -> " st in
     run (S (S fuel)) PStmtSequence st =
       run (S fuel) (PStmtSequenceLoop None None) st1 /\
     diagnostics st1 = S (diagnostics st) /\ Error st1 = true /\
     token st1 = scan_kind st /\ input st1 = tail (input st)).
Proof.
  repeat apply conj.
  - intros [| f] st r st' E; [discriminate |].
    rewrite stmt_sequence_unfold in E.
    destruct (run f PStatement st) as [t st1 | |]; try discriminate.
    eapply seq_loop_ends_on_terminator; exact E.
  - intros fuel st He.
    rewrite stmt_sequence_unfold.
    assert (Es : run (S fuel) PStatement st = Ok None st).
    { change (run (S fuel) PStatement) with (statement (run fuel)).
      unfold statement, bind, gets.
      destruct (token st); try discriminate; reflexivity. }
    rewrite Es, seq_loop_unfold, (ends_block_seq_breaks _ He). reflexivity.
  - intros fuel t p st B. rewrite seq_loop_unfold, B. reflexivity.
  - intros fuel t p st Ht B.
    assert (Hs : skip_separator st = after_advance st).
    { unfold skip_separator. rewrite Ht. reflexivity. }
    split; [| split].
    + rewrite seq_loop_unfold, Ht. cbv zeta. rewrite Hs.
      change (token (after_advance st)) with (scan_kind st).
      rewrite B. reflexivity.
    + unfold diagnostics, after_advance, scan_next.
      destruct (input st); reflexivity.
    + unfold after_advance, scan_next. destruct (input st); reflexivity.
  - intros. apply seq_loop_links; assumption.
  - intros. eapply seq_loop_skips; eassumption.
  - intros [| f] st r st' E; [discriminate |].
    rewrite stmt_sequence_unfold in E.
    destruct (run f PStatement st) as [t st1 | |] eqn:Es; try discriminate.
    assert (HR : returns_stmt st t st1)
      by (eapply wlp_elim; [apply statement_returns_stmt | exact Es]).
    destruct t as [q |].
    + destruct (HR q eq_refl) as (_ & nq & Hnq & Hsib & _).
      assert (HB : builds (Some q) (Some q) [q] st1).
      { split; [| split; [reflexivity | apply NoDup_singleton]].
        split; [reflexivity |]. exists nq. split; [exact Hnq | exact Hsib]. }
      destruct (@seq_loop_extends f _ _ _ _ _ _ HB E) as (l' & Hc & Hnd).
      eauto.
    + assert (HB : builds None None [] st1).
      { split; [reflexivity | split; [reflexivity | apply NoDup_nil_2]]. }
      destruct (@seq_loop_extends f _ _ _ _ _ _ HB E) as (l' & Hc & Hnd).
      eauto.
  - intros fuel st t st1 Es first.
    assert (HR : returns_stmt st t st1)
      by (eapply wlp_elim; [apply statement_returns_stmt | exact Es]).
    assert (HB : builds t t first st1).
    { unfold first. destruct t as [q |].
      - destruct (HR q eq_refl) as (_ & nq & Hnq & Hsib & _).
        split; [| split; [reflexivity | apply NoDup_singleton]].
        split; [reflexivity |]. exists nq. split; [exact Hnq | exact Hsib].
      - split; [reflexivity | split; [reflexivity | apply NoDup_nil_2]]. }
    split; [| split; [exact HB |]].
    + rewrite stmt_sequence_unfold, Es. reflexivity.
    + intros r st' E. rewrite stmt_sequence_unfold, Es in E.
      exact (@seq_loop_extends fuel _ _ _ _ _ _ HB E).
  - intros fuel st Ht. cbv zeta.
    split;
      [| destruct (after_unexpected_facts
                     "statement:: unexpected token -> " st)
           as (F1 & F2 & F3 & F4 & _); auto].
    rewrite stmt_sequence_unfold.
    assert (Es : run (S fuel) PStatement st
                 = Ok None
                     (after_unexpected "statement:: unexpected token -> "
                        st)).
    { change (run (S fuel) PStatement) with (statement (run fuel)).
      unfold statement, bind, gets, after_unexpected.
      destruct Ht as [Ht | Ht]; rewrite Ht; reflexivity. }
    rewrite Es. reflexivity.
Qed.

(** Counterexample to C3 as stated: entered on the lookahead [ELSE],
    [stmt_sequence] does not stop there; it reports a syntax error,
    consumes [ELSE] and goes on to parse "write 1". *)
Lemma stmt_sequence_consumes_ELSE :
  let st := looking_at (tok ELSE "else")
              [tok WRITE "write"; tok NUM "1"; tok END "end"] never_fails in
  seq_breaks (token st) = true /\
  exists r st',
    run 12 PStmtSequence st = Ok r st' /\
    input st' = [] /\ token st' = END /\ diagnostics st' = 1 /\
    tree_at 3 (heap st') r =
      Some (TNode (StmtK WriteK) AttrUnset
              [Some (Const 1); None; None; None] None).
Proof.
  split; [reflexivity |]. eexists _, _.
  split; [vm_compute; reflexivity |].
  vm_compute. repeat split.
Qed.

Lemma stmt_sequence_links_in_order_witness :
  let st := looking_at (tok READ "read")
              [tok ID "x"; tok SEMI ";"; tok WRITE "write"; tok ID "x"]
              never_fails in
  let at_end := looking_at (tok END "end") [] never_fails in
  let at_semi := looking_at (tok SEMI ";") [tok UNTIL "until"] never_fails in
  let at_read := looking_at (tok SEMI ";") [tok READ "read"; tok ID "y"]
                   never_fails in
  let at_junk := looking_at (tok RPAREN ")") [tok END "end"] never_fails in
  let at_until := looking_at (tok UNTIL "until") [tok READ "read"]
                    never_fails in
  (exists r st', run 12 PStmtSequence st = Ok r st' /\
                 seq_breaks (token st') = true /\
                 exists l, chain (heap st') r l /\ NoDup l) /\
  run 2 PStmtSequence at_end = Ok None at_end /\
  run 1 (PStmtSequenceLoop None None) at_end = Ok None at_end /\
  run 1 (PStmtSequenceLoop None None) at_semi
    = Ok None (after_advance at_semi) /\
  (exists st2, builds (Some 0) (Some 0) [0] (linked None None 0 st2)) /\
  (exists st2, run 3 (PStmtSequenceLoop None None) at_junk
               = run 2 (PStmtSequenceLoop None None) st2) /\
  (exists st' l', run 12 PStmtSequence st = Ok (Some 0) st' /\
                  chain (heap st') (Some 0) (0 :: l')) /\
  (exists st1, run 3 PStmtSequence at_until
               = run 2 (PStmtSequenceLoop None None) st1 /\
               diagnostics st1 = 1 /\ token st1 = READ).
Proof.
  intros st at_end at_semi at_read at_junk at_until.
  destruct stmt_sequence_links_in_order
    as (H1 & H2 & H3 & H4 & H5 & H6 & H7 & H8 & H9).
  assert (E : exists r st', run 12 PStmtSequence st = Ok r st')
    by (vm_compute; eauto).
  destruct E as (r & st' & E).
  assert (B0 : builds None None [] at_read)
    by (split; [reflexivity | split; [reflexivity | apply NoDup_nil_2]]).
  assert (B1 : builds None None [] at_junk)
    by (split; [reflexivity | split; [reflexivity | apply NoDup_nil_2]]).
  repeat apply conj.
  - exists r, st'. split; [exact E |]. split; [exact (H1 _ _ _ _ E) |].
    exact (H7 _ _ _ _ E).
  - apply (H2 0 at_end). reflexivity.
  - apply (H3 0 None None at_end). reflexivity.
  - apply (H4 0 None None at_semi); reflexivity.
  - edestruct (H5 4 None None at_read [] 0) as (_ & HB);
      [exact B0 | reflexivity | reflexivity | vm_compute; reflexivity |].
    eexists. exact HB.
  - edestruct (H6 2 None None at_junk []) as (HE & _);
      [exact B1 | reflexivity | reflexivity | vm_compute; reflexivity |].
    eexists. exact HE.
  - assert (Es : exists st1, run 11 PStatement st = Ok (Some 0) st1)
      by (vm_compute; eauto).
    destruct Es as (st1 & Es).
    destruct (H8 11 st (Some 0) st1 Es) as (_ & _ & Hx).
    destruct (Hx r st' E) as (l' & Hc & _).
    pose proof Hc as (Hr & _). subst r.
    exists st', l'. split; [exact E | exact Hc].
  - destruct (H9 1 at_until) as (HE & Hd & _ & Ht & _);
      [right; reflexivity |].
    eexists. split; [exact HE |].
    split; [rewrite Hd; reflexivity | rewrite Ht; reflexivity].
Defined.

(** ** Array dimensions *)

Lemma after_match_heap x st : heap (after_match x st) = heap st.
Proof.
  unfold after_match. destruct (tok_eqb (token st) x);
    [apply after_advance_heap | reflexivity].
Qed.

Lemma after_advance_diagnostics st :
  diagnostics (after_advance st) = diagnostics st /\
  Error (after_advance st) = Error st.
Proof.
  unfold diagnostics, after_advance, scan_next.
  destruct (input st); split; reflexivity.
Qed.

Lemma after_match_hit x st :
  token st = x -> after_match x st = after_advance st.
Proof.
  intros H. unfold after_match. apply tok_eqb_eq in H. rewrite H.
  reflexivity.
Qed.

Lemma after_match_miss x st :
  token st <> x -> after_match x st = after_mismatch x st.
Proof.
  intros H. unfold after_match. apply tok_eqb_neq in H. rewrite H.
  reflexivity.
Qed.

Lemma put_scalars p f st :
  token (put p f st) = token st /\
  tokenString (put p f st) = tokenString st /\
  listing (put p f st) = listing st /\
  Error (put p f st) = Error st /\
  alloc_ok (put p f st) = alloc_ok st /\
  nalloc (put p f st) = nalloc st.
Proof. unfold put. destruct (heap st !! p); repeat split. Qed.

Lemma put_diagnostics p f st : diagnostics (put p f st) = diagnostics st.
Proof.
  unfold diagnostics. destruct (put_scalars p f st) as (_ & _ & -> & _).
  reflexivity.
Qed.

Lemma appended_heap_other lst q st i :
  lst <> Some i -> heap (appended lst q st) !! i = heap st !! i.
Proof.
  intros H. destruct lst as [j |]; [| reflexivity].
  simpl. apply put_other. congruence.
Qed.

Lemma appended_scalars lst q st :
  token (appended lst q st) = token st /\
  diagnostics (appended lst q st) = diagnostics st /\
  Error (appended lst q st) = Error st.
Proof.
  destruct lst as [i |]; [| repeat split]. simpl.
  destruct (put_scalars i (with_sibling (Some q)) st) as (-> & _ & _ & -> & _).
  rewrite put_diagnostics. repeat split.
Qed.

(** Appending a fresh unlinked cell [q] to the chain [l] that ends in
    [lst]. *)
Lemma builds_appended root lst l q nq st :
  builds root lst l st ->
  heap st !! q = Some nq -> sibling nq = None -> ~ In q l ->
  builds (root_after root lst q) (Some q) (l ++ [q]) (appended lst q st).
Proof.
  intros (Hc & Hl & Hnd) Hq Hs Hin.
  destruct lst as [i |]; simpl.
  - destruct (@chain_lookup _ _ _ i Hc) as [ni Hni].
    { apply chain_last_In. symmetry. exact Hl. }
    unfold put. rewrite Hni. simpl.
    split; [| split].
    + eapply chain_snoc; eauto.
    + rewrite last_snoc. reflexivity.
    + apply NoDup_app. split; [exact Hnd |]. split.
      * intros x Hx [= ->]%list_elem_of_singleton.
        apply Hin. apply list_elem_of_In. exact Hx.
      * apply NoDup_singleton.
  - destruct l as [| a l].
    + simpl. split; [| split; [reflexivity | apply NoDup_singleton]].
      split; [reflexivity |]. exists nq. split; [exact Hq | exact Hs].
    + exfalso. clear - Hl. revert a Hl.
      induction l as [| b l IH]; intros a Hl; [discriminate |].
      apply (IH b). exact Hl.
Qed.


Lemma dim_opened_facts st :
  hlen (dim_opened st) = S (hlen st) /\
  heap (dim_opened st) !! hlen st = Some (blank_node (ExpK DimK)) /\
  token (dim_opened st) = scan_kind st /\
  diagnostics (dim_opened st) = diagnostics st /\
  Error (dim_opened st) = Error st /\
  (forall q n, heap st !! q = Some n -> heap (dim_opened st) !! q = Some n).
Proof.
  unfold dim_opened. repeat split.
  - rewrite alloc_state_hlen, after_advance_hlen. reflexivity.
  - rewrite <- (after_advance_hlen st). apply alloc_state_cell.
  - apply (after_advance_diagnostics st).
  - apply (after_advance_diagnostics st).
  - intros q n H. apply alloc_state_old. rewrite after_advance_heap. exact H.
Qed.

Lemma after_advance_alloc st :
  alloc_ok (after_advance st) (nalloc (after_advance st))
  = alloc_ok st (nalloc st).
Proof. unfold after_advance, scan_next. destruct (input st); reflexivity. Qed.




Lemma alloc_node_ok k st :
  alloc_ok st (nalloc st) = true ->
  alloc_node k st = Ok (Some (hlen st)) (alloc_state k st).
Proof. intros H. unfold alloc_node. rewrite H. reflexivity. Qed.

Lemma alloc_state_token k st : token (alloc_state k st) = token st.
Proof. reflexivity. Qed.

Lemma alloc_state_tokenString k st :
  tokenString (alloc_state k st) = tokenString st.
Proof. reflexivity. Qed.


Lemma after_mismatch_token x st : token (after_mismatch x st) = token st.
Proof. reflexivity. Qed.






(** ** A call as a statement and a call as a factor *)

Section Blind.

Variable x : nat.
Variable k : NodeKind.

Lemma retag_hlen st : hlen (retag x k st) = hlen st.
Proof. unfold hlen, retag; simpl. apply length_alter. Qed.

Lemma blind_ret {A} (a : A) : blind_to x k (ret a).
Proof.
  intros st Hx. split; [reflexivity |].
  intros a' st' [= _ <-]. exact Hx.
Qed.

Lemma blind_bind {A B} (m : M A) (f : A -> M B) :
  blind_to x k m -> (forall a, blind_to x k (f a)) ->
  blind_to x k (bind m f).
Proof.
  intros Hm Hf st Hx. destruct (Hm st Hx) as [E Hl].
  unfold bind. rewrite E.
  destruct (m st) as [a st1 | |]; simpl; [| split; [reflexivity | discriminate] ..].
  destruct (Hf a st1 (Hl _ _ eq_refl)) as [E1 Hl1].
  split; [exact E1 | exact Hl1].
Qed.

Lemma blind_state_fun {A} (m : M A) (v : State -> A) (g : State -> State) :
  (forall st, m st = Ok (v st) (g st)) ->
  (forall st, v (retag x k st) = v st) ->
  (forall st, x < hlen st -> g (retag x k st) = retag x k (g st)) ->
  (forall st, hlen st <= hlen (g st)) ->
  blind_to x k m.
Proof.
  intros Hm Hv Hg Hl st Hx. rewrite !Hm. simpl. rewrite Hv, Hg by exact Hx.
  split; [reflexivity |].
  intros a st' [= _ <-]. specialize (Hl st). lia.
Qed.

Lemma blind_gets_token : blind_to x k (gets token).
Proof.
  apply (blind_state_fun (gets token) token (fun st => st)); auto.
Qed.

Lemma blind_gets_tokenString : blind_to x k (gets tokenString).
Proof.
  apply (blind_state_fun (gets tokenString) tokenString (fun st => st)); auto.
Qed.

Lemma retag_after_advance st : after_advance (retag x k st) = retag x k (after_advance st).
Proof.
  unfold after_advance, scan_next, scan_kind, retag.
  destruct (input st) eqn:E; simpl; rewrite E; reflexivity.
Qed.

Lemma blind_advance : blind_to x k advance.
Proof.
  apply (blind_state_fun advance (fun _ => tt) after_advance); auto.
  - intros st _. apply retag_after_advance.
  - intros st. rewrite after_advance_hlen. lia.
Qed.

Lemma blind_syntaxError message : blind_to x k (syntaxError message).
Proof.
  apply (blind_state_fun (syntaxError message) (fun _ => tt)
           (after_syntaxError message)); auto.
Qed.

Lemma blind_printToken tk text : blind_to x k (printToken tk text).
Proof.
  apply (blind_state_fun (printToken tk text) (fun _ => tt)
           (emit (OutToken tk text))); auto.
Qed.

Lemma blind_match expected : blind_to x k (match_ expected).
Proof.
  apply (blind_state_fun (match_ expected) (fun _ => tt)
           (after_match expected)); auto.
  - apply match_eq.
  - intros st _. unfold after_match.
    change (token (retag x k st)) with (token st).
    destruct (tok_eqb (token st) expected);
      [apply retag_after_advance | reflexivity].
  - intros st. unfold after_match.
    destruct (tok_eqb (token st) expected);
      [rewrite after_advance_hlen; lia | unfold hlen; simpl; lia].
Qed.

Lemma alter_app_l {A} (g : A -> A) (l1 l2 : list A) i :
  i < length l1 -> alter g i (l1 ++ l2) = alter g i l1 ++ l2.
Proof.
  revert i. induction l1 as [| a l1 IH]; intros [| i] Hi; simpl in *;
    try lia; try reflexivity.
  f_equal. apply IH. lia.
Qed.

Lemma blind_alloc kind : blind_to x k (alloc_node kind).
Proof.
  intros st Hx. unfold alloc_node.
  change (alloc_ok (retag x k st) (nalloc (retag x k st)))
    with (alloc_ok st (nalloc st)).
  destruct (alloc_ok st (nalloc st)); simpl.
  - split.
    + f_equal.
      * f_equal. apply length_alter.
      * unfold alloc_state, retag, count_alloc, set_heap; simpl.
        f_equal. symmetry. apply alter_app_l. exact Hx.
    + intros a st' [= _ <-]. rewrite alloc_state_hlen. lia.
  - split; [reflexivity |].
    intros a st' [= _ <-]. exact Hx.
Qed.

Lemma alter_insert_ne {A} (g : A -> A) (l : list A) i j v :
  i <> j -> alter g i (<[j := v]> l) = <[j := v]> (alter g i l).
Proof.
  revert i j. induction l as [| a l IH]; intros [| i] [| j] H; simpl;
    try reflexivity; try congruence.
  f_equal. apply IH. congruence.
Qed.

Lemma alter_insert_eq {A} (g : A -> A) (l : list A) i v :
  alter g i (<[i := v]> l) = <[i := g v]> l.
Proof.
  revert i. induction l as [| a l IH]; intros [| i]; simpl;
    try reflexivity.
  f_equal. apply IH.
Qed.

Lemma insert_alter_eq {A} (g : A -> A) (l : list A) i v :
  <[i := v]> (alter g i l) = <[i := v]> l.
Proof.
  revert i. induction l as [| a l IH]; intros [| i]; simpl;
    try reflexivity.
  f_equal. apply IH.
Qed.

(** A store whose update does not touch the kind. *)
Lemma blind_store t (g : TreeNode -> TreeNode) :
  (forall n, g (with_kind k n) = with_kind k (g n)) ->
  blind_to x k (store t g).
Proof.
  intros Hg st Hx. unfold store.
  destruct t as [p |]; [| split; [reflexivity | discriminate]].
  unfold retag at 1. simpl.
  destruct (Nat.eq_dec x p) as [-> | Hne].
  - rewrite list_lookup_alter_eq.
    destruct (heap st !! p) as [n |] eqn:E; simpl;
      [| split; [reflexivity | discriminate]].
    split.
    + f_equal. unfold retag, set_heap; simpl. f_equal.
      rewrite alter_insert_eq, insert_alter_eq, Hg. reflexivity.
    + intros a st' [= _ <-]. unfold hlen; simpl.
      rewrite length_insert. exact Hx.
  - rewrite list_lookup_alter_ne by assumption.
    destruct (heap st !! p) as [n |] eqn:E; simpl;
      [| split; [reflexivity | discriminate]].
    split.
    + f_equal. unfold retag, set_heap; simpl. f_equal.
      symmetry. apply alter_insert_ne. exact Hne.
    + intros a st' [= _ <-]. unfold hlen; simpl.
      rewrite length_insert. exact Hx.
Qed.

Lemma blind_set_child t i v : blind_to x k (set_child t i v).
Proof. apply blind_store. reflexivity. Qed.

Lemma blind_set_sibling t v : blind_to x k (set_sibling t v).
Proof. apply blind_store. reflexivity. Qed.

Lemma blind_set_attr t a : blind_to x k (store t (with_attr a)).
Proof. apply blind_store. reflexivity. Qed.

Lemma blind_get_name t : blind_to x k (get_name t).
Proof.
  intros st Hx. unfold get_name, bind, deref, ret.
  destruct t as [p |]; [| split; [reflexivity | discriminate]].
  unfold retag at 1. simpl.
  destruct (Nat.eq_dec x p) as [-> | Hne].
  - rewrite list_lookup_alter_eq.
    destruct (heap st !! p) as [n |]; simpl;
      [| split; [reflexivity | discriminate]].
    split; [reflexivity |]. intros a st' [= _ <-]. exact Hx.
  - rewrite list_lookup_alter_ne by assumption.
    destruct (heap st !! p) as [n |]; simpl;
      [| split; [reflexivity | discriminate]].
    split; [reflexivity |]. intros a st' [= _ <-]. exact Hx.
Qed.

Lemma blind_out_of_fuel {A} : blind_to x k (fun _ => @OutOfFuel A).
Proof. intros st Hx. split; [reflexivity | discriminate]. Qed.

End Blind.

Ltac blind_step Hcall :=
  lazymatch goal with
  | |- blind_to _ _ (bind _ _) => apply blind_bind; [| intros ?]
  | |- blind_to _ _ (ret _) => apply blind_ret
  | |- blind_to _ _ (gets token) => apply blind_gets_token
  | |- blind_to _ _ (gets tokenString) => apply blind_gets_tokenString
  | |- blind_to _ _ (when ?c _) => unfold when; destruct c
  | |- blind_to _ _ (if ?c then _ else _) => destruct c
  | |- blind_to _ _ (match ?tk with ENDFILE => _ | _ => _ end) =>
      destruct tk
  | |- blind_to _ _ (newStmtNode _) => apply blind_alloc
  | |- blind_to _ _ (newExpNode _) => apply blind_alloc
  | |- blind_to _ _ (match_ _) => apply blind_match
  | |- blind_to _ _ advance => apply blind_advance
  | |- blind_to _ _ (syntaxError _) => apply blind_syntaxError
  | |- blind_to _ _ (printToken _ _) => apply blind_printToken
  | |- blind_to _ _ (set_child _ _ _) => apply blind_set_child
  | |- blind_to _ _ (set_sibling _ _) => apply blind_set_sibling
  | |- blind_to _ _ (set_name _ _) => apply blind_set_attr
  | |- blind_to _ _ (set_val _ _) => apply blind_set_attr
  | |- blind_to _ _ (set_op _ _) => apply blind_set_attr
  | |- blind_to _ _ (store _ (with_attr _)) => apply blind_set_attr
  | |- blind_to _ _ (get_name _) => apply blind_get_name
  | |- blind_to _ _ (_ _) => apply Hcall
  end.

(** No procedure of parse.c looks at the kind of a node. *)
Lemma body_blind x k (call : Prod -> M ptr) :
  (forall c, blind_to x k (call c)) ->
  forall c, blind_to x k (body call c).
Proof.
  intros Hcall c. destruct c; unfold_body; repeat blind_step Hcall.
Qed.

Lemma run_blind x k (fuel : nat) : forall c, blind_to x k (run fuel c).
Proof.
  induction fuel as [| f IH]; intros c.
  - apply blind_out_of_fuel.
  - change (run (S f) c) with (body (run f) c).
    apply body_blind. exact IH.
Qed.

(** The tree below a pointer does not change when a cell that is not
    referred to is retagged. *)
Lemma tree_at_retag x k h (d : nat) :
  (forall q n, h !! q = Some n -> ~ points_to n x) ->
  forall r, r <> Some x ->
  tree_at d (alter (with_kind k) x h) r = tree_at d h r.
Proof.
  intros Hu. induction d as [| d IH]; intros r Hr; [reflexivity |].
  destruct r as [i |]; [| reflexivity]. simpl.
  rewrite list_lookup_alter_ne by congruence.
  destruct (h !! i) as [n |] eqn:E; [| reflexivity].
  pose proof (Hu _ _ E) as Hn.
  f_equal. f_equal.
  - apply map_ext_in. intros c Hc. apply IH.
    intros ->. apply Hn. right. exact Hc.
  - apply IH. intros Hs. apply Hn. left. exact Hs.
Qed.

Lemma insert_app_last {A} (l : list A) (v w : A) :
  <[length l := v]> (l ++ [w]) = l ++ [v].
Proof. induction l as [| a l IH]; simpl; [reflexivity | f_equal; exact IH]. Qed.

Lemma alter_app_last {A} (g : A -> A) (l : list A) (w : A) :
  alter g (length l) (l ++ [w]) = l ++ [g w].
Proof. induction l as [| a l IH]; simpl; [reflexivity | f_equal; exact IH]. Qed.

(** Filling in the cell that was just allocated. *)
Lemma put_fresh f kind st :
  put (hlen st) f (alloc_state kind st)
  = set_heap (heap st ++ [f (blank_node kind)]) (count_alloc st).
Proof.
  unfold put. rewrite alloc_state_cell.
  unfold set_heap, alloc_state, count_alloc, hlen; simpl.
  rewrite insert_app_last. reflexivity.
Qed.

Lemma callee_named_retag st :
  callee_named (ExpK IdK) st
  = retag (hlen st) (ExpK IdK) (callee_named (StmtK AssignK) st).
Proof.
  unfold callee_named. rewrite <- retag_after_advance. f_equal.
  rewrite !put_fresh. unfold retag, set_heap, count_alloc, hlen; simpl.
  rewrite alter_app_last. reflexivity.
Qed.

Lemma callee_named_facts kind st :
  token (callee_named kind st) = scan_kind st /\
  hlen (callee_named kind st) = S (hlen st) /\
  heap (callee_named kind st) !! hlen st
    = Some (with_attr (AttrName (copyString (tokenString st)))
              (blank_node kind)) /\
  (forall q n, heap st !! q = Some n ->
               heap (callee_named kind st) !! q = Some n).
Proof.
  unfold callee_named. rewrite put_fresh, after_advance_heap.
  split; [| split; [| split]].
  - unfold after_advance, scan_next, scan_kind; simpl.
    destruct (input st); reflexivity.
  - rewrite after_advance_hlen. unfold hlen; simpl.
    rewrite length_app; simpl. lia.
  - simpl. apply list_lookup_middle. reflexivity.
  - intros q n H. simpl. rewrite lookup_app_l; [exact H |].
    eapply lookup_lt_Some; exact H.
Qed.

(** The lines of [assign_stmt] and of [factor] before the branch on the
    token after the identifier. *)
Lemma name_and_consume (kind : NodeKind) (k : ptr -> M ptr) st :
  token st = ID ->
  alloc_ok st (nalloc st) = true ->
  (t <- alloc_node kind ;;
   tk <- gets token ;;
   when (nonnull t && tok_eqb tk ID)
     (ts <- gets tokenString ;; set_name t (copyString ts)) ;;
   match_ ID ;;
   k t)%parser st
  = k (Some (hlen st)) (callee_named kind st).
Proof.
  intros Ht Hok.
  unfold bind at 1. rewrite alloc_node_ok by exact Hok.
  unfold bind at 1. unfold gets at 1.
  rewrite alloc_state_token, Ht. change (tok_eqb ID ID) with true.
  cbn [nonnull andb]. unfold when.
  unfold bind at 1. unfold bind at 1. unfold gets at 1.
  rewrite alloc_state_tokenString.
  unfold set_name. erewrite store_put by apply alloc_state_cell.
  unfold bind at 1. rewrite match_eq.
  rewrite after_match_hit
    by (rewrite put_token, alloc_state_token; exact Ht).
  reflexivity.
Qed.

Lemma name_and_fail (kind : NodeKind) (k : ptr -> M ptr) st :
  token st = ID ->
  alloc_ok st (nalloc st) = false ->
  (t <- alloc_node kind ;;
   tk <- gets token ;;
   when (nonnull t && tok_eqb tk ID)
     (ts <- gets tokenString ;; set_name t (copyString ts)) ;;
   match_ ID ;;
   k t)%parser st
  = k None (after_advance (count_alloc st)).
Proof.
  intros Ht Hok.
  unfold bind at 1. unfold alloc_node. rewrite Hok.
  unfold bind at 1. unfold gets at 1.
  cbn [nonnull andb]. unfold when.
  unfold bind at 1. unfold ret at 1.
  unfold bind at 1. rewrite match_eq.
  rewrite after_match_hit by exact Ht.
  reflexivity.
Qed.

Lemma get_name_named kind st :
  get_name (Some (hlen st)) (callee_named kind st)
  = Ok (Some (copyString (tokenString st))) (callee_named kind st).
Proof.
  unfold get_name, bind, deref.
  destruct (callee_named_facts kind st) as (_ & _ & -> & _).
  reflexivity.
Qed.

(** A statement that starts with [name (] enters [call_stmt] ... *)
Lemma assign_stmt_enters_call (f : nat) st :
  token st = ID -> scan_kind st = LPAREN ->
  run (S f) PAssignStmt st =
  if alloc_ok st (nalloc st)
  then run f (PCallStmt (Some (copyString (tokenString st))))
           (callee_named (StmtK AssignK) st)
  else Crash.
Proof.
  intros Ht Hn.
  change (run (S f) PAssignStmt) with (assign_stmt (run f)).
  unfold assign_stmt, newStmtNode.
  destruct (alloc_ok st (nalloc st)) eqn:Hok.
  - rewrite name_and_consume by assumption.
    unfold bind at 1. unfold gets at 1.
    destruct (callee_named_facts (StmtK AssignK) st) as (-> & _).
    rewrite Hn.
    change (tok_eqb LPAREN LMBRACKET) with false.
    change (tok_eqb LPAREN ASSIGN) with false.
    change (tok_eqb LPAREN LPAREN) with true. cbv iota.
    unfold bind at 1. rewrite get_name_named. reflexivity.
  - rewrite name_and_fail by assumption.
    unfold bind at 1. unfold gets at 1.
    replace (token (after_advance (count_alloc st))) with LPAREN
      by (symmetry; exact Hn).
    reflexivity.
Qed.

(** ... and so does a factor that starts with [name (]. *)
Lemma factor_enters_call (f : nat) st :
  token st = ID -> scan_kind st = LPAREN ->
  run (S f) PFactor st =
  if alloc_ok st (nalloc st)
  then run f (PCallStmt (Some (copyString (tokenString st))))
           (callee_named (ExpK IdK) st)
  else Crash.
Proof.
  intros Ht Hn.
  change (run (S f) PFactor) with (factor (run f)).
  unfold factor, newExpNode.
  unfold bind at 1. unfold gets at 1. rewrite Ht.
  destruct (alloc_ok st (nalloc st)) eqn:Hok.
  - rewrite name_and_consume by assumption.
    unfold bind at 1. unfold gets at 1.
    destruct (callee_named_facts (ExpK IdK) st) as (-> & _).
    rewrite Hn.
    change (tok_eqb LPAREN LMBRACKET) with false.
    change (tok_eqb LPAREN LPAREN) with true. cbv iota.
    unfold bind at 1. rewrite get_name_named. reflexivity.
  - rewrite name_and_fail by assumption.
    unfold bind at 1. unfold gets at 1.
    replace (token (after_advance (count_alloc st))) with LPAREN
      by (symmetry; exact Hn).
    reflexivity.
Qed.

Lemma callee_named_unreferenced kind st :
  unreferenced (hlen st) st -> unreferenced (hlen st) (callee_named kind st).
Proof.
  intros Hu q n Hq.
  unfold callee_named in Hq.
  rewrite put_fresh, after_advance_heap in Hq. simpl in Hq.
  apply lookup_app_Some in Hq as [Hq | [_ Hq]].
  - exact (Hu q n Hq).
  - destruct (q - length (heap st)) as [| j]; [| discriminate].
    injection Hq as <-. unfold points_to; simpl.
    intros [H | H]; [discriminate |].
    repeat (destruct H as [H | H]; [discriminate |]). exact H.
Qed.

(** What [call_stmt] does after either entry: the same, up to the kind
    of the node the caller had allocated for the identifier. *)
Lemma call_after_either_entry (f : nat) name st :
  unreferenced (hlen st) st ->
  same_call (hlen st)
    (run f (PCallStmt name) (callee_named (StmtK AssignK) st))
    (run f (PCallStmt name) (callee_named (ExpK IdK) st)).
Proof.
  intros Hu.
  destruct (callee_named_facts (StmtK AssignK) st) as (_ & Hlen & _ & _).
  rewrite callee_named_retag.
  remember (callee_named (StmtK AssignK) st) as stA eqn:EA.
  assert (Hlt : hlen st < hlen stA) by lia.
  destruct (@run_blind (hlen st) (ExpK IdK) f (PCallStmt name) stA Hlt)
    as [-> _].
  destruct (run f (PCallStmt name) stA) as [r s1 | |] eqn:E;
    simpl; [| exact I | exact I].
  assert (HP : Post (PCallStmt name) stA r s1).
  { eapply wlp_elim; [| exact E]. apply run_post. constructor. }
  destruct HP as (Hsteps & Hokv & _).
  assert (Hu1 : unreferenced (hlen st) s1).
  { eapply Steps_unreferenced; [exact Hsteps | simpl; lia | simpl; tauto |].
    subst stA. apply callee_named_unreferenced. exact Hu. }
  assert (Hr : r <> Some (hlen st)).
  { intros ->. destruct Hokv as [H | []]. simpl in H. lia. }
  split; [reflexivity |].
  split; [intros d; symmetry; apply tree_at_retag; assumption |].
  repeat (split; [reflexivity |]).
  intros q Hq. symmetry. apply list_lookup_alter_ne. congruence.
Qed.

(** C8. A call written as a statement ([assign_stmt] on [name (]) and a
    call written inside an expression ([factor] on [name (]) give the
    same [Call] node: started in the same state, the two procedures
    return the same pointer with the same tree below it, leave the same
    scanner state and diagnostics, and differ in the heap only in the
    cell each had allocated for the identifier before it saw the
    parenthesis, which the result does not refer to.  The node returned
    is a [Call] statement node named after the identifier.  With enough
    fuel and no failing allocation both procedures return.  The inputs
    "f(1,2)" and "write f(1,2)" both give the [Call] node for [f] with
    the two constants chained below child 0. *)
Theorem call_same_as_statement_and_factor (fuel : nat) st :
  token st = ID -> scan_kind st = LPAREN ->
  unreferenced (hlen st) st ->
  same_call (hlen st) (run fuel PAssignStmt st) (run fuel PFactor st) /\
  (forall r s1, run fuel PAssignStmt st = Ok r s1 ->
     returns_call (Some (copyString (tokenString st))) st r s1) /\
  (forall r s2, run fuel PFactor st = Ok r s2 ->
     returns_call (Some (copyString (tokenString st))) st r s2) /\
  (always_ok st -> fuel_needed PAssignStmt st < fuel ->
   exists r s1 s2, run fuel PAssignStmt st = Ok r s1 /\
                   run fuel PFactor st = Ok r s2) /\
  run (S fuel) PStatement st = run fuel PAssignStmt st /\
  outcome (parse 30 (initial [tok ID "f"; tok LPAREN "("; tok NUM "1";
                              tok COMMA ","; tok NUM "2"; tok RPAREN ")"]
                       never_fails))
  = Some (Some (Call "f" (Some (followed_by (Const 1) (Const 2)))),
          ENDFILE, false, 0) /\
  outcome (parse 30 (initial [tok WRITE "write"; tok ID "f";
                              tok LPAREN "("; tok NUM "1"; tok COMMA ",";
                              tok NUM "2"; tok RPAREN ")"] never_fails))
  = Some (Some (TNode (StmtK WriteK) AttrUnset
                  [Some (Call "f" (Some (followed_by (Const 1) (Const 2))));
                   None; None; None] None),
          ENDFILE, false, 0).
Proof.
  intros Ht Hn Hu.
  assert (Hsame : same_call (hlen st)
                    (run fuel PAssignStmt st) (run fuel PFactor st)).
  { destruct fuel as [| f]; [exact I |].
    rewrite assign_stmt_enters_call, factor_enters_call by assumption.
    destruct (alloc_ok st (nalloc st)); [| exact I].
    apply call_after_either_entry. exact Hu. }
  assert (Hcall : forall r s1, run fuel PAssignStmt st = Ok r s1 ->
            returns_call (Some (copyString (tokenString st))) st r s1).
  { intros r s1 E. destruct fuel as [| f]; [discriminate |].
    rewrite assign_stmt_enters_call in E by assumption.
    destruct (alloc_ok st (nalloc st)); [| discriminate].
    assert (H : returns_call (Some (copyString (tokenString st)))
                  (callee_named (StmtK AssignK) st) r s1)
      by (eapply wlp_elim; [apply call_stmt_returns_call | exact E]).
    destruct (callee_named_facts (StmtK AssignK) st) as (_ & Hlen & _ & _).
    intros q Eq. destruct (H q Eq) as [Hq Hc]. split; [lia | exact Hc]. }
  split; [exact Hsame |]. split; [exact Hcall |].
  split; [| split; [| split; [| split]]].
  - intros r s2 E. rewrite E in Hsame.
    destruct (run fuel PAssignStmt st) as [r1 s1 | |] eqn:E1;
      simpl in Hsame; try contradiction.
    destruct Hsame as (-> & _ & _ & _ & _ & _ & _ & Hheap).
    intros q Eq. destruct (Hcall r s1 eq_refl q Eq) as [Hq (n & Hn1 & Hc)].
    split; [exact Hq |]. exists n. split; [| exact Hc].
    rewrite <- Hheap; [exact Hn1 |].
    intros ->. subst r.
    destruct fuel as [| f]; [discriminate |].
    rewrite assign_stmt_enters_call in E1 by assumption.
    destruct (alloc_ok st (nalloc st)); [| discriminate].
    assert (H : returns_call (Some (copyString (tokenString st)))
                  (callee_named (StmtK AssignK) st) (Some (hlen st)) s1)
      by (eapply wlp_elim; [apply call_stmt_returns_call | exact E1]).
    destruct (H _ eq_refl) as [Hge _].
    destruct (callee_named_facts (StmtK AssignK) st) as (_ & Hlen & _ & _).
    lia.
  - intros Hok Hf.
    destruct (@run_returns fuel PAssignStmt st Hok) as (r & s1 & E & _);
      [split; [exact I | constructor] | exact Hf |].
    rewrite E in Hsame.
    destruct (run fuel PFactor st) as [r2 s2 | |]; simpl in Hsame;
      try contradiction.
    destruct Hsame as (<- & _). exists r, s1, s2.
    split; [exact E | reflexivity].
  - change (run (S fuel) PStatement) with (statement (run fuel)).
    unfold statement, bind, gets. rewrite Ht. reflexivity.
  - vm_compute. reflexivity.
  - vm_compute. reflexivity.
Qed.

Lemma call_same_as_statement_and_factor_witness :
  let st := looking_at (tok ID "f")
              [tok LPAREN "("; tok NUM "1"; tok COMMA ","; tok NUM "2";
               tok RPAREN ")"] never_fails in
  same_call 0 (run 120 PAssignStmt st) (run 120 PFactor st) /\
  exists r s1 s2, run 120 PAssignStmt st = Ok r s1 /\
                  run 120 PFactor st = Ok r s2.
Proof.
  intros st.
  destruct (@call_same_as_statement_and_factor 120 st)
    as (H1 & _ & _ & H4 & _).
  - reflexivity.
  - reflexivity.
  - intros q n H. destruct q; discriminate H.
  - split; [exact H1 |]. apply H4.
    + intros n. reflexivity.
    + unfold fuel_needed, togo. simpl. lia.
Defined.

(** ** What every procedure leaves alone *)

(** Between entry and return the scanner has either not been asked for
    a token, or has handed out at least one. *)
Lemma Steps_reads (ctx : Owner) st st' :
  Steps ctx st st' ->
  (input st' = input st /\ token st' = token st) \/
  length (input st') < length (input st) \/
  (input st = [] /\ input st' = [] /\ token st' = ENDFILE).
Proof.
  induction 1 as [| st1 st2 _ IH HP]; [left; split; reflexivity |].
  assert (HA : forall s,
             (input (after_advance s) = tail (input s)) /\
             (input s = [] -> token (after_advance s) = ENDFILE)).
  { intros s. unfold after_advance, scan_next, scan_kind.
    destruct (input s); simpl; split; congruence. }
  destruct HP as [s | o s | s | k s | s | p m w s Hp Hw];
    try exact IH.
  destruct (HA s) as [Hi He]. rewrite Hi.
  destruct (input s) as [| tk rest] eqn:E; simpl.
  - specialize (He eq_refl).
    destruct IH as [[Hin _] | [Hlt | (H0 & _ & _)]].
    + right. right. split; [congruence |]. split; [reflexivity | exact He].
    + right. left. simpl in Hlt. lia.
    + right. right. split; [exact H0 |]. split; [reflexivity | exact He].
  - right. left.
    destruct IH as [[Hin _] | [Hlt | (_ & H0 & _)]].
    + rewrite <- Hin. simpl. lia.
    + simpl in Hlt. lia.
    + discriminate.
Qed.

Lemma Steps_suffix (ctx : Owner) st st' :
  Steps ctx st st' -> exists k, input st' = drop k (input st).
Proof.
  induction 1 as [| st1 st2 _ IH HP]; [exists 0; reflexivity |].
  destruct IH as (k & Hk).
  destruct HP as [s | o s | s | k0 s | s | p m w s Hp Hw];
    try (exists k; exact Hk).
  exists (S k). unfold after_advance, scan_next.
  destruct (input s) as [| tk rest] eqn:E; simpl.
  - symmetry in Hk. apply drop_nil_inv in Hk as Hk'.
    symmetry. apply drop_ge. lia.
  - replace (S k) with (k + 1) by lia.
    rewrite <- (drop_drop (input st) 1 k), <- Hk. reflexivity.
Qed.

(** X1. No procedure touches what was built before it was entered: a
    node that exists at entry still exists at return, with the same
    kind and the same attribute; its sibling link and its child slots
    are the same too, unless the node is the one a loop was handed in
    order to link behind it or to fill.  A procedure that is handed no
    node leaves every existing node exactly as it was. *)
Theorem run_keeps_nodes (fuel : nat) c st r st' q n :
  args_valid c st ->
  run fuel c st = Ok r st' ->
  heap st !! q = Some n ->
  exists n', heap st' !! q = Some n' /\
    nodekind n' = nodekind n /\ attr n' = attr n /\
    (sib_arg c <> Some q -> sibling n' = sibling n) /\
    (child_arg c <> Some q -> child n' = child n) /\
    (sib_arg c = None -> child_arg c = None -> n' = n).
Proof.
  intros Hargs E Hn.
  assert (HP : Post c st r st')
    by (eapply wlp_elim; [apply run_post; exact Hargs | exact E]).
  destruct HP as (HS & _).
  assert (Hq : q < base (ctx_of c st))
    by (simpl; eapply lookup_lt_Some; exact Hn).
  destruct (Steps_frame HS Hq Hn) as (n' & Hn' & K & A & S & C).
  simpl in A, S, C.
  exists n'. split; [exact Hn' |]. split; [exact K |].
  assert (Ha : attr n' = attr n) by (apply A; discriminate).
  split; [exact Ha |]. split; [exact S |]. split; [exact C |].
  intros Hs Hc. apply node_eq; auto.
  - apply S. rewrite Hs. discriminate.
  - apply C. rewrite Hc. discriminate.
Qed.

Lemma run_keeps_nodes_witness :
  let one := with_attr (AttrVal 1) (blank_node (ExpK ConstK)) in
  let st := mkState NUM "2" 1 [tok TIMES "*"; tok NUM "3"] [one] false []
              never_fails 1 in
  exists r st', run 6 PTerm st = Ok r st' /\ heap st' !! 0 = Some one.
Proof.
  intros one st.
  assert (E : exists r st', run 6 PTerm st = Ok r st')
    by (vm_compute; eauto).
  destruct E as (r & st' & E).
  exists r, st'. split; [exact E |].
  destruct (@run_keeps_nodes 6 PTerm st r st' 0 one)
    as (n' & Hn' & _ & _ & _ & _ & Heq);
    [constructor | exact E | reflexivity |].
  rewrite Hn'. f_equal. apply Heq; reflexivity.
Defined.

(** X2. What a procedure hands back: NULL, or a pointer into the heap,
    to a node it allocated itself or to one of the nodes it was handed
    (only loops are handed nodes).  The heap never shrinks. *)
Theorem run_returns_own_node (fuel : nat) c st r st' :
  args_valid c st ->
  run fuel c st = Ok r st' ->
  hlen st <= hlen st' /\
  forall q, r = Some q ->
    q < hlen st' /\ (hlen st <= q \/ In r (ptr_args c)).
Proof.
  intros Hargs E.
  assert (HP : Post c st r st')
    by (eapply wlp_elim; [apply run_post; exact Hargs | exact E]).
  destruct HP as (HS & Hokv & Hlt & _).
  split; [exact (Steps_hlen HS) |].
  intros q ->. simpl in Hlt. split; [exact Hlt |].
  destruct Hokv as [Hge | Hin]; [left; exact Hge | right; exact Hin].
Qed.

Lemma run_returns_own_node_witness :
  let st := mkState NUM "2" 1 [tok TIMES "*"; tok NUM "3"]
              [blank_node (ExpK ConstK)] false [] never_fails 1 in
  exists q st', run 6 PTerm st = Ok (Some q) st' /\ 1 <= q < hlen st'.
Proof.
  intros st.
  assert (E : exists q st', run 6 PTerm st = Ok (Some q) st')
    by (vm_compute; eauto).
  destruct E as (q & st' & E).
  exists q, st'. split; [exact E |].
  destruct (@run_returns_own_node 6 PTerm st (Some q) st') as (_ & H);
    [constructor | exact E |].
  destruct (H q eq_refl) as (Hlt & [Hge | []]).
  split; [exact Hge | exact Hlt].
Defined.

(** X3. The parser only reads forward: what is left of the input at
    return is a suffix of what was left at entry.  [statement] entered
    on a lookahead other than [END] and [ENDFILE], and each statement
    form entered on its keyword, has consumed at least one token when
    it returns (past the end of the input, the lookahead has become
    [ENDFILE]). *)
Theorem run_reads_forward (fuel : nat) c st r st' :
  args_valid c st ->
  run fuel c st = Ok r st' ->
  (exists k, input st' = drop k (input st)) /\
  (consumes c st ->
   length (input st') < length (input st) \/
   (input st = [] /\ token st <> ENDFILE /\ token st' = ENDFILE)).
Proof.
  intros Hargs E.
  assert (HP : Post c st r st')
    by (eapply wlp_elim; [apply run_post; exact Hargs | exact E]).
  destruct HP as (HS & _ & _ & Hc).
  split; [exact (Steps_suffix HS) |].
  intros Hcons. specialize (Hc Hcons). unfold togo in Hc.
  destruct (Steps_reads HS) as [[Hi Ht] | [Hlt | (H0 & H1 & Ht)]].
  - rewrite Hi, Ht in Hc. lia.
  - left. exact Hlt.
  - right. split; [exact H0 |]. split; [| exact Ht].
    intros Hst. rewrite H0, H1, Ht, Hst in Hc. simpl in Hc. lia.
Qed.

Lemma run_reads_forward_witness :
  let st := looking_at (tok RPAREN ")") [tok READ "read"; tok ID "x"]
              never_fails in
  exists r st', run 4 PStatement st = Ok r st' /\
                length (input st') < 2.
Proof.
  intros st.
  assert (E : exists r st', run 4 PStatement st = Ok r st')
    by (vm_compute; eauto).
  destruct E as (r & st' & E).
  exists r, st'. split; [exact E |].
  destruct (@run_reads_forward 4 PStatement st r st') as (_ & H);
    [constructor | exact E |].
  destruct (H eq_refl) as [Hlt | (H0 & _)]; [exact Hlt | discriminate H0].
Defined.

(** ** State properties kept by every procedure *)

Section Keeps.

Variable I : State -> Prop.

Hypothesis I_advance : forall st, I st -> I (after_advance st).
Hypothesis I_syntaxError :
  forall message st, I st -> I (after_syntaxError message st).
Hypothesis I_token : forall tk text st, I st -> I (emit (OutToken tk text) st).
Hypothesis I_text : forall text st, I st -> I (emit (OutText text) st).
Hypothesis I_alloc : forall k st, I st -> I (alloc_state k st).
Hypothesis I_alloc_fail : forall st, I st -> I (count_alloc st).
Hypothesis I_heap : forall h st, I st -> I (set_heap h st).

Lemma keeps_ret {A} (a : A) : keeps I (ret a).
Proof. intros st H. exact H. Qed.

Lemma keeps_gets {A} (f : State -> A) : keeps I (gets f).
Proof. intros st H. exact H. Qed.

Lemma keeps_bind {A B} (m : M A) (k : A -> M B) :
  keeps I m -> (forall a, keeps I (k a)) -> keeps I (bind m k).
Proof.
  intros Hm Hk st H. apply wlp_bind.
  eapply wlp_conseq; [apply Hm; exact H |].
  intros a st1 H1. apply Hk. exact H1.
Qed.

Lemma keeps_advance : keeps I advance.
Proof. intros st H. unfold wlp. rewrite advance_eq. auto. Qed.

Lemma keeps_syntaxError message : keeps I (syntaxError message).
Proof. intros st H. unfold wlp. rewrite syntaxError_eq. auto. Qed.

Lemma keeps_printToken tk text : keeps I (printToken tk text).
Proof. intros st H. apply I_token. exact H. Qed.

Lemma keeps_match expected : keeps I (match_ expected).
Proof.
  intros st H. unfold wlp. rewrite match_eq. unfold after_match.
  destruct (tok_eqb (token st) expected); [auto |].
  unfold after_mismatch. auto 10.
Qed.

Lemma keeps_alloc k : keeps I (alloc_node k).
Proof.
  intros st H. unfold wlp, alloc_node.
  destruct (alloc_ok st (nalloc st)); auto.
Qed.

Lemma keeps_store t f : keeps I (store t f).
Proof.
  intros st H. unfold wlp, store.
  destruct t as [p |]; [| exact Logic.I].
  destruct (heap st !! p); [| exact Logic.I]. auto.
Qed.

Lemma keeps_get_name t : keeps I (get_name t).
Proof.
  intros st H. unfold wlp, get_name, bind, deref, ret.
  destruct t as [p |]; [| exact Logic.I].
  destruct (heap st !! p); [exact H | exact Logic.I].
Qed.

Lemma keeps_out_of_fuel {A} : keeps I (fun _ => @OutOfFuel A).
Proof. intros st H. exact Logic.I. Qed.

End Keeps.

Ltac keeps_step Hcall :=
  lazymatch goal with
  | |- keeps _ (bind _ _) => apply keeps_bind; [| intros ?]
  | |- keeps _ (ret _) => apply keeps_ret
  | |- keeps _ (gets _) => apply keeps_gets
  | |- keeps _ (when ?c _) => unfold when; destruct c
  | |- keeps _ (if ?c then _ else _) => destruct c
  | |- keeps _ (match ?tk with ENDFILE => _ | _ => _ end) => destruct tk
  | |- keeps _ (newStmtNode _) => apply keeps_alloc; assumption
  | |- keeps _ (newExpNode _) => apply keeps_alloc; assumption
  | |- keeps _ (match_ _) => apply keeps_match; assumption
  | |- keeps _ advance => apply keeps_advance; assumption
  | |- keeps _ (syntaxError _) => apply keeps_syntaxError; assumption
  | |- keeps _ (printToken _ _) => apply keeps_printToken; assumption
  | |- keeps _ (set_child _ _ _) => apply keeps_store; assumption
  | |- keeps _ (set_sibling _ _) => apply keeps_store; assumption
  | |- keeps _ (set_name _ _) => apply keeps_store; assumption
  | |- keeps _ (set_val _ _) => apply keeps_store; assumption
  | |- keeps _ (set_op _ _) => apply keeps_store; assumption
  | |- keeps _ (store _ _) => apply keeps_store; assumption
  | |- keeps _ (get_name _) => apply keeps_get_name
  | |- keeps _ (_ _) => apply Hcall
  end.

(** A property of the state that survives reading a token, reporting a
    syntax error, printing, allocating and storing survives every
    procedure of parse.c. *)
Lemma run_keeps (I : State -> Prop) :
  (forall st, I st -> I (after_advance st)) ->
  (forall message st, I st -> I (after_syntaxError message st)) ->
  (forall tk text st, I st -> I (emit (OutToken tk text) st)) ->
  (forall text st, I st -> I (emit (OutText text) st)) ->
  (forall k st, I st -> I (alloc_state k st)) ->
  (forall st, I st -> I (count_alloc st)) ->
  (forall h st, I st -> I (set_heap h st)) ->
  forall fuel c, keeps I (run fuel c).
Proof.
  intros H1 H2 H3 H4 H5 H6 H7 fuel.
  induction fuel as [| f IH]; intros c.
  - apply keeps_out_of_fuel.
  - change (run (S f) c) with (body (run f) c).
    destruct c; unfold_body; repeat keeps_step IH.
Qed.

Lemma parse_keeps (I : State -> Prop) :
  (forall st, I st -> I (after_advance st)) ->
  (forall message st, I st -> I (after_syntaxError message st)) ->
  (forall tk text st, I st -> I (emit (OutToken tk text) st)) ->
  (forall text st, I st -> I (emit (OutText text) st)) ->
  (forall k st, I st -> I (alloc_state k st)) ->
  (forall st, I st -> I (count_alloc st)) ->
  (forall h st, I st -> I (set_heap h st)) ->
  forall fuel, keeps I (parse fuel).
Proof.
  intros H1 H2 H3 H4 H5 H6 H7 fuel. unfold parse.
  pose proof (@run_keeps I H1 H2 H3 H4 H5 H6 H7 fuel) as IH.
  repeat keeps_step IH.
Qed.

Lemma flag_matches_listing_kept fuel c : keeps flag_matches_listing (run fuel c).
Proof.
  apply run_keeps; unfold flag_matches_listing.
  - intros st H. unfold after_advance, scan_next, diagnostics in *.
    destruct (input st); exact H.
  - intros message st _. rewrite diagnostics_after_syntaxError.
    split; [lia | reflexivity].
  - intros tk text st H. rewrite diagnostics_emit. simpl.
    rewrite Nat.add_0_r. exact H.
  - intros text st H. rewrite diagnostics_emit. simpl.
    rewrite Nat.add_0_r. exact H.
  - intros k st H. exact H.
  - intros st H. exact H.
  - intros h st H. exact H.
Qed.

(** X4. The failure flag and the listing agree: if the flag is set
    exactly when a syntax error has been reported when a procedure is
    entered, the same holds when it returns; and after [parse] the flag
    is set if and only if at least one syntax error was reported. *)
Theorem flag_set_iff_reported :
  (forall fuel c st r st',
     flag_matches_listing st -> run fuel c st = Ok r st' ->
     flag_matches_listing st') /\
  (forall fuel toks oracle r st',
     parse fuel (initial toks oracle) = Ok r st' ->
     (Error st' = true <-> 0 < diagnostics st')).
Proof.
  split.
  - intros fuel c st r st' H E.
    exact (@wlp_elim _ _ _ _ _ _ (flag_matches_listing_kept fuel c H) E).
  - intros fuel toks oracle r st' E.
    assert (K : keeps flag_matches_listing (parse fuel)).
    { apply parse_keeps; unfold flag_matches_listing.
      - intros st H. unfold after_advance, scan_next, diagnostics in *.
        destruct (input st); exact H.
      - intros message st _. rewrite diagnostics_after_syntaxError.
        split; [lia | reflexivity].
      - intros tk text st H. rewrite diagnostics_emit. simpl.
        rewrite Nat.add_0_r. exact H.
      - intros text st H. rewrite diagnostics_emit. simpl.
        rewrite Nat.add_0_r. exact H.
      - intros k st H. exact H.
      - intros st H. exact H.
      - intros h st H. exact H. }
    assert (H0 : flag_matches_listing (initial toks oracle)).
    { unfold flag_matches_listing, diagnostics; simpl.
      split; [discriminate | lia]. }
    exact (@wlp_elim _ _ _ _ _ _ (K _ H0) E).
Qed.

Lemma flag_set_iff_reported_witness :
  let toks := [tok WRITE "write"; tok ID "x"; tok THEN "then"] in
  exists r st', parse 20 (initial toks never_fails) = Ok r st' /\
                Error st' = true /\ 0 < diagnostics st'.
Proof.
  intros toks.
  assert (E : exists r st', parse 20 (initial toks never_fails) = Ok r st')
    by (vm_compute; eauto).
  destruct E as (r & st' & E).
  exists r, st'. split; [exact E |].
  destruct flag_set_iff_reported as [_ H].
  specialize (H 20 toks never_fails r st' E).
  assert (D : 0 < diagnostics st').
  { vm_compute in E. injection E as _ <-. vm_compute. lia. }
  split; [apply H; exact D | exact D].
Defined.

(** X5. Nothing is taken back: whatever a procedure does, the listing
    at its return starts with the listing at its entry, and a failure
    flag that was set stays set. *)
Theorem run_never_retracts (fuel : nat) c st r st' :
  run fuel c st = Ok r st' -> continues_listing st st'.
Proof.
  intros E.
  assert (K : keeps (continues_listing st) (run fuel c)).
  { assert (HE : forall o s, continues_listing st s ->
                             continues_listing st (emit o s)).
    { intros o s [(l & Hl) He]. split; [| exact He].
      exists (l ++ [o]). simpl. rewrite Hl, <- app_assoc. reflexivity. }
    apply run_keeps.
    - intros s H. unfold continues_listing, after_advance, scan_next in *.
      destruct (input s); exact H.
    - intros message s H. unfold after_syntaxError.
      destruct (HE (OutSyntaxError (lineno s) message) _
                  (HE (OutText (newline ++ ">>> ")%string) _ H))
        as [Hl _].
      split; [exact Hl | reflexivity].
    - intros tk text s H. apply HE. exact H.
    - intros text s H. apply HE. exact H.
    - intros k s H. exact H.
    - intros s H. exact H.
    - intros h s H. exact H. }
  assert (H0 : continues_listing st st).
  { split; [exists []; symmetry; apply app_nil_r | auto]. }
  exact (@wlp_elim _ _ _ _ _ _ (K _ H0) E).
Qed.

Lemma run_never_retracts_witness :
  let st := mkState RPAREN ")" 3 [tok READ "read"]
              [] true [OutSyntaxError 2 "earlier"] never_fails 0 in
  exists r st', run 4 PStatement st = Ok r st' /\
                Error st' = true /\
                exists l, listing st' = OutSyntaxError 2 "earlier" :: l.
Proof.
  intros st.
  assert (E : exists r st', run 4 PStatement st = Ok r st')
    by (vm_compute; eauto).
  destruct E as (r & st' & E).
  exists r, st'. split; [exact E |].
  destruct (run_never_retracts _ _ _ E) as [(l & Hl) He].
  split; [apply He; reflexivity |]. exists l. exact Hl.
Defined.

(** ** The driver *)

Lemma parse_unfold (fuel : nat) st :
  parse fuel st =
  match run fuel PStmtSequence (after_advance st) with
  | Ok t st1 =>
      if tok_eqb (token st1) ENDFILE then Ok t st1
      else Ok t (after_syntaxError ("Code ends before file" ++ newline) st1)
  | Crash => Crash
  | OutOfFuel => OutOfFuel
  end.
Proof.
  unfold parse. unfold bind at 1. rewrite advance_eq.
  unfold bind at 1.
  destruct (run fuel PStmtSequence (after_advance st)) as [t st1 | |];
    [| reflexivity ..].
  unfold bind, gets, when, ret.
  destruct (tok_eqb (token st1) ENDFILE); reflexivity.
Qed.

Lemma stmt_sequence_ends_on_terminator (fuel : nat) st r st' :
  run fuel PStmtSequence st = Ok r st' -> seq_breaks (token st') = true.
Proof.
  destruct fuel as [| f]; [discriminate |].
  rewrite stmt_sequence_unfold.
  destruct (run f PStatement st) as [t st1 | |]; try discriminate.
  apply seq_loop_ends_on_terminator.
Qed.

(** X6. [parse] reads the first token, parses one statement sequence
    and stops where that stops: on end-of-file, or on a stray [end],
    [else] or [until].  In the first case it adds nothing; in the
    second it reports "Code ends before file" and sets the failure
    flag, and what follows the stray token is not parsed.  So a parse
    that leaves the failure flag clear has reached end-of-file. *)
Theorem parse_ends_before_file (fuel : nat) toks oracle r st' :
  parse fuel (initial toks oracle) = Ok r st' ->
  exists st1,
    run fuel PStmtSequence (after_advance (initial toks oracle)) = Ok r st1 /\
    seq_breaks (token st') = true /\
    (token st' = ENDFILE -> st' = st1) /\
    (token st' <> ENDFILE ->
     st' = after_syntaxError ("Code ends before file" ++ newline) st1 /\
     input st' = input st1 /\ Error st' = true) /\
    (Error st' = false -> token st' = ENDFILE).
Proof.
  intros E. rewrite parse_unfold in E.
  destruct (run fuel PStmtSequence (after_advance (initial toks oracle)))
    as [t st1 | |] eqn:E1; try discriminate.
  pose proof (stmt_sequence_ends_on_terminator _ _ E1) as Hb.
  exists st1.
  destruct (tok_eqb (token st1) ENDFILE) eqn:Ht; injection E as -> <-.
  - apply tok_eqb_eq in Ht.
    split; [reflexivity |]. split; [exact Hb |].
    split; [reflexivity |]. split; [congruence |]. intros _. exact Ht.
  - apply tok_eqb_neq in Ht.
    split; [reflexivity |]. split; [exact Hb |].
    split; [intros H; contradiction |].
    split; [intros _; repeat split |]. discriminate.
Qed.

Lemma parse_ends_before_file_witness :
  let toks := [tok READ "read"; tok ID "x"; tok END "end";
               tok WRITE "write"; tok NUM "1"] in
  exists r st', parse 20 (initial toks never_fails) = Ok r st' /\
    token st' = END /\ Error st' = true /\
    input st' = [tok WRITE "write"; tok NUM "1"].
Proof.
  intros toks.
  assert (E : exists r st', parse 20 (initial toks never_fails) = Ok r st')
    by (vm_compute; eauto).
  destruct E as (r & st' & E).
  exists r, st'. split; [exact E |].
  destruct (parse_ends_before_file _ _ _ E)
    as (st1 & E1 & _ & _ & Hstray & _).
  assert (Ht : token st' = END).
  { vm_compute in E. injection E as _ <-. reflexivity. }
  split; [exact Ht |].
  destruct Hstray as (_ & Hi & He); [rewrite Ht; discriminate |].
  split; [exact He |]. rewrite Hi.
  vm_compute in E1. injection E1 as _ <-. reflexivity.
Defined.

(** X7. A program without statements: when the input is empty, or its
    first token is end-of-file or [end], [parse] returns NULL and
    allocates nothing, whatever the allocator would do.  On
    end-of-file nothing is reported; on [end] the one diagnostic is
    "Code ends before file". *)
Theorem parse_without_statements (fuel : nat) toks oracle :
  ends_block (scan_kind (initial toks oracle)) = true ->
  let st1 := after_advance (initial toks oracle) in
  parse (S (S fuel)) (initial toks oracle) =
    Ok None (if tok_eqb (token st1) ENDFILE then st1
             else after_syntaxError ("Code ends before file" ++ newline)
                    st1) /\
  heap st1 = [] /\ nalloc st1 = 0 /\ diagnostics st1 = 0.
Proof.
  intros Hb st1.
  assert (Ht : token st1 = scan_kind (initial toks oracle)).
  { unfold st1, after_advance, scan_next. simpl. destruct toks; reflexivity. }
  assert (Hs : seq_breaks (token st1) = true).
  { apply ends_block_seq_breaks. rewrite Ht. exact Hb. }
  split.
  - rewrite parse_unfold. fold st1.
    rewrite stmt_sequence_unfold.
    assert (E : run (S fuel) PStatement st1 = Ok None st1).
    { change (run (S fuel) PStatement) with (statement (run fuel)).
      unfold statement, bind, gets. rewrite Ht.
      destruct (scan_kind (initial toks oracle)); try discriminate Hb;
        reflexivity. }
    rewrite E, seq_loop_unfold, Hs.
    destruct (tok_eqb (token st1) ENDFILE); reflexivity.
  - unfold st1, after_advance, scan_next, diagnostics. simpl.
    destruct toks; repeat split.
Qed.

Lemma parse_without_statements_witness :
  parse 2 (initial [] (fun _ => false)) =
    Ok None (after_advance (initial [] (fun _ => false))) /\
  outcome (parse 2 (initial [tok END "end"; tok READ "read"] never_fails))
  = Some (None, END, true, 1).
Proof.
  split.
  - destruct (@parse_without_statements 0 [] (fun _ => false))
      as [E _]; [reflexivity |]. exact E.
  - destruct (@parse_without_statements 0 [tok END "end"; tok READ "read"]
                never_fails) as [E _]; [reflexivity |].
    rewrite E. reflexivity.
Defined.

(** ** The multiplicative level and the comparison level *)

(** Allocating the [Op] node, filing the left operand and the operator,
    and consuming the operator. *)
Lemma open_op (k : ptr -> M ptr) (e : M ptr) t st :
  alloc_ok st (nalloc st) = true ->
  (p <- newExpNode OpK ;;
   if nonnull p then
     set_child p 0 t ;;
     op <- gets token ;; set_op p op ;;
     tk1 <- gets token ;;
     match_ tk1 ;;
     k p
   else e)%parser st
  = k (Some (hlen st)) (op_opened t st).
Proof.
  intros Hok.
  unfold bind at 1. unfold newExpNode, alloc_node. rewrite Hok.
  cbn [nonnull].
  unfold bind at 1. unfold set_child.
  erewrite store_put by apply alloc_state_cell.
  unfold bind at 1. unfold gets at 1.
  unfold bind at 1. unfold set_op.
  erewrite store_put by (apply put_cell, alloc_state_cell).
  unfold bind at 1. unfold gets at 1.
  unfold bind at 1. rewrite match_eq. unfold after_match.
  rewrite tok_eqb_refl.
  rewrite !put_token.
  change (token (alloc_state (ExpK OpK) st)) with (token st).
  reflexivity.
Qed.

(** X8. The loop of [term] is left-associative.  On a lookahead that
    is neither [*] nor [/] it returns the accumulated tree.  On one of
    the two (the allocation succeeding) it builds an [Op] node in the
    next free cell, with the accumulated tree as child 0, the operator
    as attribute and what [factor] returns for the tokens after the
    operator as child 1, and goes round again with that node as the
    accumulated tree, leaving all earlier cells as they were.  So
    "8/4/2" yields [Op(/, Op(/, 8, 4), 2)]. *)
Theorem term_left_assoc :
  (forall fuel t st,
     is_multiplicative (token st) = false ->
     run (S fuel) (PTermLoop t) st = Ok t st) /\
  (forall fuel t st r st5,
     is_multiplicative (token st) = true ->
     alloc_ok st (nalloc st) = true ->
     run fuel PFactor (op_opened t st) = Ok r st5 ->
     let p := hlen st in
     let st6 := put p (with_child 1 r) st5 in
     run (S fuel) (PTermLoop t) st = run fuel (PTermLoop (Some p)) st6 /\
     heap st6 !! p = Some (op_cell (token st) t r) /\
     (forall q n, heap st !! q = Some n -> heap st6 !! q = Some n) /\
     (forall q n, q <> p -> heap st5 !! q = Some n ->
                  heap st6 !! q = Some n)) /\
  outcome (run 10 PExp
             (looking_at (tok NUM "8")
                [tok OVER "/"; tok NUM "4"; tok OVER "/"; tok NUM "2"]
                never_fails))
  = Some (Some (Op OVER (Op OVER (Const 8) (Const 4)) (Const 2)),
          ENDFILE, false, 0).
Proof.
  split; [| split].
  - intros fuel t st Hop.
    change (run (S fuel) (PTermLoop t)) with (term_loop (run fuel) t).
    unfold term_loop, bind, gets. unfold is_multiplicative in Hop.
    rewrite Hop. reflexivity.
  - intros fuel t st r st5 Hop Hok E p st6.
    assert (Hcell : heap st5 !! p =
                    Some (with_attr (AttrOp (token st))
                            (with_child 0 t (blank_node (ExpK OpK))))).
    { eapply run_closed_frame; try exact E; try reflexivity.
      apply op_opened_cell. }
    split; [| split; [| split]].
    + change (run (S fuel) (PTermLoop t)) with (term_loop (run fuel) t).
      unfold term_loop. unfold bind at 1. unfold gets at 1.
      unfold is_multiplicative in Hop. rewrite Hop.
      etransitivity;
        [apply (open_op
                  (fun p => (r <- run fuel PFactor ;;
                             set_child p 1 r ;;
                             run fuel (PTermLoop p))%parser));
         exact Hok |].
      unfold bind at 1. rewrite E.
      unfold bind at 1. unfold set_child.
      erewrite store_put by exact Hcell. reflexivity.
    + unfold st6. erewrite put_cell by exact Hcell. reflexivity.
    + intros q n Hn. unfold st6.
      assert (q <> p).
      { apply lookup_lt_Some in Hn. unfold p, hlen. lia. }
      rewrite put_other by assumption.
      eapply run_closed_frame; try exact E; try reflexivity.
      apply op_opened_old. exact Hn.
    + intros q n Hq Hn. unfold st6. rewrite put_other by assumption.
      exact Hn.
  - vm_compute. reflexivity.
Qed.

Lemma term_left_assoc_witness :
  let st := looking_at (tok OVER "/") [tok NUM "4"; tok OVER "/"; tok NUM "2"]
              never_fails in
  run 1 (PTermLoop (Some 7)) (looking_at (tok PLUS "+") [] never_fails)
  = Ok (Some 7) (looking_at (tok PLUS "+") [] never_fails) /\
  exists r st6,
    run 3 (PTermLoop None) st = run 2 (PTermLoop (Some 0)) st6 /\
    heap st6 !! 0 = Some (op_cell OVER None r).
Proof.
  intros st. split.
  - apply (proj1 term_left_assoc). reflexivity.
  - edestruct (proj1 (proj2 term_left_assoc) 2 None st)
      as (H1 & H2 & _);
      [reflexivity | reflexivity | vm_compute; reflexivity |].
    eexists _, _. split; [exact H1 | exact H2].
Defined.

Lemma exp_unfold (f : nat) st :
  run (S f) PExp st =
  match run f PSimpleExp st with
  | Ok t st1 =>
      if is_comparison (token st1) then
        (p <- newExpNode OpK ;;
         t1 <- (if nonnull p
                then set_child p 0 t ;;
                     op <- gets token ;; set_op p op ;;
                     ret p
                else ret t) ;;
         tk1 <- gets token ;;
         match_ tk1 ;;
         when (nonnull t1) (r <- run f PSimpleExp ;; set_child t1 1 r) ;;
         ret t1)%parser st1
      else Ok t st1
  | Crash => Crash
  | OutOfFuel => OutOfFuel
  end.
Proof.
  change (run (S f) PExp) with (exp (run f)).
  unfold exp. unfold bind at 1.
  destruct (run f PSimpleExp st) as [t st1 | |]; [| reflexivity ..].
  unfold bind at 1. unfold gets at 1. unfold is_comparison.
  destruct (tok_eqb (token st1) LT || tok_eqb (token st1) EQ
            || tok_eqb (token st1) GT); reflexivity.
Qed.

Lemma open_comparison (k : ptr -> M ptr) t st :
  alloc_ok st (nalloc st) = true ->
  (p <- newExpNode OpK ;;
   t1 <- (if nonnull p
          then set_child p 0 t ;;
               op <- gets token ;; set_op p op ;;
               ret p
          else ret t) ;;
   tk1 <- gets token ;;
   match_ tk1 ;;
   k t1)%parser st
  = k (Some (hlen st)) (op_opened t st).
Proof.
  intros Hok.
  unfold bind at 1. unfold newExpNode, alloc_node. rewrite Hok.
  cbn [nonnull].
  unfold bind at 1. unfold bind at 1. unfold set_child.
  erewrite store_put by apply alloc_state_cell.
  unfold bind at 1. unfold gets at 1.
  unfold bind at 1. unfold set_op.
  erewrite store_put by (apply put_cell, alloc_state_cell).
  unfold ret at 1.
  unfold bind at 1. unfold gets at 1.
  unfold bind at 1. rewrite match_eq. unfold after_match.
  rewrite tok_eqb_refl.
  rewrite !put_token.
  change (token (alloc_state (ExpK OpK) st)) with (token st).
  reflexivity.
Qed.

(** X9. The comparison level is not a loop: [exp] takes at most one
    comparison.
    - When the token after the first [simple_exp] is not [<], [=] or
      [>], [exp] returns what [simple_exp] returned.
    - When it is (the allocation succeeding), [exp] returns a new [Op]
      node with that operator, the left operand as child 0 and the
      second [simple_exp] as child 1, and returns at once, whatever the
      next token is: "1<2<3" is parsed as [1<2], the lookahead left on
      the second [<].
    - When the allocation of the [Op] node fails, the operator is
      consumed all the same, and the second [simple_exp] is stored in
      child 1 of the left operand, which is what [exp] returns; with
      no left operand either, nothing more is parsed. *)
Theorem exp_one_comparison :
  (forall fuel st t st1,
     run fuel PSimpleExp st = Ok t st1 ->
     is_comparison (token st1) = false ->
     run (S fuel) PExp st = Ok t st1) /\
  (forall fuel st t st1 r st5,
     run fuel PSimpleExp st = Ok t st1 ->
     is_comparison (token st1) = true ->
     alloc_ok st1 (nalloc st1) = true ->
     run fuel PSimpleExp (op_opened t st1) = Ok r st5 ->
     let p := hlen st1 in
     let st6 := put p (with_child 1 r) st5 in
     run (S fuel) PExp st = Ok (Some p) st6 /\
     heap st6 !! p = Some (op_cell (token st1) t r)) /\
  (forall fuel st q st1 r st5,
     run fuel PSimpleExp st = Ok (Some q) st1 ->
     is_comparison (token st1) = true ->
     alloc_ok st1 (nalloc st1) = false ->
     run fuel PSimpleExp (after_advance (count_alloc st1)) = Ok r st5 ->
     exists n,
       heap st1 !! q = Some n /\
       run (S fuel) PExp st = Ok (Some q) (put q (with_child 1 r) st5) /\
       heap (put q (with_child 1 r) st5) !! q = Some (with_child 1 r n)) /\
  (forall fuel st st1,
     run fuel PSimpleExp st = Ok None st1 ->
     is_comparison (token st1) = true ->
     alloc_ok st1 (nalloc st1) = false ->
     run (S fuel) PExp st = Ok None (after_advance (count_alloc st1))) /\
  outcome (run 10 PExp
             (looking_at (tok NUM "1")
                [tok LT "<"; tok NUM "2"; tok LT "<"; tok NUM "3"]
                never_fails))
  = Some (Some (Op LT (Const 1) (Const 2)), LT, false, 0).
Proof.
  split; [| split; [| split; [| split]]].
  - intros fuel st t st1 E Hop. rewrite exp_unfold, E, Hop. reflexivity.
  - intros fuel st t st1 r st5 E Hop Hok E2 p st6.
    assert (Hcell : heap st5 !! p =
                    Some (with_attr (AttrOp (token st1))
                            (with_child 0 t (blank_node (ExpK OpK))))).
    { eapply run_closed_frame; try exact E2; try reflexivity.
      apply op_opened_cell. }
    split.
    + rewrite exp_unfold, E, Hop.
      etransitivity;
        [apply (open_comparison
                  (fun t1 => (when (nonnull t1)
                                (r <- run fuel PSimpleExp ;;
                                 set_child t1 1 r) ;;
                              ret t1)%parser));
         exact Hok |].
      unfold when. cbn [nonnull].
      unfold bind at 1. unfold bind at 1. rewrite E2.
      unfold set_child. erewrite store_put by exact Hcell. reflexivity.
    + unfold st6. erewrite put_cell by exact Hcell. reflexivity.
  - intros fuel st q st1 r st5 E Hop Hok E2.
    assert (Hq : q < hlen st1).
    { assert (HP : Post PSimpleExp st (Some q) st1)
        by (eapply wlp_elim; [apply run_post; constructor | exact E]).
      destruct HP as (_ & _ & Hlt & _). exact Hlt. }
    destruct (lookup_lt_is_Some_2 (heap st1) q Hq) as [n Hn].
    assert (Hn5 : heap st5 !! q = Some n).
    { eapply run_closed_frame; try exact E2; try reflexivity.
      rewrite after_advance_heap. exact Hn. }
    exists n. split; [exact Hn |]. split.
    + rewrite exp_unfold, E, Hop.
      unfold bind at 1. unfold newExpNode, alloc_node. rewrite Hok.
      cbn [nonnull].
      unfold bind at 1. unfold ret at 1.
      unfold bind at 1. unfold gets at 1.
      unfold bind at 1. rewrite match_eq. unfold after_match.
      change (token (count_alloc st1)) with (token st1).
      rewrite tok_eqb_refl. unfold when. cbn [nonnull].
      unfold bind at 1. unfold bind at 1. rewrite E2.
      unfold set_child. erewrite store_put by exact Hn5. reflexivity.
    + erewrite put_cell by exact Hn5. reflexivity.
  - intros fuel st st1 E Hop Hok.
    rewrite exp_unfold, E, Hop.
    unfold bind at 1. unfold newExpNode, alloc_node. rewrite Hok.
    cbn [nonnull].
    unfold bind at 1. unfold ret at 1.
    unfold bind at 1. unfold gets at 1.
    unfold bind at 1. rewrite match_eq. unfold after_match.
    change (token (count_alloc st1)) with (token st1).
    rewrite tok_eqb_refl. reflexivity.
  - vm_compute. reflexivity.
Qed.

Lemma exp_one_comparison_witness :
  let st := looking_at (tok NUM "1")
              [tok LT "<"; tok NUM "2"; tok LT "<"; tok NUM "3"] in
  (exists r st6,
     run 8 PExp (st never_fails) = Ok (Some 1) st6 /\
     heap st6 !! 1 = Some (op_cell LT (Some 0) r) /\ token st6 = LT) /\
  (exists st6 n,
     run 8 PExp (st (fails_at 1)) = Ok (Some 0) st6 /\
     heap st6 !! 0 = Some (with_child 1 (Some 1) n)).
Proof.
  intros st. split.
  - edestruct (proj1 (proj2 exp_one_comparison) 7 (st never_fails))
      as (H1 & H2);
      [vm_compute; reflexivity | reflexivity | reflexivity
      | vm_compute; reflexivity |].
    eexists _, _. split; [exact H1 |]. split; [exact H2 | reflexivity].
  - edestruct (proj1 (proj2 (proj2 exp_one_comparison)) 7 (st (fails_at 1)))
      as (n & _ & H1 & H2);
      [vm_compute; reflexivity | reflexivity | reflexivity
      | vm_compute; reflexivity |].
    eexists _, n. split; [exact H1 | exact H2].
Defined.

(** ** The node an expression procedure hands back *)

Lemma exp_cell_bound q st : exp_cell q st -> q < hlen st.
Proof. intros (n & Hn & _). eapply lookup_lt_Some; exact Hn. Qed.

Lemma carried_refl st : carried st st.
Proof. intros q H. exact H. Qed.

Lemma carried_heap st st1 : heap st1 = heap st -> carried st st1.
Proof. intros E q (n & Hn & H). exists n. rewrite E. auto. Qed.

Lemma carried_alloc k st : carried st (alloc_state k st).
Proof.
  intros q (n & Hn & H). exists n. split; [| exact H].
  apply alloc_state_old. exact Hn.
Qed.

Lemma carried_match expected st : carried st (after_match expected st).
Proof. apply carried_heap, after_match_heap. Qed.

(** A store that leaves kind and sibling link alone. *)
Lemma carried_store p f n st :
  (forall m, sibling (f m) = sibling m /\ nodekind (f m) = nodekind m) ->
  heap st !! p = Some n ->
  carried st (set_heap (<[p := f n]> (heap st)) st).
Proof.
  intros Hf Hp q (m & Hm & Hs & Hk). unfold exp_cell. simpl.
  destruct (Nat.eq_dec p q) as [-> | Hne].
  - rewrite Hp in Hm. injection Hm as ->.
    exists (f m). split.
    + apply list_lookup_insert_eq. eapply lookup_lt_Some; exact Hp.
    + destruct (Hf m) as [-> ->]. auto.
  - exists m. split; [| auto].
    rewrite list_lookup_insert_ne; assumption.
Qed.

(** A procedure that is handed no cell to link or to fill. *)
Lemma carried_run (f : nat) c st r st1 :
  args_valid c st -> sib_arg c = None -> child_arg c = None ->
  run f c st = Ok r st1 -> carried st st1.
Proof.
  intros Hargs Hs Hc E q (n & Hn & H).
  assert (HP : Post c st r st1)
    by (eapply wlp_elim; [apply run_post; exact Hargs | exact E]).
  destruct HP as (HS & _).
  exists n. split; [| exact H].
  eapply closed_frame; try exact HS; try assumption; try reflexivity.
  simpl. eapply lookup_lt_Some; exact Hn.
Qed.

Section Track.

Variable A : Type.
Variable Q : A -> State -> Prop.
Variable cur : State.

Lemma trk_alloc (k : NodeKind) (P : ptr -> State -> Prop) :
  (forall st1, carried cur st1 ->
     heap st1 !! hlen cur = Some (blank_node k) ->
     P (Some (hlen cur)) st1) ->
  (forall st1, carried cur st1 -> P None st1) ->
  wlp (alloc_node k) P cur.
Proof.
  intros Hok Hfail. apply wlp_alloc_node.
  - apply Hok; [apply carried_alloc | apply alloc_state_cell].
  - apply Hfail. apply carried_heap. reflexivity.
Qed.

Lemma trk_match expected (P : unit -> State -> Prop) :
  (forall st1, carried cur st1 -> P tt st1) -> wlp (match_ expected) P cur.
Proof.
  intros H. unfold wlp. rewrite match_eq. apply H, carried_match.
Qed.

Lemma trk_advance (P : unit -> State -> Prop) :
  (forall st1, carried cur st1 -> P tt st1) -> wlp advance P cur.
Proof.
  intros H. unfold wlp. rewrite advance_eq.
  apply H, carried_heap, after_advance_heap.
Qed.

Lemma trk_syntaxError message (P : unit -> State -> Prop) :
  (forall st1, carried cur st1 -> P tt st1) ->
  wlp (syntaxError message) P cur.
Proof.
  intros H. unfold wlp. rewrite syntaxError_eq.
  apply H, carried_heap. reflexivity.
Qed.

Lemma trk_printToken tk text (P : unit -> State -> Prop) :
  (forall st1, carried cur st1 -> P tt st1) ->
  wlp (printToken tk text) P cur.
Proof. intros H. apply H, carried_heap. reflexivity. Qed.

Lemma trk_store t f (P : unit -> State -> Prop) :
  (forall m, sibling (f m) = sibling m /\ nodekind (f m) = nodekind m) ->
  (forall st1, carried cur st1 -> P tt st1) ->
  wlp (store t f) P cur.
Proof.
  intros Hf H. unfold wlp, store.
  destruct t as [p |]; [| exact I].
  destruct (heap cur !! p) as [n |] eqn:E; [| exact I].
  apply H. eapply carried_store; eassumption.
Qed.

Lemma trk_call (f : nat) c (P : ptr -> State -> Prop) :
  args_valid c cur -> sib_arg c = None -> child_arg c = None ->
  (forall r st1, carried cur st1 -> P r st1) ->
  wlp (run f c) P cur.
Proof.
  intros Hargs Hs Hc H. unfold wlp.
  destruct (run f c cur) as [r st1 | |] eqn:E; try exact I.
  apply H. eapply carried_run; eassumption.
Qed.

Lemma trk_call_exp (f : nat) c (P : ptr -> State -> Prop) :
  wlp (run f c) (fun r st1 => exp_ptr r st1) cur ->
  args_valid c cur -> sib_arg c = None -> child_arg c = None ->
  (forall r st1, carried cur st1 -> exp_ptr r st1 -> P r st1) ->
  wlp (run f c) P cur.
Proof.
  intros HI Hargs Hs Hc H. unfold wlp in *.
  destruct (run f c cur) as [r st1 | |] eqn:E; try exact I.
  apply H; [eapply carried_run; eassumption | exact HI].
Qed.

Lemma trk_call_stmt (f : nat) name (P : ptr -> State -> Prop) :
  (forall r st1, carried cur st1 -> exp_ptr r st1 -> P r st1) ->
  wlp (run f (PCallStmt name)) P cur.
Proof.
  intros H.
  apply trk_call_exp; try reflexivity; [| constructor | exact H].
  eapply wlp_conseq; [apply call_stmt_returns_call |].
  intros r st1 HR q Hq. destruct (HR q Hq) as [_ (n & Hn & K & S & _)].
  exists n. split; [exact Hn |]. split; [exact S |]. rewrite K. reflexivity.
Qed.

End Track.

Lemma exp_ptr_args (t : ptr) st : exp_ptr t st -> ptr_lt (hlen st) t.
Proof.
  destruct t as [q |]; [| intros _; exact I].
  intros H. apply exp_cell_bound. apply H. reflexivity.
Qed.

(** Move what is known about the cells to the state after a step. *)
Ltac carry Hc :=
  repeat match goal with
  | H : exp_cell ?q ?s, Hc' : carried ?s _ |- _ => apply Hc' in H
  | H : exp_ptr ?t ?s, Hc' : carried ?s ?s1 |- _ =>
      assert (exp_ptr t s1)
        by (intros ? ?; apply Hc'; apply H; assumption);
      clear H
  end;
  clear Hc.

Ltac new_exp_cell :=
  lazymatch goal with
  | H : heap ?s !! ?q = Some (blank_node ?k) |- _ =>
      first
        [ assert (exp_cell q s)
            by (eexists; split; [exact H | split; reflexivity]);
          clear H
        | clear H ]
  end.

Ltac solve_exp_ptr :=
  first [ assumption
        | solve [intros ? [=]]
        | intros ? [= <-]; assumption ].

Ltac trk_args :=
  unfold args_valid; simpl;
  repeat (constructor; [apply exp_ptr_args; solve_exp_ptr |]);
  constructor.

Ltac trk_step IH :=
  cbv beta;
  cbn [nonnull andb orb negb];
  lazymatch goal with
  | |- wlp (bind _ _) _ _ => apply wlp_bind
  | |- wlp (ret _) _ _ => apply wlp_ret
  | |- wlp (gets _) _ _ => apply wlp_gets
  | |- wlp (when _ _) _ _ => unfold when
  | |- wlp (if ?c then _ else _) _ _ => destruct c
  | |- wlp (match ?tk with ENDFILE => _ | _ => _ end) _ _ => destruct tk
  | |- wlp (newStmtNode _) _ _ => unfold newStmtNode
  | |- wlp (newExpNode _) _ _ => unfold newExpNode
  | |- wlp (alloc_node _) _ _ =>
      let Hc := fresh "Hc" in
      apply trk_alloc; [intros ? Hc ?; new_exp_cell | intros ? Hc];
      carry Hc
  | |- wlp (match_ _) _ _ =>
      let Hc := fresh "Hc" in apply trk_match; intros ? Hc; carry Hc
  | |- wlp advance _ _ =>
      let Hc := fresh "Hc" in apply trk_advance; intros ? Hc; carry Hc
  | |- wlp (syntaxError _) _ _ =>
      let Hc := fresh "Hc" in apply trk_syntaxError; intros ? Hc; carry Hc
  | |- wlp (printToken _ _) _ _ =>
      let Hc := fresh "Hc" in apply trk_printToken; intros ? Hc; carry Hc
  | |- wlp (set_child _ _ _) _ _ => unfold set_child
  | |- wlp (set_name _ _) _ _ => unfold set_name
  | |- wlp (set_val _ _) _ _ => unfold set_val
  | |- wlp (set_op _ _) _ _ => unfold set_op
  | |- wlp (store _ _) _ _ =>
      let Hc := fresh "Hc" in
      apply trk_store; [intros ?; split; reflexivity | intros ? Hc];
      carry Hc
  | |- wlp (get_name _) _ _ => apply acc_get_name; intros ?
  | |- wlp (run _ (PCallStmt _)) _ _ =>
      let Hc := fresh "Hc" in
      apply trk_call_stmt; intros ? ? Hc ?; carry Hc
  | |- wlp (run _ (PDimExp _)) _ _ =>
      let Hc := fresh "Hc" in
      apply trk_call; [constructor | reflexivity | reflexivity |];
      intros ? ? Hc; carry Hc
  | |- wlp (run _ ?c) _ _ =>
      let Hc := fresh "Hc" in
      apply trk_call_exp;
      [ apply IH;
        [ reflexivity
        | let Hin := fresh "Hin" in
          simpl; intros ? Hin;
          first [ contradiction
                | destruct Hin as [<- | []]; solve_exp_ptr ] ]
      | trk_args | reflexivity | reflexivity |];
      [ intros ? ? Hc ?; carry Hc ]
  end.

Lemma exp_level_returns (fuel : nat) :
  forall c st,
    is_exp_level c = true ->
    (forall t, In t (ptr_args c) -> exp_ptr t st) ->
    wlp (run fuel c) (fun r st' => exp_ptr r st') st.
Proof.
  induction fuel as [| f IH]; intros c st Hc Hargs; [exact I |].
  change (run (S f) c) with (body (run f) c).
  destruct c; try discriminate Hc; unfold_body; clear Hc.
  all: simpl in Hargs.
  all: try (assert (Ht : exp_ptr t st) by (apply Hargs; left; reflexivity)).
  all: clear Hargs.
  all: repeat trk_step IH.
  all: solve_exp_ptr.
Qed.

(** X10. What an expression is: [exp], [simple_exp], [term] and
    [factor] return NULL or a node that is an operator, a constant, an
    identifier or a [Call] node, and whose sibling link is unset; the
    node is one they allocated themselves.  The loops of [simple_exp]
    and [term] do the same when the tree they are handed is such a
    node. *)
Theorem expression_returns_unlinked_node (fuel : nat) c st r st' :
  is_exp_level c = true ->
  (forall t, In t (ptr_args c) -> exp_ptr t st) ->
  run fuel c st = Ok r st' ->
  exp_ptr r st' /\
  (ptr_args c = [] -> forall q, r = Some q -> hlen st <= q < hlen st').
Proof.
  intros Hc Hargs E. split.
  - exact (@wlp_elim _ _ _ _ _ _ (exp_level_returns fuel c Hc Hargs) E).
  - intros Hnil q ->.
    assert (V : args_valid c st)
      by (unfold args_valid; rewrite Hnil; constructor).
    assert (HP : Post c st (Some q) st')
      by (eapply wlp_elim; [apply run_post; exact V | exact E]).
    destruct HP as (_ & [Hge | Hin] & Hlt & _).
    + simpl in Hge, Hlt. lia.
    + simpl in Hin. rewrite Hnil in Hin. contradiction.
Qed.

Lemma expression_returns_unlinked_node_witness :
  let st := looking_at (tok LPAREN "(")
              [tok ID "f"; tok LPAREN "("; tok NUM "1"; tok COMMA ",";
               tok NUM "2"; tok RPAREN ")"; tok RPAREN ")"] never_fails in
  exists q st' n, run 20 PExp st = Ok (Some q) st' /\
    heap st' !! q = Some n /\ sibling n = None /\
    nodekind n = StmtK CallK.
Proof.
  intros st.
  assert (E : exists q st', run 20 PExp st = Ok (Some q) st')
    by (vm_compute; eauto).
  destruct E as (q & st' & E).
  destruct (@expression_returns_unlinked_node 20 PExp st (Some q) st')
    as (H & _); [reflexivity | intros ? [] | exact E |].
  destruct (H q eq_refl) as (n & Hn & Hs & _).
  exists q, st', n. split; [exact E |]. split; [exact Hn |].
  split; [exact Hs |].
  vm_compute in E. injection E as <- <-.
  vm_compute in Hn. injection Hn as <-. reflexivity.
Defined.

(** ** The argument list of a call *)

(** One round of the loop of [call_stmt], spelled out. *)
Lemma call_loop_unfold (f : nat) t lst st :
  run (S f) (PCallLoop t lst) st =
  if tok_eqb (token st) RPAREN then Ok t st
  else
    match run f PExp st with
    | Ok (Some q) st2 =>
        match (if negb (nonnull lst) then set_child t 0 (Some q)
               else set_sibling lst (Some q)) st2 with
        | Ok _ st3 =>
            after_argument (run f (PCallLoop t (Some q))) t st3
        | Crash => Crash
        | OutOfFuel => OutOfFuel
        end
    | Ok None st2 => after_argument (run f (PCallLoop t lst)) t st2
    | Crash => Crash
    | OutOfFuel => OutOfFuel
    end.
Proof.
  change (run (S f) (PCallLoop t lst)) with (call_loop (run f) t lst).
  unfold call_loop. unfold bind at 1. unfold gets at 1.
  destruct (tok_eqb (token st) RPAREN); [reflexivity |]. cbn [negb].
  unfold bind at 1.
  destruct (run f PExp st) as [[q |] st2 | |]; try reflexivity.
  - cbn [nonnull]. unfold bind at 1. unfold bind at 1.
    destruct ((if negb (nonnull lst) then set_child t 0 (Some q)
               else set_sibling lst (Some q)) st2) as [[] st3 | |];
      try reflexivity.
    unfold ret at 1. unfold bind at 1. unfold gets at 1.
    unfold after_argument.
    destruct (tok_eqb (token st3) COMMA) eqn:E; [| reflexivity].
    unfold bind. rewrite match_eq. rewrite after_match_hit; [reflexivity |].
    apply tok_eqb_eq. exact E.
  - cbn [nonnull]. unfold bind at 1. unfold ret at 1.
    unfold bind at 1. unfold gets at 1. unfold after_argument.
    destruct (tok_eqb (token st2) COMMA) eqn:E; [| reflexivity].
    unfold bind. rewrite match_eq. rewrite after_match_hit; [reflexivity |].
    apply tok_eqb_eq. exact E.
Qed.












(** ** When the node factory returns NULL *)

Lemma wp_scan_match expected (Q : unit -> State -> Prop) st :
  (forall st1, heap st1 = heap st -> nalloc st1 = nalloc st ->
               alloc_ok st1 = alloc_ok st -> Q tt st1) ->
  wp (match_ expected) Q st.
Proof.
  intros H. unfold wp. rewrite match_eq. apply H.
  - apply after_match_heap.
  - unfold after_match, after_advance, scan_next.
    destruct (tok_eqb (token st) expected); [| reflexivity].
    destruct (input st); reflexivity.
  - unfold after_match, after_advance, scan_next.
    destruct (tok_eqb (token st) expected); [| reflexivity].
    destruct (input st); reflexivity.
Qed.

Lemma wp_alloc_fails k (Q : ptr -> State -> Prop) st :
  alloc_ok st (nalloc st) = false ->
  Q None (count_alloc st) -> wp (alloc_node k) Q st.
Proof. intros Hf H. unfold wp, alloc_node. rewrite Hf. exact H. Qed.

Ltac scan_step :=
  cbv beta;
  cbn [nonnull andb orb negb];
  lazymatch goal with
  | |- wp (bind _ _) _ _ => apply wp_bind
  | |- wp (ret _) _ _ => apply wp_ret
  | |- wp (gets _) _ _ => apply wp_gets
  | |- wp (when _ _) _ _ => unfold when
  | |- wp (if ?c then _ else _) _ _ => destruct c
  | |- wp (match_ _) _ _ =>
      apply wp_scan_match;
      let H1 := fresh in let H2 := fresh in let H3 := fresh in
      intros ? H1 H2 H3;
      repeat match goal with
      | E : heap ?s = _ |- _ =>
          lazymatch type of H1 with heap _ = heap s => rewrite E in H1 end;
          clear E
      | E : nalloc ?s = _ |- _ =>
          lazymatch type of H2 with nalloc _ = nalloc s => rewrite E in H2 end;
          clear E
      | E : alloc_ok ?s = _ |- _ =>
          lazymatch type of H3 with alloc_ok _ = alloc_ok s =>
            rewrite E in H3 end;
          clear E
      end
  end.

(** With the node missing, no call is reached. *)
Lemma body_without_node (call : Prod -> M ptr) c st :
  checks_own_node c = true ->
  alloc_ok st (nalloc st) = false ->
  body call c st = body no_call c st.
Proof.
  intros Hc Hfail.
  destruct c; try discriminate Hc; unfold_body;
    unfold bind, newStmtNode, newExpNode, alloc_node;
    rewrite Hfail; reflexivity.
Qed.

(** X12. The procedures that guard every use of their own node with
    [t != NULL] survive the failure of that allocation: [if_stmt],
    [repeat_stmt], [read_stmt], [write_stmt], [while_stmt],
    [return_stmt], [func_stmt], [for_stmt], [lambda_exp] and
    [value_exp] then return NULL, having entered no other procedure
    (whatever the recursive knot is, even one that stops the run at
    any call) and stored nothing: the tokens they would have matched
    are all they have looked at. *)
Theorem guarded_procedures_survive (c : Prod) (st : State) :
  checks_own_node c = true ->
  alloc_ok st (nalloc st) = false ->
  exists st',
    (forall call, body call c st = Ok None st') /\
    heap st' = heap st /\ nalloc st' = S (nalloc st) /\
    alloc_ok st' = alloc_ok st.
Proof.
  intros Hc Hfail.
  assert (W : wp (body no_call c)
                (fun r st' => r = None /\ heap st' = heap st /\
                              nalloc st' = S (nalloc st) /\
                              alloc_ok st' = alloc_ok st) st).
  { destruct c; try discriminate Hc; unfold_body.
    all: apply wp_bind; unfold newStmtNode, newExpNode;
      apply wp_alloc_fails; [exact Hfail |].
    all: assert (Eh : heap (count_alloc st) = heap st) by reflexivity.
    all: assert (En : nalloc (count_alloc st) = S (nalloc st))
           by reflexivity.
    all: assert (Ea : alloc_ok (count_alloc st) = alloc_ok st)
           by reflexivity.
    all: repeat scan_step.
    all: auto. }
  destruct (@wp_returns _ _ _ _ W) as (r & st' & E & -> & Hh & Hn & Ha).
  exists st'. split; [| auto].
  intros call. rewrite body_without_node by assumption. exact E.
Qed.

Lemma guarded_procedures_survive_witness :
  let st := looking_at (tok WHILE "while")
              [tok LPAREN "("; tok NUM "1"; tok RPAREN ")"; tok END "end"]
              (fun _ => false) in
  exists st', run 1 PWhileStmt st = Ok None st' /\ heap st' = [].
Proof.
  intros st.
  destruct (@guarded_procedures_survive PWhileStmt st)
    as (st' & E & Hh & _); [reflexivity | reflexivity |].
  exists st'. split; [apply E | exact Hh].
Defined.

Lemma call_stmt_without_node (f : nat) name st :
  alloc_ok st (nalloc st) = false ->
  token st = LPAREN ->
  run (S f) (PCallStmt name) st =
  match run f (PCallLoop None None) (after_advance (count_alloc st)) with
  | Ok _ st2 => Ok None (after_match RPAREN st2)
  | Crash => Crash
  | OutOfFuel => OutOfFuel
  end.
Proof.
  intros Hfail Ht.
  change (run (S f) (PCallStmt name)) with (call_stmt (run f) name).
  unfold call_stmt. unfold bind at 1.
  unfold newStmtNode, alloc_node. rewrite Hfail.
  cbn [nonnull]. unfold when.
  unfold bind at 1. unfold ret at 1.
  unfold bind at 1. rewrite match_eq.
  rewrite after_match_hit by exact Ht.
  unfold bind at 1.
  destruct (run f (PCallLoop None None) (after_advance (count_alloc st)))
    as [r st2 | |]; [| reflexivity ..].
  unfold bind. rewrite match_eq. reflexivity.
Qed.

(** X13. [call_stmt] tests its node for NULL before it stores the
    callee's name, but not before it stores the first argument.  When
    the allocation of the [Call] node fails, a call without arguments
    is survived, NULL being returned and both parentheses consumed;
    with a first argument for which [exp] returns a node, the store
    [t->child[0] = p] goes through NULL. *)
Theorem call_stmt_null_node (f : nat) name st :
  alloc_ok st (nalloc st) = false ->
  token st = LPAREN ->
  (scan_kind st = RPAREN ->
   run (S (S f)) (PCallStmt name) st =
     Ok None (after_advance (after_advance (count_alloc st)))) /\
  (forall q st2,
     scan_kind st <> RPAREN ->
     run f PExp (after_advance (count_alloc st)) = Ok (Some q) st2 ->
     run (S (S f)) (PCallStmt name) st = Crash).
Proof.
  intros Hfail Ht.
  assert (Htok : token (after_advance (count_alloc st)) = scan_kind st).
  { unfold after_advance, scan_next, scan_kind. simpl.
    destruct (input st); reflexivity. }
  split.
  - intros Hr. rewrite call_stmt_without_node by assumption.
    rewrite call_loop_unfold, Htok, Hr. simpl.
    rewrite after_match_hit by (rewrite Htok; exact Hr). reflexivity.
  - intros q st2 Hr E. rewrite call_stmt_without_node by assumption.
    rewrite call_loop_unfold, Htok.
    apply tok_eqb_neq in Hr. rewrite Hr, E. reflexivity.
Qed.

Lemma call_stmt_null_node_witness :
  let st := looking_at (tok LPAREN "(") [tok NUM "1"; tok RPAREN ")"]
              (fails_at 0) in
  run 6 (PCallStmt (Some "f"%string)) st = Crash.
Proof.
  intros st.
  destruct (@call_stmt_null_node 4 (Some "f"%string) st) as (_ & H);
    [reflexivity | reflexivity |].
  eapply H; [discriminate | vm_compute; reflexivity].
Defined.

(** ** No dangling pointers *)

Lemma node_closed_mono a b n : a <= b -> node_closed a n -> node_closed b n.
Proof.
  intros Hab (Hl & Hs & Hc). split; [exact Hl |]. split.
  - eapply ptr_lt_mono; eassumption.
  - eapply List.Forall_impl; [| exact Hc]. intros p. apply ptr_lt_mono. exact Hab.
Qed.

Lemma heap_closed_same st st1 :
  heap st1 = heap st -> heap_closed st -> heap_closed st1.
Proof. intros E H q n. unfold hlen. rewrite E. apply H. Qed.

Lemma heap_closed_alloc k st : heap_closed st -> heap_closed (alloc_state k st).
Proof.
  intros H q n Hq. rewrite alloc_state_hlen.
  unfold alloc_state in Hq; simpl in Hq.
  apply lookup_app_Some in Hq as [Hq | [_ Hq]].
  - eapply node_closed_mono; [| exact (H q n Hq)]. lia.
  - destruct (q - length (heap st)); [| discriminate].
    injection Hq as <-. split; [reflexivity |]. split; [exact I |].
    simpl. repeat constructor.
Qed.

Lemma heap_closed_store p n w st :
  heap_closed st -> heap st !! p = Some n ->
  (forall v, match w with
             | WChild _ u | WSibling u => v = u
             | WAttr _ => False
             end -> ptr_lt (hlen st) v) ->
  heap_closed (set_heap (<[p := apply_write w n]> (heap st)) st).
Proof.
  intros H Hp Hv q m Hq.
  assert (Hlen : hlen (set_heap (<[p := apply_write w n]> (heap st)) st)
                 = hlen st)
    by (unfold hlen; simpl; apply length_insert).
  rewrite Hlen. simpl in Hq.
  destruct (Nat.eq_dec p q) as [-> | Hne].
  - rewrite list_lookup_insert_eq in Hq
      by (eapply lookup_lt_Some; exact Hp).
    injection Hq as <-.
    destruct (H q n Hp) as (Hl & Hs & Hc).
    destruct w as [i u | u | a]; simpl.
    + split; [simpl; rewrite length_insert; exact Hl |].
      split; [exact Hs |]. simpl.
      apply List.Forall_forall. intros v Hin.
      apply In_insert in Hin as [-> | Hin];
        [apply Hv; reflexivity |].
      rewrite List.Forall_forall in Hc. apply Hc. exact Hin.
    + split; [exact Hl |]. split; [apply Hv; reflexivity | exact Hc].
    + split; [exact Hl |]. split; assumption.
  - rewrite list_lookup_insert_ne in Hq by assumption. exact (H q m Hq).
Qed.

Section Closed.

Variable cur : State.
Hypothesis Hcur : heap_closed cur.

Lemma wf_alloc k (Q : ptr -> State -> Prop) :
  (forall st1, heap_closed st1 -> hlen st1 = S (hlen cur) ->
     Q (Some (hlen cur)) st1) ->
  (forall st1, heap_closed st1 -> hlen st1 = hlen cur -> Q None st1) ->
  wlp (alloc_node k) Q cur.
Proof.
  intros Hok Hfail. apply wlp_alloc_node.
  - apply Hok; [apply heap_closed_alloc; exact Hcur | apply alloc_state_hlen].
  - apply Hfail; [| reflexivity].
    apply heap_closed_same with (st := cur); [reflexivity | exact Hcur].
Qed.

Lemma wf_match expected (Q : unit -> State -> Prop) :
  (forall st1, heap_closed st1 -> hlen st1 = hlen cur -> Q tt st1) ->
  wlp (match_ expected) Q cur.
Proof.
  intros H. unfold wlp. rewrite match_eq. apply H.
  - eapply heap_closed_same; [apply after_match_heap | exact Hcur].
  - unfold hlen. rewrite after_match_heap. reflexivity.
Qed.

Lemma wf_advance (Q : unit -> State -> Prop) :
  (forall st1, heap_closed st1 -> hlen st1 = hlen cur -> Q tt st1) ->
  wlp advance Q cur.
Proof.
  intros H. unfold wlp. rewrite advance_eq. apply H.
  - eapply heap_closed_same; [apply after_advance_heap | exact Hcur].
  - apply after_advance_hlen.
Qed.

Lemma wf_syntaxError message (Q : unit -> State -> Prop) :
  (forall st1, heap_closed st1 -> hlen st1 = hlen cur -> Q tt st1) ->
  wlp (syntaxError message) Q cur.
Proof.
  intros H. unfold wlp. rewrite syntaxError_eq. apply H; [| reflexivity].
  eapply heap_closed_same; [reflexivity | exact Hcur].
Qed.

Lemma wf_printToken tk text (Q : unit -> State -> Prop) :
  (forall st1, heap_closed st1 -> hlen st1 = hlen cur -> Q tt st1) ->
  wlp (printToken tk text) Q cur.
Proof.
  intros H. apply H; [| reflexivity].
  eapply heap_closed_same; [reflexivity | exact Hcur].
Qed.

Lemma wf_store t w (Q : unit -> State -> Prop) :
  (forall v, match w with
             | WChild _ u | WSibling u => v = u
             | WAttr _ => False
             end -> ptr_lt (hlen cur) v) ->
  (forall st1, heap_closed st1 -> hlen st1 = hlen cur -> Q tt st1) ->
  wlp (store t (apply_write w)) Q cur.
Proof.
  intros Hv H. unfold wlp, store.
  destruct t as [p |]; [| exact I].
  destruct (heap cur !! p) as [n |] eqn:E; [| exact I].
  apply H.
  - apply heap_closed_store; assumption.
  - unfold hlen; simpl. apply length_insert.
Qed.

Lemma wf_set_child t i v (Q : unit -> State -> Prop) :
  ptr_lt (hlen cur) v ->
  (forall st1, heap_closed st1 -> hlen st1 = hlen cur -> Q tt st1) ->
  wlp (set_child t i v) Q cur.
Proof. intros Hv. apply (@wf_store t (WChild i v)). intros ? ->. exact Hv. Qed.

Lemma wf_set_sibling t v (Q : unit -> State -> Prop) :
  ptr_lt (hlen cur) v ->
  (forall st1, heap_closed st1 -> hlen st1 = hlen cur -> Q tt st1) ->
  wlp (set_sibling t v) Q cur.
Proof. intros Hv. apply (@wf_store t (WSibling v)). intros ? ->. exact Hv. Qed.

Lemma wf_set_attr t a (Q : unit -> State -> Prop) :
  (forall st1, heap_closed st1 -> hlen st1 = hlen cur -> Q tt st1) ->
  wlp (store t (with_attr a)) Q cur.
Proof. apply (@wf_store t (WAttr a)). intros ? []. Qed.

Lemma wf_call (f : nat) c (Q : ptr -> State -> Prop) :
  wlp (run f c) (fun _ st1 => heap_closed st1) cur ->
  args_valid c cur ->
  (forall r st1, heap_closed st1 -> hlen cur <= hlen st1 ->
     ptr_lt (hlen st1) r -> Q r st1) ->
  wlp (run f c) Q cur.
Proof.
  intros HI Hargs H.
  pose proof (@run_post f c cur Hargs) as HP. unfold wlp in *.
  destruct (run f c cur) as [r st1 | |]; try exact I.
  destruct HP as (HS & _ & Hlt & _).
  apply H; [exact HI | exact (Steps_hlen HS) | exact Hlt].
Qed.

End Closed.

Ltac solve_lt :=
  lazymatch goal with
  | |- ptr_lt _ None => exact I
  | |- ptr_lt _ ?v =>
      first [ match goal with
              | H : ptr_lt _ v |- _ =>
                  eapply ptr_lt_mono; [| exact H]; lia
              end
            | simpl in *; lia ]
  end.

Ltac wf_args := unfold args_valid; simpl; repeat constructor; solve_lt.

Ltac wf_step IH :=
  cbv beta;
  cbn [nonnull andb orb negb];
  lazymatch goal with
  | |- wlp (bind _ _) _ _ => apply wlp_bind
  | |- wlp (ret _) _ _ => apply wlp_ret
  | |- wlp (gets _) _ _ => apply wlp_gets
  | |- wlp (when _ _) _ _ => unfold when
  | |- wlp (if nonnull ?r then _ else _) _ _ => destruct r
  | |- wlp (if negb (nonnull ?r) then _ else _) _ _ => destruct r
  | |- wlp (if nonnull ?r && _ then _ else _) _ _ => destruct r
  | |- wlp (if ?c then _ else _) _ _ => destruct c
  | |- wlp (match ?tk with ENDFILE => _ | _ => _ end) _ _ => destruct tk
  | |- wlp (newStmtNode _) _ _ => unfold newStmtNode
  | |- wlp (newExpNode _) _ _ => unfold newExpNode
  | |- wlp (alloc_node _) _ _ =>
      apply wf_alloc; [assumption | intros ? ? ? | intros ? ? ?]
  | |- wlp (match_ _) _ _ => apply wf_match; [assumption | intros ? ? ?]
  | |- wlp advance _ _ => apply wf_advance; [assumption | intros ? ? ?]
  | |- wlp (syntaxError _) _ _ =>
      apply wf_syntaxError; [assumption | intros ? ? ?]
  | |- wlp (printToken _ _) _ _ =>
      apply wf_printToken; [assumption | intros ? ? ?]
  | |- wlp (set_child _ _ _) _ _ =>
      apply wf_set_child; [assumption | solve_lt | intros ? ? ?]
  | |- wlp (set_sibling _ _) _ _ =>
      apply wf_set_sibling; [assumption | solve_lt | intros ? ? ?]
  | |- wlp (set_name _ _) _ _ => unfold set_name
  | |- wlp (set_val _ _) _ _ => unfold set_val
  | |- wlp (set_op _ _) _ _ => unfold set_op
  | |- wlp (store _ (with_attr _)) _ _ =>
      apply wf_set_attr; [assumption | intros ? ? ?]
  | |- wlp (get_name _) _ _ => apply acc_get_name; intros ?
  | |- wlp (run _ ?c) _ _ =>
      apply wf_call;
      [ apply IH; [wf_args | assumption] | wf_args | intros ? ? ? ? ? ]
  end.

(** Every procedure leaves a heap without dangling pointers as one. *)
Lemma run_closed (fuel : nat) :
  forall c st, args_valid c st -> heap_closed st ->
    wlp (run fuel c) (fun _ st' => heap_closed st') st.
Proof.
  induction fuel as [| f IH]; intros c st Hargs Hcl; [exact I |].
  change (run (S f) c) with (body (run f) c).
  destruct c; split_args Hargs; unfold_body.
  all: repeat wf_step IH.
  all: assumption.
Qed.

(** X14. The tree never contains a dangling pointer.  If, when a
    procedure is entered, every sibling link and child slot of every
    node is NULL or points to an allocated node (and every node has its
    [MAXCHILDREN] child slots), the same holds when it returns, and the
    pointer it returns is NULL or points to an allocated node.  This
    holds of [parse] for every input and every allocator. *)
Theorem tree_has_no_dangling_pointer :
  (forall fuel c st r st',
     args_valid c st -> heap_closed st ->
     run fuel c st = Ok r st' ->
     heap_closed st' /\ ptr_lt (hlen st') r) /\
  (forall fuel toks oracle r st',
     parse fuel (initial toks oracle) = Ok r st' ->
     heap_closed st' /\ ptr_lt (hlen st') r).
Proof.
  assert (H : forall fuel c st r st',
             args_valid c st -> heap_closed st ->
             run fuel c st = Ok r st' ->
             heap_closed st' /\ ptr_lt (hlen st') r).
  { intros fuel c st r st' Hargs Hcl E. split.
    - exact (@wlp_elim _ _ _ _ _ _ (@run_closed fuel c st Hargs Hcl) E).
    - assert (HP : Post c st r st')
        by (eapply wlp_elim; [apply run_post; exact Hargs | exact E]).
      destruct HP as (_ & _ & Hlt & _). exact Hlt. }
  split; [exact H |].
  intros fuel toks oracle r st' E. rewrite parse_unfold in E.
  destruct (run fuel PStmtSequence (after_advance (initial toks oracle)))
    as [t st1 | |] eqn:E1; try discriminate.
  assert (Hargs : args_valid PStmtSequence
                    (after_advance (initial toks oracle)))
    by constructor.
  assert (Hcl0 : heap_closed (after_advance (initial toks oracle))).
  { eapply heap_closed_same; [apply after_advance_heap |].
    intros q n Hq. destruct q; discriminate Hq. }
  destruct (H _ _ _ _ _ Hargs Hcl0 E1) as (Hcl & Hlt).
  destruct (tok_eqb (token st1) ENDFILE); injection E as <- <-.
  - split; assumption.
  - split; [| exact Hlt].
    eapply heap_closed_same; [reflexivity | exact Hcl].
Qed.

Lemma tree_has_no_dangling_pointer_witness :
  let toks := [tok ID "f"; tok LPAREN "("; tok NUM "1"; tok COMMA ",";
               tok ID "x"; tok RPAREN ")"; tok SEMI ";";
               tok WRITE "write"; tok ID "x"] in
  exists q st', parse 40 (initial toks never_fails) = Ok (Some q) st' /\
    q < hlen st' /\
    forall i n, heap st' !! i = Some n -> ptr_lt (hlen st') (sibling n).
Proof.
  intros toks.
  assert (E : exists q st', parse 40 (initial toks never_fails)
                            = Ok (Some q) st')
    by (vm_compute; eauto).
  destruct E as (q & st' & E).
  exists q, st'. split; [exact E |].
  destruct (proj2 tree_has_no_dangling_pointer _ _ _ _ _ E) as (Hcl & Hlt).
  split; [exact Hlt |].
  intros i n Hn. destruct (Hcl i n Hn) as (_ & Hs & _). exact Hs.
Defined.

(** ** Sibling links point forward *)

Lemma heap_forward_same st st1 :
  heap st1 = heap st -> heap_forward st -> heap_forward st1.
Proof. intros E H i n j. rewrite E. apply H. Qed.

Lemma heap_forward_alloc k st : heap_forward st -> heap_forward (alloc_state k st).
Proof.
  intros H i n j Hi. unfold alloc_state in Hi; simpl in Hi.
  apply lookup_app_Some in Hi as [Hi | [_ Hi]]; [exact (H i n j Hi) |].
  destruct (i - length (heap st)); [| discriminate].
  injection Hi as <-. discriminate.
Qed.

Lemma heap_forward_store p n w st :
  heap_forward st -> heap st !! p = Some n ->
  (forall j, w = WSibling (Some j) -> p < j) ->
  heap_forward (set_heap (<[p := apply_write w n]> (heap st)) st).
Proof.
  intros H Hp Hw i m j Hi Hs. simpl in Hi.
  destruct (Nat.eq_dec p i) as [-> | Hne].
  - rewrite list_lookup_insert_eq in Hi
      by (eapply lookup_lt_Some; exact Hp).
    injection Hi as <-.
    destruct w as [k u | u | a]; simpl in Hs.
    + exact (H i n j Hp Hs).
    + apply Hw. rewrite Hs. reflexivity.
    + exact (H i n j Hp Hs).
  - rewrite list_lookup_insert_ne in Hi by assumption. exact (H i m j Hi Hs).
Qed.

Section Forward.

Variable cur : State.
Hypothesis Hcur : heap_forward cur.

Lemma fw_alloc k (Q : ptr -> State -> Prop) :
  (forall st1, heap_forward st1 -> hlen st1 = S (hlen cur) ->
     Q (Some (hlen cur)) st1) ->
  (forall st1, heap_forward st1 -> hlen st1 = hlen cur -> Q None st1) ->
  wlp (alloc_node k) Q cur.
Proof.
  intros Hok Hfail. apply wlp_alloc_node.
  - apply Hok; [apply heap_forward_alloc; exact Hcur | apply alloc_state_hlen].
  - apply Hfail; [| reflexivity].
    apply heap_forward_same with (st := cur); [reflexivity | exact Hcur].
Qed.

Lemma fw_match expected (Q : unit -> State -> Prop) :
  (forall st1, heap_forward st1 -> hlen st1 = hlen cur -> Q tt st1) ->
  wlp (match_ expected) Q cur.
Proof.
  intros H. unfold wlp. rewrite match_eq. apply H.
  - eapply heap_forward_same; [apply after_match_heap | exact Hcur].
  - unfold hlen. rewrite after_match_heap. reflexivity.
Qed.

Lemma fw_advance (Q : unit -> State -> Prop) :
  (forall st1, heap_forward st1 -> hlen st1 = hlen cur -> Q tt st1) ->
  wlp advance Q cur.
Proof.
  intros H. unfold wlp. rewrite advance_eq. apply H.
  - eapply heap_forward_same; [apply after_advance_heap | exact Hcur].
  - apply after_advance_hlen.
Qed.

Lemma fw_syntaxError message (Q : unit -> State -> Prop) :
  (forall st1, heap_forward st1 -> hlen st1 = hlen cur -> Q tt st1) ->
  wlp (syntaxError message) Q cur.
Proof.
  intros H. unfold wlp. rewrite syntaxError_eq. apply H; [| reflexivity].
  eapply heap_forward_same; [reflexivity | exact Hcur].
Qed.

Lemma fw_printToken tk text (Q : unit -> State -> Prop) :
  (forall st1, heap_forward st1 -> hlen st1 = hlen cur -> Q tt st1) ->
  wlp (printToken tk text) Q cur.
Proof.
  intros H. apply H; [| reflexivity].
  eapply heap_forward_same; [reflexivity | exact Hcur].
Qed.

Lemma fw_store t w (Q : unit -> State -> Prop) :
  (forall p j, t = Some p -> w = WSibling (Some j) -> p < j) ->
  (forall st1, heap_forward st1 -> hlen st1 = hlen cur -> Q tt st1) ->
  wlp (store t (apply_write w)) Q cur.
Proof.
  intros Hw H. unfold wlp, store.
  destruct t as [p |]; [| exact I].
  destruct (heap cur !! p) as [n |] eqn:E; [| exact I].
  apply H.
  - apply heap_forward_store; [exact Hcur | exact E |].
    intros j. apply Hw. reflexivity.
  - unfold hlen; simpl. apply length_insert.
Qed.

Lemma fw_set_child t i v (Q : unit -> State -> Prop) :
  (forall st1, heap_forward st1 -> hlen st1 = hlen cur -> Q tt st1) ->
  wlp (set_child t i v) Q cur.
Proof. apply (@fw_store t (WChild i v)). intros ? ? _ [=]. Qed.

Lemma fw_set_attr t a (Q : unit -> State -> Prop) :
  (forall st1, heap_forward st1 -> hlen st1 = hlen cur -> Q tt st1) ->
  wlp (store t (with_attr a)) Q cur.
Proof. apply (@fw_store t (WAttr a)). intros ? ? _ [=]. Qed.

Lemma fw_set_sibling t v (Q : unit -> State -> Prop) :
  (forall p j, t = Some p -> v = Some j -> p < j) ->
  (forall st1, heap_forward st1 -> hlen st1 = hlen cur -> Q tt st1) ->
  wlp (set_sibling t v) Q cur.
Proof.
  intros Hv. apply (@fw_store t (WSibling v)).
  intros p j Hp [= ->]. apply Hv; [exact Hp | reflexivity].
Qed.

Lemma fw_call (f : nat) c (Q : ptr -> State -> Prop) :
  wlp (run f c) (fun _ st1 => heap_forward st1) cur ->
  args_valid c cur ->
  (forall r st1, heap_forward st1 -> hlen cur <= hlen st1 ->
     ptr_lt (hlen st1) r ->
     ptr_ge (hlen cur) r \/ In r (ptr_args c) ->
     Q r st1) ->
  wlp (run f c) Q cur.
Proof.
  intros HI Hargs H.
  pose proof (@run_post f c cur Hargs) as HP. unfold wlp in *.
  destruct (run f c cur) as [r st1 | |]; try exact I.
  destruct HP as (HS & Hokv & Hlt & _).
  apply H; [exact HI | exact (Steps_hlen HS) | exact Hlt | exact Hokv].
Qed.

End Forward.

(** The pointer stored as a sibling was made after the node it is
    stored in. *)
Ltac solve_forward :=
  let p := fresh "p" in
  let j := fresh "j" in
  let Hp := fresh "Hp" in
  let Hj := fresh "Hj" in
  intros p j Hp Hj;
  repeat match goal with
  | H : Some _ = Some _ |- _ => injection H as H
  | H : None = Some _ |- _ => discriminate H
  end;
  subst;
  repeat match goal with
  | H : ptr_ge _ _ \/ In _ (ptr_args _) |- _ =>
      destruct H as [H | H]; [| simpl in H; contradiction]
  end;
  simpl in *; lia.

Ltac fw_step IH :=
  cbv beta;
  cbn [nonnull andb orb negb];
  lazymatch goal with
  | |- wlp (bind _ _) _ _ => apply wlp_bind
  | |- wlp (ret _) _ _ => apply wlp_ret
  | |- wlp (gets _) _ _ => apply wlp_gets
  | |- wlp (when _ _) _ _ => unfold when
  | |- wlp (if nonnull ?r then _ else _) _ _ => destruct r
  | |- wlp (if negb (nonnull ?r) then _ else _) _ _ => destruct r
  | |- wlp (if nonnull ?r && _ then _ else _) _ _ => destruct r
  | |- wlp (if ?c then _ else _) _ _ => destruct c
  | |- wlp (match ?tk with ENDFILE => _ | _ => _ end) _ _ => destruct tk
  | |- wlp (newStmtNode _) _ _ => unfold newStmtNode
  | |- wlp (newExpNode _) _ _ => unfold newExpNode
  | |- wlp (alloc_node _) _ _ =>
      apply fw_alloc; [assumption | intros ? ? ? | intros ? ? ?]
  | |- wlp (match_ _) _ _ => apply fw_match; [assumption | intros ? ? ?]
  | |- wlp advance _ _ => apply fw_advance; [assumption | intros ? ? ?]
  | |- wlp (syntaxError _) _ _ =>
      apply fw_syntaxError; [assumption | intros ? ? ?]
  | |- wlp (printToken _ _) _ _ =>
      apply fw_printToken; [assumption | intros ? ? ?]
  | |- wlp (set_child _ _ _) _ _ =>
      apply fw_set_child; [assumption | intros ? ? ?]
  | |- wlp (set_sibling _ _) _ _ =>
      apply fw_set_sibling; [assumption | solve_forward | intros ? ? ?]
  | |- wlp (set_name _ _) _ _ => unfold set_name
  | |- wlp (set_val _ _) _ _ => unfold set_val
  | |- wlp (set_op _ _) _ _ => unfold set_op
  | |- wlp (store _ (with_attr _)) _ _ =>
      apply fw_set_attr; [assumption | intros ? ? ?]
  | |- wlp (get_name _) _ _ => apply acc_get_name; intros ?
  | |- wlp (run _ ?c) _ _ =>
      apply fw_call;
      [ apply IH; [wf_args | assumption] | wf_args | intros ? ? ? ? ? ? ]
  end.

(** Every procedure leaves a heap whose sibling links point forward as
    one. *)
Lemma run_forward (fuel : nat) :
  forall c st, args_valid c st -> heap_forward st ->
    wlp (run fuel c) (fun _ st' => heap_forward st') st.
Proof.
  induction fuel as [| f IH]; intros c st Hargs Hfw; [exact I |].
  change (run (S f) c) with (body (run f) c).
  destruct c; split_args Hargs; unfold_body.
  all: repeat fw_step IH.
  all: assumption.
Qed.

(** In a heap whose sibling links point forward and stay inside the
    heap, following them from any node reaches NULL, visiting no node
    twice. *)
Lemma forward_chain (h : list TreeNode) :
  (forall i n j, h !! i = Some n -> sibling n = Some j ->
                 i < j /\ j < length h) ->
  forall k q, length h - q <= k -> q < length h ->
    exists l, chain h (Some q) l /\ NoDup l /\ Forall (le q) l.
Proof.
  intros Hh. induction k as [| k IH]; intros q Hk Hq; [lia |].
  destruct (lookup_lt_is_Some_2 h q Hq) as [n Hn].
  destruct (sibling n) as [j |] eqn:Hs.
  - destruct (Hh q n j Hn Hs) as [Hqj Hj].
    destruct (IH j ltac:(lia) Hj) as (l & Hc & Hnd & Hge).
    exists (q :: l). split; [| split].
    + split; [reflexivity |]. exists n. split; [exact Hn |].
      rewrite Hs. exact Hc.
    + apply NoDup_cons. split; [| exact Hnd].
      intros Hin. rewrite List.Forall_forall in Hge.
      apply list_elem_of_In in Hin. apply Hge in Hin. lia.
    + constructor; [lia |].
      eapply List.Forall_impl; [| exact Hge]. intros x Hx. lia.
  - exists [q]. split; [| split].
    + split; [reflexivity |]. exists n. split; [exact Hn |].
      rewrite Hs. reflexivity.
    + apply NoDup_singleton.
    + constructor; [lia | constructor].
Qed.

Lemma parse_closed_forward (fuel : nat) toks oracle r st' :
  parse fuel (initial toks oracle) = Ok r st' ->
  heap_closed st' /\ heap_forward st'.
Proof.
  intros E. rewrite parse_unfold in E.
  destruct (run fuel PStmtSequence (after_advance (initial toks oracle)))
    as [t st1 | |] eqn:E1; try discriminate.
  assert (Hargs : args_valid PStmtSequence
                    (after_advance (initial toks oracle)))
    by constructor.
  assert (Hcl0 : heap_closed (after_advance (initial toks oracle))).
  { eapply heap_closed_same; [apply after_advance_heap |].
    intros q n Hq. destruct q; discriminate Hq. }
  assert (Hfw0 : heap_forward (after_advance (initial toks oracle))).
  { eapply heap_forward_same; [apply after_advance_heap |].
    intros q n j Hq. destruct q; discriminate Hq. }
  pose proof (@wlp_elim _ _ _ _ _ _ (@run_closed fuel _ _ Hargs Hcl0) E1)
    as Hcl.
  pose proof (@wlp_elim _ _ _ _ _ _ (@run_forward fuel _ _ Hargs Hfw0) E1)
    as Hfw.
  destruct (tok_eqb (token st1) ENDFILE); injection E as _ <-.
  - split; assumption.
  - split.
    + eapply heap_closed_same; [reflexivity | exact Hcl].
    + eapply heap_forward_same; [reflexivity | exact Hfw].
Qed.

(** X15. Sibling links point forward.  A node's sibling is always a
    node allocated after it: if that holds when a procedure is
    entered, it holds when the procedure returns, and it holds of the
    heap [parse] leaves for every input and every allocator.  So in
    the tree [parse] returns, following [sibling] from any node (the
    root, an argument list, a declaration list) reaches NULL and
    passes no node twice. *)
Theorem sibling_links_point_forward :
  (forall fuel c st r st',
     args_valid c st -> heap_forward st ->
     run fuel c st = Ok r st' -> heap_forward st') /\
  (forall fuel toks oracle r st',
     parse fuel (initial toks oracle) = Ok r st' ->
     heap_forward st' /\
     forall q, q < hlen st' ->
       exists l, chain (heap st') (Some q) l /\ NoDup l).
Proof.
  split.
  - intros fuel c st r st' Hargs Hfw E.
    exact (@wlp_elim _ _ _ _ _ _ (@run_forward fuel c st Hargs Hfw) E).
  - intros fuel toks oracle r st' E.
    destruct (parse_closed_forward _ _ _ E) as (Hcl & Hfw).
    split; [exact Hfw |].
    intros q Hq.
    destruct (@forward_chain (heap st')
                ltac:(intros i n j Hn Hs; split;
                      [exact (Hfw i n j Hn Hs) |];
                      destruct (Hcl i n Hn) as (_ & Hlt & _);
                      rewrite Hs in Hlt; exact Hlt)
                (hlen st') q ltac:(unfold hlen; lia) Hq)
      as (l & Hc & Hnd & _).
    exists l. split; assumption.
Qed.

Lemma sibling_links_point_forward_witness :
  let toks := [tok VAR "var"; tok ID "a"; tok COMMA ","; tok ID "b";
               tok COMMA ","; tok ID "c"; tok SEMI ";";
               tok READ "read"; tok ID "a"] in
  exists r st' l, parse 40 (initial toks never_fails) = Ok r st' /\
    chain (heap st') (Some 1) l /\ NoDup l.
Proof.
  intros toks.
  assert (E : exists r st', parse 40 (initial toks never_fails) = Ok r st')
    by (vm_compute; eauto).
  destruct E as (r & st' & E).
  destruct (proj2 sibling_links_point_forward _ _ _ _ _ E) as (_ & H).
  destruct (H 1) as (l & Hc & Hnd).
  { vm_compute in E. injection E as _ <-. vm_compute. lia. }
  exists r, st', l. split; [exact E |]. split; assumption.
Defined.

(** ** The forms of an assignment *)

Lemma callee_named_listing kind st :
  diagnostics (callee_named kind st) = diagnostics st /\
  Error (callee_named kind st) = Error st /\
  input (callee_named kind st) = tail (input st).
Proof.
  unfold callee_named. rewrite put_fresh.
  unfold diagnostics, after_advance, scan_next; simpl.
  destruct (input st); repeat split.
Qed.

(** X16. What [assign_stmt] makes of an identifier, by the token that
    follows it (the call form is the subject of C8).
    - Anything but [[], [:=] and [(]: the identifier alone is a
      statement.  An [Assign] node with the name and no children is
      returned, one token is consumed and nothing is reported.
    - [:=]: child 0 is what [value_exp] returns.
    - [[]: child 0 is what [dim_exp] returns, and if [:=] follows
      the dimensions, child 1 is what [value_exp] returns. *)
Theorem assign_stmt_forms (f : nat) st :
  token st = ID ->
  alloc_ok st (nalloc st) = true ->
  let p := hlen st in
  let name := copyString (tokenString st) in
  let st1 := callee_named (StmtK AssignK) st in
  (continues_assignment (scan_kind st) = false ->
   run (S f) PAssignStmt st = Ok (Some p) st1 /\
   heap st1 !! p = Some (assign_cell name None None) /\
   diagnostics st1 = diagnostics st /\ Error st1 = Error st /\
   input st1 = tail (input st)) /\
  (scan_kind st = ASSIGN ->
   forall v st2,
     run f PValueExp st1 = Ok v st2 ->
     run (S f) PAssignStmt st = Ok (Some p) (put p (with_child 0 v) st2) /\
     heap (put p (with_child 0 v) st2) !! p
       = Some (assign_cell name v None)) /\
  (scan_kind st = LMBRACKET ->
   forall d st2,
     run f (PDimExp true) st1 = Ok d st2 ->
     let st3 := put p (with_child 0 d) st2 in
     (token st2 <> ASSIGN ->
      run (S f) PAssignStmt st = Ok (Some p) st3 /\
      heap st3 !! p = Some (assign_cell name d None)) /\
     (token st2 = ASSIGN ->
      forall v st4,
        run f PValueExp st3 = Ok v st4 ->
        run (S f) PAssignStmt st = Ok (Some p) (put p (with_child 1 v) st4) /\
        heap (put p (with_child 1 v) st4) !! p
          = Some (assign_cell name d v))).
Proof.
  intros Ht Hok p name st1.
  destruct (callee_named_facts (StmtK AssignK) st)
    as (Htok & Hlen & Hcell & Hold).
  fold st1 in Htok, Hlen, Hcell, Hold. fold p in Hcell. fold name in Hcell.
  assert (Hrun : forall k : ptr -> M ptr,
             (t <- newStmtNode AssignK ;;
              tk <- gets token ;;
              when (nonnull t && tok_eqb tk ID)
                (ts <- gets tokenString ;; set_name t (copyString ts)) ;;
              match_ ID ;;
              k t)%parser st = k (Some p) st1).
  { intros k. apply name_and_consume; assumption. }
  change (run (S f) PAssignStmt) with (assign_stmt (run f)).
  unfold assign_stmt.
  split; [| split].
  - intros Hc. unfold continues_assignment in Hc.
    apply orb_false_elim in Hc as [Hc H3].
    apply orb_false_elim in Hc as [H1 H2].
    split.
    + rewrite Hrun. unfold bind at 1. unfold gets at 1.
      rewrite Htok, H1, H2, H3. reflexivity.
    + split; [exact Hcell |]. apply callee_named_listing.
  - intros Hk v st2 E.
    assert (Hc2 : heap st2 !! p
                  = Some (with_attr (AttrName name)
                            (blank_node (StmtK AssignK)))).
    { eapply run_closed_frame; try exact E; try reflexivity. exact Hcell. }
    split.
    + rewrite Hrun. unfold bind at 1. unfold gets at 1.
      rewrite Htok, Hk.
      change (tok_eqb ASSIGN LMBRACKET) with false.
      change (tok_eqb ASSIGN ASSIGN) with true. cbv iota.
      cbn [nonnull]. unfold when.
      unfold bind at 1. unfold bind at 1. rewrite E.
      unfold set_child. erewrite store_put by exact Hc2. reflexivity.
    + erewrite put_cell by exact Hc2. reflexivity.
  - intros Hk d st2 E. set (st3 := put p (with_child 0 d) st2).
    assert (Hc2 : heap st2 !! p
                  = Some (with_attr (AttrName name)
                            (blank_node (StmtK AssignK)))).
    { eapply run_closed_frame; try exact E; try reflexivity. exact Hcell. }
    assert (Hc3 : heap st3 !! p = Some (assign_cell name d None)).
    { unfold st3. erewrite put_cell by exact Hc2. reflexivity. }
    assert (Hhead : forall k : M ptr,
               (d0 <- run f (PDimExp true) ;;
                set_child (Some p) 0 d0 ;; k)%parser st1 = k st3).
    { intros k. unfold bind at 1. rewrite E.
      unfold bind at 1. unfold set_child.
      erewrite store_put by exact Hc2. reflexivity. }
    split.
    + intros Hna. split; [| exact Hc3].
      rewrite Hrun. unfold bind at 1. unfold gets at 1.
      rewrite Htok, Hk.
      change (tok_eqb LMBRACKET LMBRACKET) with true. cbv iota.
      rewrite Hhead.
      unfold bind at 1. unfold gets at 1.
      unfold st3 at 1. rewrite put_token.
      apply tok_eqb_neq in Hna. rewrite Hna. reflexivity.
    + intros Ha v st4 E4.
      assert (Hc4 : heap st4 !! p = Some (assign_cell name d None)).
      { eapply run_closed_frame; try exact E4; try reflexivity. exact Hc3. }
      split.
      * rewrite Hrun. unfold bind at 1. unfold gets at 1.
        rewrite Htok, Hk.
        change (tok_eqb LMBRACKET LMBRACKET) with true. cbv iota.
        rewrite Hhead.
        unfold bind at 1. unfold gets at 1.
        unfold st3 at 1. rewrite put_token.
        apply tok_eqb_eq in Ha. rewrite Ha. unfold when.
        unfold bind at 1. unfold bind at 1. rewrite E4.
        unfold set_child. erewrite store_put by exact Hc4. reflexivity.
      * erewrite put_cell by exact Hc4. reflexivity.
Qed.

Lemma assign_stmt_forms_witness :
  let bare := looking_at (tok ID "x") [tok SEMI ";"; tok READ "read"]
                never_fails in
  let assign := looking_at (tok ID "x") [tok ASSIGN ":="; tok NUM "1"]
                  never_fails in
  (exists st1, run 1 PAssignStmt bare = Ok (Some 0) st1 /\
               heap st1 !! 0 = Some (assign_cell "x" None None) /\
               diagnostics st1 = 0 /\ token st1 = SEMI) /\
  (exists v st2, run 8 PAssignStmt assign = Ok (Some 0) st2 /\
                 heap st2 !! 0 = Some (assign_cell "x" v None) /\
                 v <> None).
Proof.
  intros bare assign. split.
  - destruct (@assign_stmt_forms 0 bare eq_refl eq_refl) as (H & _).
    destruct (H eq_refl) as (E & Hc & Hd & _).
    eexists. split; [exact E |]. split; [exact Hc |].
    split; [exact Hd | reflexivity].
  - destruct (@assign_stmt_forms 7 assign eq_refl eq_refl) as (_ & H & _).
    edestruct (H eq_refl) as (E & Hc); [vm_compute; reflexivity |].
    eexists _, _. split; [exact E |]. split; [exact Hc | discriminate].
Defined.

(** ** Lists of identifiers *)

Lemma put_heap_alter p f st : heap (put p f st) = alter f p (heap st).
Proof.
  unfold put. destruct (heap st !! p) as [n |] eqn:E; simpl.
  - revert p E. induction (heap st) as [| a h IH]; intros [| p] E;
      simpl in *; try discriminate.
    + injection E as ->. reflexivity.
    + f_equal. apply IH. exact E.
  - revert p E. induction (heap st) as [| a h IH]; intros [| p] E;
      simpl in *; try discriminate; try reflexivity.
    f_equal. apply IH. exact E.
Qed.

Lemma put_input p f st : input (put p f st) = input st.
Proof. unfold put. destruct (heap st !! p); reflexivity. Qed.

(** What reading one token does to the scanner, and to nothing else. *)
Lemma after_advance_reads toks st :
  input st = toks ->
  token (after_advance st) = kind_of toks /\
  input (after_advance st) = tail toks /\
  (toks <> [] -> reading toks (after_advance st)) /\
  heap (after_advance st) = heap st /\
  listing (after_advance st) = listing st /\
  Error (after_advance st) = Error st /\
  alloc_ok (after_advance st) = alloc_ok st /\
  nalloc (after_advance st) = nalloc st.
Proof.
  intros E. unfold after_advance, scan_next, scan_kind. rewrite E.
  destruct toks as [| tk rest]; simpl; repeat split; congruence.
Qed.

(** The state after [var_list] has made the [Id] node for the
    identifier under the lookahead and linked it behind [lst]. *)
Lemma var_name_linked n rest0 lst st :
  token st = ID -> tokenString st = n -> input st = rest0 ->
  ptr_lt (hlen st) lst ->
  let st2 := appended lst (hlen st) (callee_named (ExpK IdK) st) in
  heap st2 = link_last lst (hlen st) (heap st) ++ [id_cell n] /\
  token st2 = kind_of rest0 /\ input st2 = tail rest0 /\
  (rest0 <> [] -> reading rest0 st2) /\
  listing st2 = listing st /\ Error st2 = Error st /\
  alloc_ok st2 = alloc_ok st /\ nalloc st2 = S (nalloc st).
Proof.
  intros Ht Hs Hi Hlst st2.
  assert (H1 : callee_named (ExpK IdK) st
               = after_advance
                   (set_heap (heap st ++ [id_cell n]) (count_alloc st))).
  { unfold callee_named. rewrite put_fresh. unfold copyString.
    rewrite Hs. reflexivity. }
  destruct (@after_advance_reads rest0
              (set_heap (heap st ++ [id_cell n]) (count_alloc st)) Hi)
    as (A1 & A2 & A3 & A4 & A5 & A6 & A7 & A8).
  cbn [heap listing Error alloc_ok nalloc set_heap count_alloc]
    in A4, A5, A6, A7, A8.
  rewrite <- H1 in A1, A2, A3, A4, A5, A6, A7, A8.
  remember (callee_named (ExpK IdK) st) as st1 eqn:E1. clear H1 E1.
  unfold st2. destruct lst as [i |]; simpl.
  - destruct (put_scalars i (with_sibling (Some (hlen st))) st1)
      as (B1 & B2 & B3 & B4 & B5 & B6).
    rewrite put_heap_alter, put_input, A4, B1, B3, B4, B5, B6.
    split; [apply alter_app_l; exact Hlst |].
    repeat (split; [assumption |]). split; [| auto].
    intros Hne. specialize (A3 Hne).
    destruct rest0 as [| tk r]; [contradiction |].
    destruct A3 as (C1 & C2 & C3). simpl.
    rewrite B1, B2, put_input. auto.
  - repeat (split; [assumption |]). exact A8.
Qed.

(** One round of the loop of [var_list] on an identifier that is
    followed by neither an initialiser nor a dimension. *)
Lemma var_loop_name (f : nat) e root lst st :
  token st = ID ->
  alloc_ok st (nalloc st) = true ->
  ptr_lt (hlen st) lst ->
  declaration_goes_on (scan_kind st) = false ->
  let p := hlen st in
  let root' := root_after root lst p in
  run (S f) (PVarListLoop e root lst) st =
    after_argument (run f (PVarListLoop e root' (Some p))) root'
      (appended lst p (callee_named (ExpK IdK) st)).
Proof.
  intros Ht Hok Hlst Hgo p root'.
  destruct (callee_named_facts (ExpK IdK) st) as (Htok & _ & _ & Hold).
  apply orb_false_elim in Hgo as [G1 G2].
  change (run (S f) (PVarListLoop e root lst))
    with (var_list_loop (run f) e root lst).
  unfold var_list_loop. cbv zeta.
  unfold bind at 1. unfold gets at 1. rewrite Ht.
  change (tok_eqb ID ID) with true. cbv iota.
  unfold bind at 1. unfold newExpNode.
  rewrite alloc_node_ok by exact Hok.
  unfold bind at 1. unfold gets at 1.
  rewrite alloc_state_token, Ht.
  change (tok_eqb ID ID) with true. cbn [nonnull andb].
  unfold bind at 1. unfold gets at 1. rewrite alloc_state_tokenString.
  unfold bind at 1. unfold set_name.
  erewrite store_put by apply alloc_state_cell.
  unfold bind at 1. rewrite match_eq.
  rewrite after_match_hit
    by (rewrite put_token, alloc_state_token; exact Ht).
  fold (callee_named (ExpK IdK) st). fold p.
  remember (callee_named (ExpK IdK) st) as st1 eqn:E1.
  assert (Hfin : forall (r : ptr) s,
             token s = scan_kind st ->
             (tk2 <- gets token ;;
              (if tok_eqb tk2 ASSIGN
               then v <- run f PValueExp ;; set_child (Some p) 0 v
               else
                 if tok_eqb tk2 LMBRACKET
                 then
                   d <- run f (PDimExp e) ;;
                   set_child (Some p) 0 d ;;
                   tk3 <- gets token ;;
                   when (tok_eqb tk3 ASSIGN && e)
                     (m <- run f PMultiValueExp ;; set_child (Some p) 1 m)
                 else ret tt) ;;
              tk4 <- gets token ;;
              if tok_eqb tk4 COMMA
              then match_ COMMA ;; run f (PVarListLoop e r (Some p))
              else ret r)%parser s
             = after_argument (run f (PVarListLoop e r (Some p))) r s).
  { intros r s Hs.
    unfold bind at 1. unfold gets at 1. rewrite Hs, G1, G2.
    unfold bind at 1. unfold ret at 1.
    unfold bind at 1. unfold gets at 1. unfold after_argument.
    destruct (tok_eqb (token s) COMMA) eqn:EC; [| reflexivity].
    unfold bind. rewrite match_eq.
    rewrite after_match_hit by (apply tok_eqb_eq; exact EC). reflexivity. }
  destruct lst as [i |]; cbn [nonnull negb].
  - simpl in Hlst.
    destruct (lookup_lt_is_Some_2 (heap st) i Hlst) as [ni Hni].
    unfold bind at 1. unfold set_sibling.
    erewrite store_put by (apply Hold; exact Hni).
    unfold root', root_after, appended.
    apply Hfin. rewrite put_token. exact Htok.
  - unfold root', root_after, appended. apply Hfin. exact Htok.
Qed.

Lemma var_loop_stops (f : nat) e root lst st :
  token st <> ID -> run (S f) (PVarListLoop e root lst) st = Ok root st.
Proof.
  intros Ht.
  change (run (S f) (PVarListLoop e root lst))
    with (var_list_loop (run f) e root lst).
  unfold var_list_loop. cbv zeta. unfold bind, gets.
  apply tok_eqb_neq in Ht. rewrite Ht. reflexivity.
Qed.

Lemma id_cells_cons b n ns :
  ns <> [] ->
  id_cells b (n :: ns) = with_sibling (Some (S b)) (id_cell n) :: id_cells (S b) ns.
Proof. destruct ns; [contradiction | reflexivity]. Qed.

Lemma id_list_nonempty names toks :
  names <> [] -> id_list names toks -> toks <> [].
Proof.
  destruct names as [| n ns]; [contradiction |].
  destruct toks; [intros _ [] | discriminate].
Qed.

(** The loop of [var_list] on [n1 , ... , nk]. *)
Lemma var_loop_identifiers (names : list string) :
  forall toks fuel e root lst st rest,
    names <> [] -> id_list names toks -> length names < fuel ->
    reading (toks ++ rest) st ->
    list_ends rest ->
    (forall k, k < length names -> alloc_ok st (nalloc st + k) = true) ->
    ptr_lt (hlen st) lst ->
    exists st',
      run fuel (PVarListLoop e root lst) st
        = Ok (root_after root lst (hlen st)) st' /\
      heap st' = link_last lst (hlen st) (heap st)
                 ++ id_cells (hlen st) names /\
      token st' = kind_of (after_list rest) /\
      input st' = tail (after_list rest) /\
      listing st' = listing st /\ Error st' = Error st /\
      alloc_ok st' = alloc_ok st /\
      nalloc st' = nalloc st + length names.
Proof.
  induction names as [| n ns IH];
    intros toks fuel e root lst st rest Hne Hid Hfuel Hrd Hend Hok Hlst;
    [contradiction |].
  destruct fuel as [| f]; [simpl in Hfuel; lia |].
  destruct toks as [| t0 toks1]; [destruct Hid |].
  destruct Hid as (Hk0 & Hn0 & Hid).
  destruct Hrd as (Ht & Hs & Hi).
  rewrite Hk0 in Ht. rewrite Hn0 in Hs.
  assert (Hok0 : alloc_ok st (nalloc st) = true).
  { specialize (Hok 0 ltac:(simpl; lia)). rewrite Nat.add_0_r in Hok.
    exact Hok. }
  pose proof (@var_name_linked n _ lst st Ht Hs Hi Hlst) as HB.
  cbv zeta in HB.
  destruct HB as (B1 & B2 & B3 & B4 & B5 & B6 & B7 & B8).
  destruct ns as [| n2 ns'].
  - (* the last identifier *)
    subst toks1. cbn [app] in Hi, B2, B3, B4.
    assert (Hgo : declaration_goes_on (scan_kind st) = false).
    { unfold scan_kind. rewrite Hi. exact (proj1 Hend). }
    rewrite (@var_loop_name f e root lst st Ht Hok0 Hlst Hgo).
    remember (appended lst (hlen st) (callee_named (ExpK IdK) st)) as st2
      eqn:E2. clear E2.
    unfold after_argument.
    simpl in Hfuel. rewrite B2.
    unfold after_list.
    destruct (tok_eqb (kind_of rest) COMMA) eqn:EC.
    + (* a trailing comma *)
      apply tok_eqb_eq in EC.
      destruct f as [| f']; [lia |].
      destruct (@after_advance_reads (tail rest) st2 B3)
        as (A1 & A2 & _ & A4 & A5 & A6 & A7 & A8).
      rewrite var_loop_stops
        by (rewrite A1; exact (proj2 Hend EC)).
      eexists. split; [reflexivity |].
      rewrite A1, A2, A4, A5, A6, A7, A8, B1, B5, B6, B7, B8.
      simpl. repeat split; try reflexivity. lia.
    + eexists. split; [reflexivity |].
      rewrite B1, B2, B3, B5, B6, B7, B8.
      simpl. repeat split; try reflexivity. lia.
  - (* more identifiers follow the comma *)
    destruct toks1 as [| c toks2]; [destruct Hid |].
    destruct Hid as (Hc & Hid).
    cbn [app] in Hi, B2, B3, B4.
    assert (Hgo : declaration_goes_on (scan_kind st) = false).
    { unfold scan_kind. rewrite Hi. cbn [tok_kind]. rewrite Hc.
      reflexivity. }
    rewrite (@var_loop_name f e root lst st Ht Hok0 Hlst Hgo).
    remember (appended lst (hlen st) (callee_named (ExpK IdK) st)) as st2
      eqn:E2. clear E2.
    unfold after_argument.
    rewrite B2. cbn [kind_of]. rewrite Hc.
    change (tok_eqb COMMA COMMA) with true. cbv iota.
    cbn [tail] in B3.
    destruct (@after_advance_reads (toks2 ++ rest) st2 B3)
      as (A1 & A2 & A3 & A4 & A5 & A6 & A7 & A8).
    assert (Hne2 : toks2 ++ rest <> []).
    { pose proof (@id_list_nonempty (n2 :: ns') toks2
                    ltac:(discriminate) Hid) as H2.
      destruct toks2; [contradiction | discriminate]. }
    specialize (A3 Hne2).
    remember (after_advance st2) as st3 eqn:E3. clear E3.
    assert (Hlen3 : hlen st3 = S (hlen st)).
    { unfold hlen. rewrite A4, B1, length_app. simpl.
      destruct lst as [i |]; simpl; [rewrite length_alter |]; lia. }
    destruct (IH toks2 f e (root_after root lst (hlen st)) (Some (hlen st))
                st3 rest)
      as (st' & E & C1 & C2 & C3 & C4 & C5 & C6 & C7).
    + discriminate.
    + exact Hid.
    + simpl in Hfuel |- *. lia.
    + exact A3.
    + exact Hend.
    + intros k Hk. rewrite A7, A8, B7, B8.
      replace (S (nalloc st) + k) with (nalloc st + S k) by lia.
      apply Hok. simpl in Hk |- *. lia.
    + simpl. lia.
    + exists st'. split; [exact E |].
      rewrite C1, C2, C3, C4, C5, C6, C7, Hlen3, A4, A5, A6, A7, A8,
        B1, B5, B6, B7, B8.
      split.
      * rewrite (@id_cells_cons (hlen st) n (n2 :: ns')) by discriminate.
        unfold link_last at 1.
        replace (hlen st) with
          (length (link_last lst (hlen st) (heap st))) at 2
          by (destruct lst; simpl; [rewrite length_alter |]; reflexivity).
        rewrite alter_app_last, <- app_assoc. reflexivity.
      * repeat split; try reflexivity. simpl. lia.
Qed.

(** X17. [var_list] on a list of plain identifiers.
    - On a lookahead that is not an identifier the list is empty:
      NULL is returned, nothing is consumed and nothing is reported.
    - On [n1 , n2 , ... , nk] (identifiers separated by commas, on
      whatever lines, followed by something that is neither an
      initialiser nor a dimension) it appends to the heap exactly [k]
      [Id] nodes, named [n1] ... [nk] in this order, each the sibling of
      the one before, and returns the first; it reports nothing and
      stops on the token after the list.  A comma after the last
      identifier that is not followed by another identifier is consumed
      without a diagnostic. *)
Theorem var_list_of_identifiers :
  (forall fuel e st,
     token st <> ID -> run (S (S fuel)) (PVarList e) st = Ok None st) /\
  (forall names toks fuel e st rest,
     names <> [] -> id_list names toks -> S (length names) < fuel ->
     reading (toks ++ rest) st ->
     list_ends rest ->
     (forall k, k < length names -> alloc_ok st (nalloc st + k) = true) ->
     exists st',
       run fuel (PVarList e) st = Ok (Some (hlen st)) st' /\
       heap st' = heap st ++ id_cells (hlen st) names /\
       token st' = kind_of (after_list rest) /\
       input st' = tail (after_list rest) /\
       listing st' = listing st /\ Error st' = Error st).
Proof.
  split.
  - intros fuel e st Ht.
    change (run (S (S fuel)) (PVarList e) st)
      with (run (S fuel) (PVarListLoop e None None) st).
    apply var_loop_stops. exact Ht.
  - intros names toks fuel e st rest Hne Hid Hfuel Hrd Hend Hok.
    destruct fuel as [| f]; [lia |].
    change (run (S f) (PVarList e) st)
      with (run f (PVarListLoop e None None) st).
    destruct (@var_loop_identifiers names toks f e None None st rest)
      as (st' & E & C1 & C2 & C3 & C4 & C5 & _);
      try assumption; [lia | exact I |].
    exists st'. split; [exact E |].
    simpl in C1. auto.
Qed.

Lemma var_list_of_identifiers_witness :
  let st := looking_at (mkToken ID "a" 3)
              [mkToken COMMA "," 3; mkToken ID "b" 4; mkToken COMMA "," 4;
               mkToken ID "c" 7; mkToken COMMA "," 7; mkToken RPAREN ")" 8]
              never_fails in
  run 2 (PVarList false) (looking_at (tok RPAREN ")") [] never_fails)
    = Ok None (looking_at (tok RPAREN ")") [] never_fails) /\
  exists st',
    run 5 (PVarList false) st = Ok (Some 0) st' /\
    heap st' = [with_sibling (Some 1) (id_cell "a");
                with_sibling (Some 2) (id_cell "b"); id_cell "c"] /\
    token st' = RPAREN /\ listing st' = [].
Proof.
  intros st. split.
  - apply (proj1 var_list_of_identifiers). discriminate.
  - destruct (proj2 var_list_of_identifiers ["a"; "b"; "c"]%string
                [mkToken ID "a" 3; mkToken COMMA "," 3; mkToken ID "b" 4;
                 mkToken COMMA "," 4; mkToken ID "c" 7]
                5 false st
                [mkToken COMMA "," 7; mkToken RPAREN ")" 8])
      as (st' & E & H1 & H2 & _ & H4 & _).
    + discriminate.
    + repeat split.
    + simpl. lia.
    + repeat split.
    + split; [reflexivity |]. intros _. discriminate.
    + intros k _. reflexivity.
    + exists st'. split; [exact E |]. split; [exact H1 |].
      split; [exact H2 | exact H4].
Defined.

(** ** The node a form is built on *)

Lemma wlp_alloc_ok k (Q : ptr -> State -> Prop) st :
  alloc_ok st (nalloc st) = true ->
  Q (Some (hlen st)) (alloc_state k st) ->
  wlp (alloc_node k) Q st.
Proof. intros Hok H. unfold wlp, alloc_node. rewrite Hok. exact H. Qed.





(** ** A [read] statement *)

Lemma after_mismatch_facts x st :
  heap (after_mismatch x st) = heap st /\
  input (after_mismatch x st) = input st /\
  token (after_mismatch x st) = token st /\
  Error (after_mismatch x st) = true /\
  diagnostics (after_mismatch x st) = S (diagnostics st).
Proof.
  repeat split. apply diagnostics_after_mismatch.
Qed.

(** X19. [read_stmt], entered on [read] with its node allocated.
    - If an identifier follows, the [Read] node carries its text as
      name, both tokens are consumed and nothing is reported.
    - If anything else follows, the [Read] node is returned without a
      name, one syntax error is reported, and the offending token is
      left as the lookahead: only [read] has been consumed. *)
Theorem read_stmt_names_variable (f : nat) st :
  token st = READ ->
  alloc_ok st (nalloc st) = true ->
  (scan_kind st = ID ->
   exists st',
     run (S f) PReadStmt st = Ok (Some (hlen st)) st' /\
     heap st' = heap st ++ [read_cell (AttrName (scan_text st))] /\
     token st' = kind_of (tail (input st)) /\
     input st' = tail (tail (input st)) /\
     listing st' = listing st /\ Error st' = Error st) /\
  (scan_kind st <> ID ->
   exists st',
     run (S f) PReadStmt st = Ok (Some (hlen st)) st' /\
     heap st' = heap st ++ [read_cell AttrUnset] /\
     token st' = scan_kind st /\
     input st' = tail (input st) /\
     Error st' = true /\ diagnostics st' = S (diagnostics st)).
Proof.
  intros Ht Hok.
  assert (Hrun : run (S f) PReadStmt st =
                 (tk <- gets token ;;
                  when (nonnull (Some (hlen st)) && tok_eqb tk ID)
                    (ts <- gets tokenString ;;
                     set_name (Some (hlen st)) (copyString ts)) ;;
                  match_ ID ;;
                  ret (Some (hlen st)))%parser
                   (after_advance (alloc_state (StmtK ReadK) st))).
  { change (run (S f) PReadStmt) with read_stmt.
    unfold read_stmt. unfold bind at 1. unfold newStmtNode.
    rewrite alloc_node_ok by exact Hok.
    unfold bind at 1. rewrite match_eq.
    rewrite after_match_hit by (rewrite alloc_state_token; exact Ht).
    reflexivity. }
  destruct (@after_advance_reads (input st) (alloc_state (StmtK ReadK) st)
              eq_refl)
    as (A1 & A2 & _ & A4 & A5 & A6 & _).
  cbn [heap listing Error alloc_state count_alloc set_heap] in A4, A5, A6.
  assert (Ats : tokenString (after_advance (alloc_state (StmtK ReadK) st))
                = scan_text st).
  { unfold after_advance, scan_next, scan_text. simpl.
    destruct (input st); reflexivity. }
  assert (Ak : kind_of (input st) = scan_kind st) by reflexivity.
  remember (after_advance (alloc_state (StmtK ReadK) st)) as st1 eqn:E1.
  assert (Hcell : heap st1 !! hlen st = Some (blank_node (StmtK ReadK))).
  { rewrite A4. apply list_lookup_middle. reflexivity. }
  clear E1. rewrite Ak in A1.
  split.
  - intros Hid.
    assert (E : run (S f) PReadStmt st =
                Ok (Some (hlen st))
                   (after_advance
                      (put (hlen st) (with_attr (AttrName (scan_text st)))
                         st1))).
    { rewrite Hrun. unfold bind at 1. unfold gets at 1.
      rewrite A1, Hid. change (tok_eqb ID ID) with true.
      cbn [nonnull andb]. unfold when.
      unfold bind at 1. unfold bind at 1. unfold gets at 1.
      unfold set_name. erewrite store_put by exact Hcell.
      unfold bind at 1. rewrite match_eq.
      rewrite after_match_hit by (rewrite put_token, A1; exact Hid).
      rewrite Ats. reflexivity. }
    eexists. split; [exact E |].
    destruct (put_scalars (hlen st) (with_attr (AttrName (scan_text st))) st1)
      as (B1 & _ & B3 & B4 & _).
    destruct (@after_advance_reads (tail (input st))
                (put (hlen st) (with_attr (AttrName (scan_text st))) st1))
      as (C1 & C2 & _ & C4 & C5 & C6 & _);
      [rewrite put_input; exact A2 |].
    rewrite C1, C2, C4, C5, C6, B3, B4, A5, A6.
    split; [| auto].
    rewrite put_heap_alter, A4.
    replace (hlen st) with (length (heap st)) by reflexivity.
    rewrite alter_app_last. reflexivity.
  - intros Hid.
    exists (after_mismatch ID st1). split.
    + rewrite Hrun. unfold bind at 1. unfold gets at 1.
      rewrite A1. apply tok_eqb_neq in Hid. rewrite Hid.
      cbn [nonnull andb]. unfold when.
      unfold bind at 1. unfold ret at 1.
      unfold bind at 1. rewrite match_eq.
      rewrite after_match_miss
        by (rewrite A1; apply tok_eqb_neq; exact Hid).
      reflexivity.
    + destruct (after_mismatch_facts ID st1) as (-> & -> & -> & -> & ->).
      rewrite A4, A1, A2.
      repeat split. f_equal.
      unfold diagnostics. rewrite A5. reflexivity.
Qed.

Lemma read_stmt_names_variable_witness :
  (exists st',
     run 1 PReadStmt (looking_at (tok READ "read") [tok ID "x"] never_fails)
       = Ok (Some 0) st' /\
     heap st' = [read_cell (AttrName "x")] /\ Error st' = false) /\
  (exists st',
     run 1 PReadStmt (looking_at (tok READ "read") [tok NUM "1"] never_fails)
       = Ok (Some 0) st' /\
     heap st' = [read_cell AttrUnset] /\ token st' = NUM /\
     Error st' = true).
Proof.
  split.
  - destruct (@read_stmt_names_variable 0
                (looking_at (tok READ "read") [tok ID "x"] never_fails)
                eq_refl eq_refl) as (H & _).
    destruct (H eq_refl) as (st' & E & Hh & _ & _ & _ & He).
    exists st'. split; [exact E |]. split; [exact Hh | exact He].
  - destruct (@read_stmt_names_variable 0
                (looking_at (tok READ "read") [tok NUM "1"] never_fails)
                eq_refl eq_refl) as (_ & H).
    destruct H as (st' & E & Hh & Ht & _ & He & _); [discriminate |].
    exists st'. split; [exact E |]. split; [exact Hh |].
    split; [exact Ht | exact He].
Defined.

(** ** A sequence of statements *)

(** A node keeps its kind through every procedure. *)
Lemma run_keeps_kind (f : nat) c st r st1 q n :
  args_valid c st -> run f c st = Ok r st1 ->
  heap st !! q = Some n ->
  exists n', heap st1 !! q = Some n' /\ nodekind n' = nodekind n.
Proof.
  intros Hargs E Hn.
  assert (HP : Post c st r st1)
    by (eapply wlp_elim; [apply run_post; exact Hargs | exact E]).
  destruct HP as (HS & _).
  assert (Hq : q < base (ctx_of c st))
    by (simpl; eapply lookup_lt_Some; exact Hn).
  destruct (Steps_frame HS Hq Hn) as (n' & Hn' & K & _).
  exists n'. split; assumption.
Qed.

Lemma stmt_node_heap st st1 q :
  heap st1 = heap st -> stmt_node st q -> stmt_node st1 q.
Proof. intros E (n & Hn & K). exists n. rewrite E. auto. Qed.

Lemma stmt_node_run (f : nat) c st r st1 q :
  args_valid c st -> run f c st = Ok r st1 ->
  stmt_node st q -> stmt_node st1 q.
Proof.
  intros Hargs E (n & Hn & k & K).
  destruct (@run_keeps_kind f c st r st1 q n Hargs E Hn) as (n' & Hn' & K').
  exists n'. split; [exact Hn' |]. exists k. congruence.
Qed.

Lemma stmt_node_put p f st q :
  (forall n, nodekind (f n) = nodekind n) ->
  stmt_node st q -> stmt_node (put p f st) q.
Proof.
  intros Hf (n & Hn & k & K).
  destruct (Nat.eq_dec q p) as [-> | Hne].
  - exists (f n). split; [apply put_cell; exact Hn |].
    exists k. rewrite Hf. exact K.
  - exists n. split; [rewrite put_other by exact Hne; exact Hn |].
    exists k. exact K.
Qed.

Lemma stmt_node_linked t p q0 st q :
  stmt_node st q -> stmt_node (linked t p q0 st) q.
Proof.
  intros H. unfold linked. destruct t; [| exact H].
  destruct p; [| exact H]. apply stmt_node_put; [reflexivity | exact H].
Qed.

(** The loop of [stmt_sequence] only ever links statement nodes. *)
Lemma seq_loop_statements (fuel : nat) :
  forall t p st l r st',
    builds t p l st -> Forall (stmt_node st) l ->
    run fuel (PStmtSequenceLoop t p) st = Ok r st' ->
    exists l', chain (heap st') r (l ++ l') /\ NoDup (l ++ l') /\
               Forall (stmt_node st') (l ++ l').
Proof.
  induction fuel as [| f IH]; intros t p st l r st' HB HF E; [discriminate |].
  pose proof E as E0.
  rewrite seq_loop_unfold in E.
  destruct (seq_breaks (token st)) eqn:B.
  { injection E as <- <-. exists []. rewrite app_nil_r.
    destruct HB as (Hc & _ & Hnd). auto. }
  cbv zeta in E.
  assert (HF1 : Forall (stmt_node (skip_separator st)) l).
  { eapply List.Forall_impl; [| exact HF].
    intros q. apply stmt_node_heap, skip_separator_heap. }
  destruct (seq_breaks (token (skip_separator st))) eqn:B1.
  { injection E as <- <-. exists []. rewrite app_nil_r.
    destruct HB as (Hc & _ & Hnd). rewrite skip_separator_heap. auto. }
  destruct (run f PStatement (skip_separator st)) as [[q |] st2 | |] eqn:ES;
    try discriminate.
  - destruct (@seq_loop_links f t p st l q st2 HB B B1 ES) as (Eq & HB').
    rewrite Eq in E0.
    assert (HR : returns_stmt (skip_separator st) (Some q) st2)
      by (eapply wlp_elim; [apply statement_returns_stmt | exact ES]).
    destruct (HR q eq_refl) as (_ & nq & Hnq & _ & Hk).
    assert (HF' : Forall (stmt_node (linked t p q st2)) (l ++ [q])).
    { apply Forall_app. split.
      - eapply List.Forall_impl; [| exact HF1].
        intros i Hi. apply stmt_node_linked.
        eapply stmt_node_run; [| exact ES | exact Hi]. constructor.
      - constructor; [| constructor].
        apply stmt_node_linked. exists nq. split; assumption. }
    destruct (IH _ _ _ _ _ _ HB' HF' E0) as (l' & Hc' & Hnd' & HF2).
    exists (q :: l'). rewrite <- app_assoc in Hc', Hnd', HF2. auto.
  - destruct (@seq_loop_skips f t p st l st2 HB B B1 ES) as (Eq & HB').
    rewrite Eq in E0.
    assert (HF' : Forall (stmt_node st2) l).
    { eapply List.Forall_impl; [| exact HF1].
      intros i Hi.
      eapply stmt_node_run; [| exact ES | exact Hi]. constructor. }
    eapply IH; eassumption.
Qed.

Lemma stmt_sequence_statements (fuel : nat) st r st' :
  run fuel PStmtSequence st = Ok r st' ->
  exists l, chain (heap st') r l /\ NoDup l /\ Forall (stmt_node st') l.
Proof.
  intros E. destruct fuel as [| f]; [discriminate |].
  rewrite stmt_sequence_unfold in E.
  destruct (run f PStatement st) as [t st1 | |] eqn:ES; try discriminate.
  assert (HR : returns_stmt st t st1)
    by (eapply wlp_elim; [apply statement_returns_stmt | exact ES]).
  destruct t as [q |].
  - destruct (HR q eq_refl) as (_ & nq & Hnq & Hs & Hk).
    destruct (@seq_loop_statements f (Some q) (Some q) st1 [q] r st')
      as (l' & H); [| | exact E | exists ([q] ++ l'); exact H].
    + split; [| split; [reflexivity | apply NoDup_singleton]].
      split; [reflexivity |]. exists nq. split; [exact Hnq |].
      rewrite Hs. reflexivity.
    + constructor; [| constructor]. exists nq. split; assumption.
  - destruct (@seq_loop_statements f None None st1 [] r st')
      as (l' & H); [| constructor | exact E | exists l'; exact H].
    split; [reflexivity | split; [reflexivity | apply NoDup_nil_2]].
Qed.

(** X20. A statement sequence is a list of statements: the pointer
    [stmt_sequence] returns, and so the root [parse] returns, heads a
    sibling chain that ends in NULL, passes no node twice and consists
    of statement nodes only. *)
Theorem sequence_of_statement_nodes :
  (forall fuel st r st',
     run fuel PStmtSequence st = Ok r st' ->
     exists l, chain (heap st') r l /\ NoDup l /\
               Forall (stmt_node st') l) /\
  (forall fuel toks oracle r st',
     parse fuel (initial toks oracle) = Ok r st' ->
     exists l, chain (heap st') r l /\ NoDup l /\
               Forall (stmt_node st') l).
Proof.
  split; [exact stmt_sequence_statements |].
  intros fuel toks oracle r st' E. rewrite parse_unfold in E.
  destruct (run fuel PStmtSequence (after_advance (initial toks oracle)))
    as [t st1 | |] eqn:E1; try discriminate.
  destruct (@stmt_sequence_statements fuel _ _ _ E1) as (l & Hc & Hnd & HF).
  destruct (tok_eqb (token st1) ENDFILE); injection E as <- <-.
  - exists l. auto.
  - exists l. auto.
Qed.

Lemma sequence_of_statement_nodes_witness :
  let toks := [tok READ "read"; tok ID "x"; tok SEMI ";";
               tok RPAREN ")"; tok WRITE "write"; tok ID "x"] in
  exists r st' l, parse 30 (initial toks never_fails) = Ok r st' /\
    chain (heap st') r l /\ Forall (stmt_node st') l /\ r = Some 0.
Proof.
  intros toks.
  assert (E : exists st', parse 30 (initial toks never_fails)
                          = Ok (Some 0) st')
    by (vm_compute; eauto).
  destruct E as (st' & E).
  destruct (proj2 sequence_of_statement_nodes _ _ _ _ _ E)
    as (l & Hc & _ & HF).
  exists (Some 0), st', l. auto.
Defined.

(** ** The list of values of an array initialiser *)

Lemma always_ok_kept (fuel : nat) c : keeps always_ok (run fuel c).
Proof.
  apply run_keeps; unfold always_ok.
  - intros st H. apply always_ok_after_advance. exact H.
  - intros message st H. exact H.
  - intros tk text st H. exact H.
  - intros text st H. exact H.
  - intros k st H. exact H.
  - intros st H. exact H.
  - intros h st H. exact H.
Qed.

Lemma always_ok_match x st :
  always_ok st -> wlp (match_ x) (fun _ s => always_ok s) st.
Proof.
  intros H. unfold wlp. rewrite match_eq.
  apply always_ok_after_match. exact H.
Qed.

Lemma always_ok_store t f st :
  always_ok st -> wlp (store t f) (fun _ s => always_ok s) st.
Proof.
  intros H. unfold wlp, store. destruct t as [p |]; [| exact I].
  destruct (heap st !! p); [exact H | exact I].
Qed.

(** Once the list has a first node, that node is what the loop
    returns. *)
Lemma multi_loop_root (fuel : nat) :
  forall root lst st,
    always_ok st ->
    wlp (run fuel (PMultiValueLoop root lst))
        (fun r _ => r = if nonnull lst then root else Some (hlen st)) st.
Proof.
  induction fuel as [| f IH]; intros root lst st Hok; [exact I |].
  change (run (S f) (PMultiValueLoop root lst))
    with (multi_value_loop (run f) root lst).
  unfold multi_value_loop.
  apply wlp_bind. unfold newExpNode. apply wlp_alloc_ok; [apply Hok |].
  cbn [nonnull]. unfold when.
  apply wlp_bind.
  assert (Hok1 : always_ok (alloc_state (ExpK ValueK) st)) by exact Hok.
  apply wlp_conseq with (Q1 := fun _ s => always_ok s).
  { apply wlp_bind.
    eapply wlp_conseq; [apply always_ok_kept; exact Hok1 |].
    intros e s Hs. apply always_ok_store. exact Hs. }
  intros ? st2 Hok2.
  apply wlp_bind.
  apply wlp_conseq
    with (Q1 := fun r1 s =>
                  always_ok s /\
                  r1 = if nonnull lst then root else Some (hlen st)).
  { destruct lst as [i |]; cbn [nonnull negb].
    - apply wlp_bind.
      eapply wlp_conseq; [apply always_ok_store; exact Hok2 |].
      intros ? s Hs. apply wlp_ret. split; [exact Hs | reflexivity].
    - apply wlp_ret. split; [exact Hok2 | reflexivity]. }
  intros root1 st3 (Hok3 & ->).
  apply wlp_bind, wlp_gets.
  destruct (tok_eqb (token st3) COMMA).
  - apply wlp_bind.
    eapply wlp_conseq; [apply always_ok_match; exact Hok3 |].
    intros ? st4 Hok4.
    eapply wlp_conseq; [apply IH; exact Hok4 |].
    intros r ? ->. reflexivity.
  - apply wlp_ret. reflexivity.
Qed.

(** X21. The list of values is never empty.  With an allocator that
    does not fail, [multi_value_exp] returns the [Value] node it
    allocates first, whatever stands between the parentheses: for
    [= ( )] too a node is made (its child is what [exp] returns on
    the closing parenthesis, which is NULL). *)
Theorem multi_value_exp_returns_first (fuel : nat) st r st' :
  always_ok st ->
  run fuel PMultiValueExp st = Ok r st' ->
  r = Some (hlen st).
Proof.
  intros Hok E.
  assert (W : wlp (run fuel PMultiValueExp)
                (fun r _ => r = Some (hlen st)) st).
  { destruct fuel as [| f]; [exact I |].
    change (run (S f) PMultiValueExp) with (multi_value_exp (run f)).
    unfold multi_value_exp.
    apply wlp_bind.
    apply wlp_conseq
      with (Q1 := fun _ s => always_ok s /\ hlen s = hlen st).
    { unfold wlp. rewrite match_eq. split.
      - apply always_ok_after_match. exact Hok.
      - unfold hlen. rewrite after_match_heap. reflexivity. }
    intros ? st1 (Hok1 & Hl1).
    apply wlp_bind.
    apply wlp_conseq
      with (Q1 := fun _ s => always_ok s /\ hlen s = hlen st).
    { unfold wlp. rewrite match_eq. split.
      - apply always_ok_after_match. exact Hok1.
      - unfold hlen. rewrite after_match_heap. exact Hl1. }
    intros ? st2 (Hok2 & Hl2).
    apply wlp_bind.
    eapply wlp_conseq; [apply multi_loop_root; exact Hok2 |].
    intros root st3 ->. cbn [nonnull].
    apply wlp_bind. unfold wlp. rewrite match_eq.
    apply wlp_ret. rewrite Hl2. reflexivity. }
  exact (@wlp_elim _ _ _ _ _ _ W E).
Qed.

Lemma multi_value_exp_returns_first_witness :
  let st := looking_at (tok ASSIGN ":=") [tok LPAREN "("; tok RPAREN ")"]
              never_fails in
  exists st', run 8 PMultiValueExp st = Ok (Some 0) st' /\
              heap st' <> [] /\ Error st' = true.
Proof.
  intros st.
  assert (E : exists r st', run 8 PMultiValueExp st = Ok r st')
    by (vm_compute; eauto).
  destruct E as (r & st' & E).
  pose proof (@multi_value_exp_returns_first 8 st r st'
                ltac:(intros n; reflexivity) E) as ->.
  exists st'. split; [exact E |].
  vm_compute in E. injection E as <-. split; [discriminate | reflexivity].
Defined.

(** ** The kind of node behind every link *)

Lemma has_kind_weaken st p (c1 c2 : NodeKind -> bool) :
  (forall k, c1 k = true -> c2 k = true) ->
  has_kind st p c1 -> has_kind st p c2.
Proof.
  intros Hc. destruct p as [q |]; [| exact (fun H => H)].
  intros (n & Hn & K). exists n. split; [exact Hn | apply Hc; exact K].
Qed.

Lemma has_kind_kept a b p cls :
  kinds_kept a b -> has_kind a p cls -> has_kind b p cls.
Proof.
  intros Hk. destruct p as [q |]; [| exact (fun H => H)].
  intros (n & Hn & K). destruct (Hk q n Hn) as (n' & Hn' & E).
  exists n'. split; [exact Hn' | rewrite E; exact K].
Qed.

Lemma node_kinded_kept a b n :
  kinds_kept a b -> node_kinded a n -> node_kinded b n.
Proof.
  intros Hk (Hs & Hc). split.
  - eapply has_kind_kept; eassumption.
  - intros i c Hi. eapply has_kind_kept; [exact Hk | apply Hc; exact Hi].
Qed.

Lemma kinds_kept_same a b : heap b = heap a -> kinds_kept a b.
Proof. intros E q n Hn. exists n. rewrite E. auto. Qed.

Lemma heap_kinded_same a b :
  heap b = heap a -> heap_kinded a -> heap_kinded b.
Proof.
  intros E H q n Hn. rewrite E in Hn.
  eapply node_kinded_kept; [apply kinds_kept_same; exact E | exact (H q n Hn)].
Qed.

Lemma kinds_kept_alloc k st : kinds_kept st (alloc_state k st).
Proof.
  intros q n Hn. exists n. split; [| reflexivity].
  unfold alloc_state; simpl. apply lookup_app_l_Some. exact Hn.
Qed.

Lemma heap_kinded_alloc k st : heap_kinded st -> heap_kinded (alloc_state k st).
Proof.
  intros H q n Hq.
  unfold alloc_state in Hq; simpl in Hq.
  apply lookup_app_Some in Hq as [Hq | [_ Hq]].
  - eapply node_kinded_kept; [apply kinds_kept_alloc | exact (H q n Hq)].
  - destruct (q - length (heap st)); [| discriminate].
    injection Hq as <-. split; [exact I |].
    intros i c Hi.
    change (child (blank_node k)) with (replicate MAXCHILDREN (@None nat))
      in Hi.
    apply lookup_replicate in Hi as [-> _]. exact I.
Qed.

Lemma kinds_kept_store p n w st :
  heap st !! p = Some n ->
  kinds_kept st (set_heap (<[p := apply_write w n]> (heap st)) st).
Proof.
  intros Hp q m Hq. simpl.
  destruct (Nat.eq_dec p q) as [-> | Hne].
  - exists (apply_write w n). split.
    + apply list_lookup_insert_eq. eapply lookup_lt_Some; exact Hp.
    + rewrite Hp in Hq. injection Hq as <-. destruct w; reflexivity.
  - exists m. split; [| reflexivity].
    rewrite list_lookup_insert_ne by assumption. exact Hq.
Qed.

Lemma heap_kinded_store p n w st :
  heap_kinded st -> heap st !! p = Some n ->
  match w with
  | WChild i u => has_kind st u (child_kind (nodekind n) i)
  | WSibling u => has_kind st u (sibling_kind (nodekind n))
  | WAttr _ => True
  end ->
  heap_kinded (set_heap (<[p := apply_write w n]> (heap st)) st).
Proof.
  intros H Hp Hw q m Hq.
  pose proof (@kinds_kept_store p n w st Hp) as Hk.
  simpl in Hq.
  destruct (Nat.eq_dec p q) as [-> | Hne].
  - rewrite list_lookup_insert_eq in Hq
      by (eapply lookup_lt_Some; exact Hp).
    injection Hq as <-.
    destruct (H q n Hp) as (Hs & Hc).
    destruct w as [i u | u | a]; split;
      cbn [apply_write with_child with_sibling with_attr nodekind sibling
           child].
    + eapply has_kind_kept; eassumption.
    + intros j c Hj.
      destruct (Nat.eq_dec i j) as [<- | Hij].
      * assert (Hlt : i < length (child n)).
        { apply lookup_lt_Some in Hj. rewrite length_insert in Hj. exact Hj. }
        rewrite list_lookup_insert_eq in Hj by exact Hlt.
        injection Hj as <-. eapply has_kind_kept; eassumption.
      * rewrite list_lookup_insert_ne in Hj by assumption.
        eapply has_kind_kept; [exact Hk | apply Hc; exact Hj].
    + eapply has_kind_kept; eassumption.
    + intros j c Hj. eapply has_kind_kept; [exact Hk | apply Hc; exact Hj].
    + eapply has_kind_kept; eassumption.
    + intros j c Hj. eapply has_kind_kept; [exact Hk | apply Hc; exact Hj].
  - rewrite list_lookup_insert_ne in Hq by assumption.
    eapply node_kinded_kept; [exact Hk | exact (H q m Hq)].
Qed.

Lemma args_kinded_valid c st : args_kinded c st -> args_valid c st.
Proof.
  assert (L : forall p cls, has_kind st p cls -> ptr_lt (hlen st) p).
  { intros [q |] cls; [| exact (fun _ => I)]. intros (n & Hn & _).
    simpl. eapply lookup_lt_Some; exact Hn. }
  unfold args_valid, args_kinded. intros H.
  destruct c; cbn [ptr_args result_kind] in *;
    try (eapply List.Forall_impl; [| exact H]; intros ? Hp; eapply L;
         exact Hp).
  destruct H as [H1 H2].
  constructor; [eapply L; exact H1 |].
  constructor; [eapply L; exact H2 | constructor].
Qed.

Section Kinded.

Variable cur : State.
Hypothesis Hty : heap_kinded cur.
Hypothesis Hok : always_ok cur.

Lemma ty_alloc k (Q : ptr -> State -> Prop) :
  (forall st1, heap_kinded st1 -> always_ok st1 -> kinds_kept cur st1 ->
     has_kind st1 (Some (hlen cur)) (is_kind k) ->
     Q (Some (hlen cur)) st1) ->
  wlp (alloc_node k) Q cur.
Proof.
  intros H. apply wlp_alloc_ok; [apply Hok |].
  apply H.
  - apply heap_kinded_alloc. exact Hty.
  - exact Hok.
  - apply kinds_kept_alloc.
  - exists (blank_node k). split; [apply alloc_state_cell |].
    destruct k as [[] | []]; reflexivity.
Qed.

Lemma ty_match expected (Q : unit -> State -> Prop) :
  (forall st1, heap_kinded st1 -> always_ok st1 -> kinds_kept cur st1 ->
     Q tt st1) ->
  wlp (match_ expected) Q cur.
Proof.
  intros H. unfold wlp. rewrite match_eq. apply H.
  - eapply heap_kinded_same; [apply after_match_heap | exact Hty].
  - apply always_ok_after_match. exact Hok.
  - apply kinds_kept_same, after_match_heap.
Qed.

Lemma ty_advance (Q : unit -> State -> Prop) :
  (forall st1, heap_kinded st1 -> always_ok st1 -> kinds_kept cur st1 ->
     Q tt st1) ->
  wlp advance Q cur.
Proof.
  intros H. unfold wlp. rewrite advance_eq. apply H.
  - eapply heap_kinded_same; [apply after_advance_heap | exact Hty].
  - apply always_ok_after_advance. exact Hok.
  - apply kinds_kept_same, after_advance_heap.
Qed.

Lemma ty_syntaxError message (Q : unit -> State -> Prop) :
  (forall st1, heap_kinded st1 -> always_ok st1 -> kinds_kept cur st1 ->
     Q tt st1) ->
  wlp (syntaxError message) Q cur.
Proof.
  intros H. unfold wlp. rewrite syntaxError_eq. apply H.
  - eapply heap_kinded_same; [reflexivity | exact Hty].
  - exact Hok.
  - apply kinds_kept_same. reflexivity.
Qed.

Lemma ty_printToken tk text (Q : unit -> State -> Prop) :
  (forall st1, heap_kinded st1 -> always_ok st1 -> kinds_kept cur st1 ->
     Q tt st1) ->
  wlp (printToken tk text) Q cur.
Proof.
  intros H. apply H.
  - eapply heap_kinded_same; [reflexivity | exact Hty].
  - exact Hok.
  - apply kinds_kept_same. reflexivity.
Qed.

Lemma ty_store t w (Q : unit -> State -> Prop) :
  (forall n, t = Some n ->
     forall m, heap cur !! n = Some m ->
       match w with
       | WChild i u => has_kind cur u (child_kind (nodekind m) i)
       | WSibling u => has_kind cur u (sibling_kind (nodekind m))
       | WAttr _ => True
       end) ->
  (forall st1, heap_kinded st1 -> always_ok st1 -> kinds_kept cur st1 ->
     Q tt st1) ->
  wlp (store t (apply_write w)) Q cur.
Proof.
  intros Hw H. unfold wlp, store.
  destruct t as [p |]; [| exact I].
  destruct (heap cur !! p) as [n |] eqn:E; [| exact I].
  apply H.
  - apply heap_kinded_store; [exact Hty | exact E |].
    apply (Hw p eq_refl n E).
  - exact Hok.
  - apply kinds_kept_store. exact E.
Qed.

Lemma ty_set_child t i v ct cv (Q : unit -> State -> Prop) :
  has_kind cur t ct -> has_kind cur v cv ->
  (forall k1 k2, ct k1 = true -> cv k2 = true ->
                 child_kind k1 i k2 = true) ->
  (forall st1, heap_kinded st1 -> always_ok st1 -> kinds_kept cur st1 ->
     Q tt st1) ->
  wlp (set_child t i v) Q cur.
Proof.
  intros Ht Hv Hc. apply (@ty_store t (WChild i v)).
  intros n -> m Hm. destruct Ht as (m0 & Hm0 & K).
  rewrite Hm in Hm0. injection Hm0 as <-.
  eapply has_kind_weaken; [| exact Hv].
  intros k2 K2. apply Hc; assumption.
Qed.

Lemma ty_set_sibling t v ct cv (Q : unit -> State -> Prop) :
  has_kind cur t ct -> has_kind cur v cv ->
  (forall k1 k2, ct k1 = true -> cv k2 = true ->
                 sibling_kind k1 k2 = true) ->
  (forall st1, heap_kinded st1 -> always_ok st1 -> kinds_kept cur st1 ->
     Q tt st1) ->
  wlp (set_sibling t v) Q cur.
Proof.
  intros Ht Hv Hc. apply (@ty_store t (WSibling v)).
  intros n -> m Hm. destruct Ht as (m0 & Hm0 & K).
  rewrite Hm in Hm0. injection Hm0 as <-.
  eapply has_kind_weaken; [| exact Hv].
  intros k2 K2. apply Hc; assumption.
Qed.

Lemma ty_set_attr t a (Q : unit -> State -> Prop) :
  (forall st1, heap_kinded st1 -> always_ok st1 -> kinds_kept cur st1 ->
     Q tt st1) ->
  wlp (store t (with_attr a)) Q cur.
Proof. apply (@ty_store t (WAttr a)). intros; exact I. Qed.

Lemma ty_call (f : nat) c (Q : ptr -> State -> Prop) :
  wlp (run f c)
      (fun r st1 => heap_kinded st1 /\ has_kind st1 r (result_kind c)) cur ->
  args_kinded c cur ->
  (forall r st1, heap_kinded st1 -> always_ok st1 -> kinds_kept cur st1 ->
     has_kind st1 r (result_kind c) -> Q r st1) ->
  wlp (run f c) Q cur.
Proof.
  intros HI Hargs H.
  pose proof (@always_ok_kept f c cur Hok) as HA.
  unfold wlp in *.
  destruct (run f c cur) as [r st1 | |] eqn:E; try exact I.
  destruct HI as (HI1 & HI2).
  apply H; [exact HI1 | exact HA | | exact HI2].
  intros q n Hn.
  eapply run_keeps_kind; [apply args_kinded_valid; exact Hargs | exact E |].
  exact Hn.
Qed.

End Kinded.

Ltac kind_cases :=
  let k := fresh "k" in
  let K := fresh "K" in
  intros k K; destruct k as [[] | []];
  first [reflexivity | cbv in K; discriminate K].

Ltac kind_cases2 :=
  let k1 := fresh "k" in
  let k2 := fresh "k" in
  let K1 := fresh "K" in
  let K2 := fresh "K" in
  intros k1 k2 K1 K2;
  destruct k1 as [[] | []]; cbv in K1; try discriminate K1;
  destruct k2 as [[] | []];
  first [reflexivity | cbv in K2; discriminate K2].

Ltac solve_kind :=
  cbv beta; cbn [result_kind];
  lazymatch goal with
  | |- has_kind _ None _ => exact I
  | |- has_kind ?s ?p _ =>
      match goal with
      | H : has_kind s p _ |- _ =>
          solve [eapply has_kind_weaken; [| exact H]; kind_cases]
      end
  end.

Ltac find_kind :=
  lazymatch goal with
  | |- has_kind ?s None _ => exact (I : has_kind s None no_kind)
  | |- has_kind ?s ?p _ =>
      match goal with
      | H : has_kind s p _ |- _ => exact H
      end
  end.

Ltac solve_kinded_args :=
  unfold args_kinded; cbn [ptr_args result_kind];
  repeat lazymatch goal with
  | |- Forall _ [] => constructor
  | |- Forall _ (_ :: _) => constructor; [solve_kind |]
  | |- _ /\ _ => split; solve_kind
  end.

Ltac ty_next :=
  let s := fresh "s" in
  let Hs := fresh "Hty" in
  let Ho := fresh "Hok" in
  let Hx := fresh "Hext" in
  intros s Hs Ho Hx;
  repeat match goal with
  | H : has_kind ?a _ _ |- _ =>
      lazymatch type of Hx with
      | kinds_kept a _ =>
          let H' := fresh in
          pose proof (@has_kind_kept _ _ _ _ Hx H) as H'; clear H; rename H' into H
      end
  end;
  clear Hx.

Ltac split_kinded H :=
  unfold args_kinded in H; cbn [ptr_args result_kind] in H;
  repeat match type of H with
  | Forall _ (_ :: _) =>
      let H1 := fresh "Harg" in
      let H2 := fresh "Hargs" in
      pose proof (Forall_inv H) as H1;
      pose proof (Forall_inv_tail H) as H2;
      cbv beta in H1; clear H; rename H2 into H
  | _ /\ _ =>
      let H1 := fresh "Harg" in
      let H2 := fresh "Harg" in
      destruct H as [H1 H2]
  end.

Ltac ty_step IH :=
  cbv beta;
  cbn [nonnull andb orb negb];
  lazymatch goal with
  | |- wlp (bind _ _) _ _ => apply wlp_bind
  | |- wlp (ret _) _ _ => apply wlp_ret
  | |- wlp (gets _) _ _ => apply wlp_gets
  | |- wlp (when _ _) _ _ => unfold when
  | |- wlp (if nonnull ?r then _ else _) _ _ => destruct r
  | |- wlp (if negb (nonnull ?r) then _ else _) _ _ => destruct r
  | |- wlp (if nonnull ?r && _ then _ else _) _ _ => destruct r
  | |- wlp (if ?c then _ else _) _ _ => destruct c
  | |- wlp (match ?tk with ENDFILE => _ | _ => _ end) _ _ => destruct tk
  | |- wlp (newStmtNode _) _ _ => unfold newStmtNode
  | |- wlp (newExpNode _) _ _ => unfold newExpNode
  | |- wlp (alloc_node _) _ _ =>
      apply ty_alloc; [assumption | assumption | ty_next; intros ?]
  | |- wlp (match_ _) _ _ =>
      apply ty_match; [assumption | assumption | ty_next]
  | |- wlp advance _ _ =>
      apply ty_advance; [assumption | assumption | ty_next]
  | |- wlp (syntaxError _) _ _ =>
      apply ty_syntaxError; [assumption | assumption | ty_next]
  | |- wlp (printToken _ _) _ _ =>
      apply ty_printToken; [assumption | assumption | ty_next]
  | |- wlp (set_child _ _ _) _ _ =>
      eapply ty_set_child;
      [assumption | assumption | find_kind | find_kind | kind_cases2
      | ty_next]
  | |- wlp (set_sibling _ _) _ _ =>
      eapply ty_set_sibling;
      [assumption | assumption | find_kind | find_kind | kind_cases2
      | ty_next]
  | |- wlp (set_name _ _) _ _ => unfold set_name
  | |- wlp (set_val _ _) _ _ => unfold set_val
  | |- wlp (set_op _ _) _ _ => unfold set_op
  | |- wlp (store _ (with_attr _)) _ _ =>
      apply ty_set_attr; [assumption | assumption | ty_next]
  | |- wlp (get_name _) _ _ => apply acc_get_name; intros ?
  | |- wlp (run _ ?c) _ _ =>
      apply ty_call;
      [ assumption
      | apply IH; [assumption | assumption | solve_kinded_args]
      | solve_kinded_args
      | let r := fresh "r" in
        let Hr := fresh "Hr" in
        intros r; ty_next; intros Hr; cbn [result_kind] in Hr ]
  end.

(** With an allocator that does not fail, every procedure leaves a
    heap in which every link holds a node of the right kind as such a
    heap, and returns a node of its own kind. *)
Lemma run_kinded (fuel : nat) :
  forall c st, always_ok st -> heap_kinded st -> args_kinded c st ->
    wlp (run fuel c)
        (fun r st' => heap_kinded st' /\ has_kind st' r (result_kind c)) st.
Proof.
  induction fuel as [| f IH]; intros c st Hok Hty Hargs; [exact I |].
  change (run (S f) c) with (body (run f) c).
  destruct c; split_kinded Hargs; unfold_body.
  all: repeat ty_step IH.
  all: split; [assumption | solve_kind].
Qed.

(** X22. The tree is well-kinded.  With an allocator that does not
    fail, every child slot and every sibling link holds NULL or a node
    of the kind listed here ([child_kind], [sibling_kind]), where an
    expression node is an [Op], [Const], [Id] or [Call] node and a
    statement node is any node made by [newStmtNode]:
    - [If]: child 0 an expression node, children 1 and 2 statement
      nodes;
    - [Repeat]: child 0 a statement node, child 1 an expression node;
    - [While]: child 0 an expression node, child 1 a statement node;
    - [Write], [Return]: child 0 an expression node;
    - [Assign]: child 0 a [Dim] or [Value] node, child 1 a [Value]
      node;
    - [Var]: child 0 an [Id] node;
    - [Func]: child 0 a [Params] node, child 1 a statement node or an
      expression node (the body of a lambda is an expression);
    - [For]: child 0 an [Id] node, child 1 an expression node, child 2
      an [Assign] or [Call] node, child 3 a statement node;
    - [Call]: child 0 an expression node;
    - [Op]: children 0 and 1 expression nodes;
    - [Id]: child 0 a [Dim] or [Value] node, child 1 a [Value] node;
    - [Value]: child 0 an expression node or a [Func] node;
    - [Dim]: child 0 an expression node;
    - [Params]: child 0 an [Id] node;
    - every child slot not listed above (so every slot of a [Read] and
      of a [Const] node) is NULL;
    - the sibling of a [Call] node is a statement node or an expression
      node, that of any other statement node a statement node, that of
      an [Op], [Const] or [Id] node an expression node, that of a [Dim]
      node a [Dim] node, that of a [Value] node a [Value] node, and a
      [Params] node has no sibling.
    Every procedure keeps this, and returns NULL or a node of its own
    kind ([result_kind]): the statement procedures a statement node
    ([func_stmt] and [lambda_exp] a [Func] node, [assign_stmt] an
    [Assign] or [Call] node, [call_stmt] a [Call] node), the expression
    procedures an expression node, [var_list] an [Id] node,
    [value_exp] and [multi_value_exp] a [Value] node, [dim_exp] a
    [Dim] node, [params] a [Params] node.  So it holds of the heap
    [parse] leaves, and the root is NULL or a statement node. *)
Theorem tree_is_well_kinded :
  (forall fuel c st r st',
     always_ok st -> heap_kinded st -> args_kinded c st ->
     run fuel c st = Ok r st' ->
     heap_kinded st' /\ has_kind st' r (result_kind c)) /\
  (forall fuel toks oracle r st',
     (forall n, oracle n = true) ->
     parse fuel (initial toks oracle) = Ok r st' ->
     heap_kinded st' /\ has_kind st' r is_stmt).
Proof.
  assert (H : forall fuel c st r st',
             always_ok st -> heap_kinded st -> args_kinded c st ->
             run fuel c st = Ok r st' ->
             heap_kinded st' /\ has_kind st' r (result_kind c)).
  { intros fuel c st r st' Hok Hty Hargs E.
    exact (@wlp_elim _ _ _ _ _ _ (@run_kinded fuel c st Hok Hty Hargs) E). }
  split; [exact H |].
  intros fuel toks oracle r st' Hor E. rewrite parse_unfold in E.
  destruct (run fuel PStmtSequence (after_advance (initial toks oracle)))
    as [t st1 | |] eqn:E1; try discriminate.
  assert (Hok0 : always_ok (after_advance (initial toks oracle))).
  { apply always_ok_after_advance. exact Hor. }
  assert (Hty0 : heap_kinded (after_advance (initial toks oracle))).
  { eapply heap_kinded_same; [apply after_advance_heap |].
    intros q n Hq. destruct q; discriminate Hq. }
  assert (Hargs0 : args_kinded PStmtSequence
                     (after_advance (initial toks oracle)))
    by constructor.
  destruct (H _ _ _ _ _ Hok0 Hty0 Hargs0 E1) as (Hty1 & Hr).
  destruct (tok_eqb (token st1) ENDFILE); injection E as <- <-.
  - split; assumption.
  - split.
    + eapply heap_kinded_same; [reflexivity | exact Hty1].
    + eapply has_kind_kept; [| exact Hr].
      apply kinds_kept_same. reflexivity.
Qed.

Lemma tree_is_well_kinded_witness :
  let toks := [tok IF_ "if"; tok ID "x"; tok LT "<"; tok NUM "1";
               tok THEN "then"; tok ID "y"; tok ASSIGN ":=";
               tok LAMBDA "lambda"; tok LPAREN "("; tok ID "a";
               tok RPAREN ")"; tok COLON ":"; tok ID "a"; tok PLUS "+";
               tok NUM "1"; tok END "end"] in
  exists st' n c,
    parse 40 (initial toks never_fails) = Ok (Some 0) st' /\
    heap st' !! 0 = Some n /\ nodekind n = StmtK IfK /\
    child n !! 1 = Some (Some c) /\ has_kind st' (Some c) is_stmt /\
    Error st' = false.
Proof.
  intros toks.
  assert (E : exists st' n c,
             parse 40 (initial toks never_fails) = Ok (Some 0) st' /\
             heap st' !! 0 = Some n /\ nodekind n = StmtK IfK /\
             child n !! 1 = Some (Some c) /\ Error st' = false)
    by (vm_compute; eauto 10).
  destruct E as (st' & n & c & E & Hn & Hk & Hc & He).
  exists st', n, c.
  destruct (proj2 tree_is_well_kinded 40 toks never_fails (Some 0) st'
              (fun _ => eq_refl) E) as (Hty & _).
  destruct (Hty 0 n Hn) as (_ & Hch).
  specialize (Hch 1 (Some c) Hc). rewrite Hk in Hch.
  repeat (split; [assumption |]). exact He.
Defined.

(** ** A declaration list when the node factory gives out *)

(** The round of the loop of [var_list] in which the allocation of the
    [Id] node fails: the identifier stays the lookahead, so none of the
    continuations is taken and the loop ends. *)
Lemma var_loop_alloc_fails (f : nat) e root lst st :
  token st = ID -> alloc_ok st (nalloc st) = false ->
  run (S f) (PVarListLoop e root lst) st = Ok root (count_alloc st).
Proof.
  intros Ht Hfail.
  change (run (S f) (PVarListLoop e root lst))
    with (var_list_loop (run f) e root lst).
  unfold var_list_loop. cbv zeta.
  unfold bind at 1. unfold gets at 1. rewrite Ht.
  change (tok_eqb ID ID) with true. cbv iota.
  unfold bind at 1. unfold newExpNode, alloc_node. rewrite Hfail.
  unfold bind at 1. unfold gets at 1.
  cbn [nonnull andb].
  unfold bind at 1. unfold gets at 1.
  change (token (count_alloc st)) with (token st). rewrite Ht.
  change (tok_eqb ID ASSIGN) with false.
  change (tok_eqb ID LMBRACKET) with false. cbv iota.
  unfold bind at 1. unfold ret at 1.
  unfold bind at 1. unfold gets at 1.
  change (token (count_alloc st)) with (token st). rewrite Ht.
  reflexivity.
Qed.

(** The loop of [var_list] on [n1 , ... , nk , n] when the factory
    fails at the node for [n]. *)
Lemma var_loop_until_failure (names : list string) :
  forall toks c t fuel e root lst st rest,
    names <> [] -> id_list names toks ->
    tok_kind c = COMMA -> tok_kind t = ID ->
    S (length names) < fuel ->
    reading (toks ++ c :: t :: rest) st ->
    (forall k, k < length names -> alloc_ok st (nalloc st + k) = true) ->
    alloc_ok st (nalloc st + length names) = false ->
    ptr_lt (hlen st) lst ->
    exists st',
      run fuel (PVarListLoop e root lst) st
        = Ok (root_after root lst (hlen st)) st' /\
      heap st' = link_last lst (hlen st) (heap st)
                 ++ id_cells (hlen st) names /\
      reading (t :: rest) st' /\
      listing st' = listing st /\ Error st' = Error st.
Proof.
  induction names as [| n0 ns IH];
    intros toks c t fuel e root lst st rest Hne Hid Hkc Hkt Hfuel Hrd Hok
      Hfail Hlst;
    [contradiction |].
  destruct fuel as [| f]; [simpl in Hfuel; lia |].
  destruct toks as [| t0 toks1]; [destruct Hid |].
  destruct Hid as (Hk0 & Hn0 & Hid).
  destruct Hrd as (Ht & Hs & Hi).
  rewrite Hk0 in Ht. rewrite Hn0 in Hs.
  assert (Hok0 : alloc_ok st (nalloc st) = true).
  { specialize (Hok 0 ltac:(simpl; lia)). rewrite Nat.add_0_r in Hok.
    exact Hok. }
  pose proof (@var_name_linked n0 _ lst st Ht Hs Hi Hlst) as HB.
  cbv zeta in HB.
  destruct HB as (B1 & B2 & B3 & B4 & B5 & B6 & B7 & B8).
  assert (Hgo : declaration_goes_on (scan_kind st) = false).
  { unfold scan_kind. rewrite Hi.
    destruct ns as [| n2 ns'].
    - subst toks1. cbn [app tok_kind]. rewrite Hkc. reflexivity.
    - destruct toks1 as [| c1 toks2]; [destruct Hid |].
      destruct Hid as (Hc1 & _). cbn [app tok_kind]. rewrite Hc1.
      reflexivity. }
  rewrite (@var_loop_name f e root lst st Ht Hok0 Hlst Hgo).
  remember (appended lst (hlen st) (callee_named (ExpK IdK) st)) as st2
    eqn:E2. clear E2.
  unfold after_argument.
  destruct ns as [| n2 ns'].
  - (* the identifier before the one that gets no node *)
    subst toks1. cbn [app] in B2, B3, B4.
    simpl in Hfuel, Hfail. rewrite B2. cbn [kind_of]. rewrite Hkc.
    change (tok_eqb COMMA COMMA) with true. cbv iota.
    cbn [tail] in B3.
    destruct (@after_advance_reads (t :: rest) st2 B3)
      as (A1 & A2 & A3 & A4 & A5 & A6 & A7 & A8).
    specialize (A3 ltac:(discriminate)).
    destruct f as [| f']; [lia |].
    rewrite var_loop_alloc_fails;
      [| rewrite A1; exact Hkt
       | rewrite A7, A8, B7, B8, <- Nat.add_1_r; exact Hfail].
    eexists. split; [reflexivity |].
    cbn [heap listing Error count_alloc].
    rewrite A4, A5, A6, B1, B5, B6.
    split; [reflexivity |]. split; [| split; reflexivity].
    destruct A3 as (C1 & C2 & C3). repeat split; assumption.
  - (* more identifiers follow the comma *)
    destruct toks1 as [| c1 toks2]; [destruct Hid |].
    destruct Hid as (Hc1 & Hid).
    cbn [app] in B2, B3, B4.
    rewrite B2. cbn [kind_of]. rewrite Hc1.
    change (tok_eqb COMMA COMMA) with true. cbv iota.
    cbn [tail] in B3.
    destruct (@after_advance_reads (toks2 ++ c :: t :: rest) st2 B3)
      as (A1 & A2 & A3 & A4 & A5 & A6 & A7 & A8).
    assert (Hne2 : toks2 ++ c :: t :: rest <> []).
    { destruct toks2; discriminate. }
    specialize (A3 Hne2).
    remember (after_advance st2) as st3 eqn:E3. clear E3.
    assert (Hlen3 : hlen st3 = S (hlen st)).
    { unfold hlen. rewrite A4, B1, length_app. simpl.
      destruct lst as [i |]; simpl; [rewrite length_alter |]; lia. }
    destruct (IH toks2 c t f e (root_after root lst (hlen st))
                (Some (hlen st)) st3 rest)
      as (st' & E & C1 & C2 & C3 & C4).
    + discriminate.
    + exact Hid.
    + exact Hkc.
    + exact Hkt.
    + simpl in Hfuel |- *. lia.
    + exact A3.
    + intros k Hk. rewrite A7, A8, B7, B8.
      replace (S (nalloc st) + k) with (nalloc st + S k) by lia.
      apply Hok. simpl in Hk |- *. lia.
    + rewrite A7, A8, B7, B8.
      replace (S (nalloc st) + length (n2 :: ns'))
        with (nalloc st + length (n0 :: n2 :: ns')) by (simpl; lia).
      exact Hfail.
    + simpl. lia.
    + exists st'. split; [exact E |].
      rewrite C1, C3, C4, Hlen3, A4, A5, A6, B1, B5, B6.
      split; [| split; [exact C2 | split; reflexivity]].
      rewrite (@id_cells_cons (hlen st) n0 (n2 :: ns')) by discriminate.
      unfold link_last at 1.
      replace (hlen st) with
        (length (link_last lst (hlen st) (heap st))) at 2
        by (destruct lst; simpl; [rewrite length_alter |]; reflexivity).
      rewrite alter_app_last, <- app_assoc. reflexivity.
Qed.

(** X23. [var_list] when the node factory gives out.  The stores
    through [lst] in the loop of [var_list] are not guarded, but they
    are not reached on a failed allocation: the identifier is then not
    consumed, so the lookahead is none of [:=], [[] and [,], and the
    loop ends.
    - A round entered on an identifier whose [Id] node cannot be
      allocated returns the list built so far and changes nothing but
      the allocation count.
    - On [n1 , ... , nk , n] (identifiers separated by commas, on
      whatever lines) with the allocation for [n] the first to fail,
      [var_list] returns the [k] nodes for [n1] ... [nk], linked in
      order, reports nothing, and leaves [n] as the lookahead.
    - So in "var a, b" with no node for [b], the declaration is cut
      short without a diagnostic and [b] is parsed as the next
      statement. *)
Theorem var_list_out_of_nodes :
  (forall f e root lst st,
     token st = ID -> alloc_ok st (nalloc st) = false ->
     run (S f) (PVarListLoop e root lst) st = Ok root (count_alloc st)) /\
  (forall names toks c t fuel e st rest,
     names <> [] -> id_list names toks ->
     tok_kind c = COMMA -> tok_kind t = ID ->
     S (S (length names)) < fuel ->
     reading (toks ++ c :: t :: rest) st ->
     (forall k, k < length names -> alloc_ok st (nalloc st + k) = true) ->
     alloc_ok st (nalloc st + length names) = false ->
     exists st',
       run fuel (PVarList e) st = Ok (Some (hlen st)) st' /\
       heap st' = heap st ++ id_cells (hlen st) names /\
       reading (t :: rest) st' /\
       listing st' = listing st /\ Error st' = Error st) /\
  outcome (parse 20 (initial [tok VAR "var"; tok ID "a"; tok COMMA ",";
                              tok ID "b"] (fails_at 2)))
  = Some (Some (followed_by
                  (TNode (StmtK VarK) AttrUnset
                     [Some (Id "a"); None; None; None] None)
                  (TNode (StmtK AssignK) (AttrName "b")
                     [None; None; None; None] None)),
          ENDFILE, false, 0).
Proof.
  split; [| split].
  - intros. apply var_loop_alloc_fails; assumption.
  - intros names toks c t fuel e st rest Hne Hid Hkc Hkt Hfuel Hrd Hok
      Hfail.
    destruct fuel as [| f]; [lia |].
    change (run (S f) (PVarList e) st)
      with (run f (PVarListLoop e None None) st).
    destruct (@var_loop_until_failure names toks c t f e None None st rest)
      as (st' & E & C1 & C2 & C3 & C4);
      try assumption; [lia | exact I |].
    exists st'. split; [exact E |].
    simpl in C1. auto.
  - vm_compute. reflexivity.
Qed.

Lemma var_list_out_of_nodes_witness :
  let st := looking_at (mkToken ID "a" 2)
              [mkToken COMMA "," 2; mkToken ID "b" 3; mkToken COMMA "," 3;
               mkToken ID "c" 5; mkToken SEMI ";" 5] (fails_at 2) in
  exists st',
    run 6 (PVarList true) st = Ok (Some 0) st' /\
    heap st' = [with_sibling (Some 1) (id_cell "a"); id_cell "b"] /\
    token st' = ID /\ tokenString st' = "c"%string /\ listing st' = [].
Proof.
  intros st.
  destruct var_list_out_of_nodes as (_ & H & _).
  destruct (H ["a"; "b"]%string
              [mkToken ID "a" 2; mkToken COMMA "," 2; mkToken ID "b" 3]
              (mkToken COMMA "," 3) (mkToken ID "c" 5) 6 true st
              [mkToken SEMI ";" 5])
    as (st' & E & H1 & (H2 & H3 & _) & H4 & _).
  - discriminate.
  - repeat split.
  - reflexivity.
  - reflexivity.
  - simpl. lia.
  - repeat split.
  - intros [| [| k]] Hk; [reflexivity | reflexivity | simpl in Hk; lia].
  - reflexivity.
  - exists st'. split; [exact E |]. split; [exact H1 |].
    split; [exact H2 |]. split; [exact H3 | exact H4].
Defined.

(** ** Dimensions in a parameter list *)

(** A round of the loop of [dim_exp] without explicit dimensions, as a
    computation: nothing between the brackets is parsed. *)
Lemma dim_loop_bare_run (f : nat) root lst st :
  token st = LMBRACKET ->
  alloc_ok st (nalloc st) = true ->
  (forall i, lst = Some i -> exists n, heap st !! i = Some n) ->
  run (S f) (PDimLoop false root lst) st =
    run f (PDimLoop false (root_after root lst (hlen st)) (Some (hlen st)))
        (appended lst (hlen st) (after_match RMBRACKET (dim_opened st))).
Proof.
  intros Ht Hok Hlst.
  destruct (dim_opened_facts st) as (_ & _ & _ & _ & _ & Hold).
  change (run (S f) (PDimLoop false root lst))
    with (dim_loop (run f) false root lst).
  unfold dim_loop.
  unfold bind at 1. unfold gets at 1. rewrite Ht.
  change (tok_eqb LMBRACKET LMBRACKET) with true. cbv iota.
  unfold bind at 1. rewrite match_eq, (after_match_hit st Ht).
  unfold bind at 1. unfold newExpNode, alloc_node.
  rewrite after_advance_alloc, Hok.
  rewrite after_advance_heap. fold (hlen st).
  cbn [nonnull andb]. unfold when at 1.
  unfold bind at 1. unfold ret at 1.
  unfold bind at 1. rewrite match_eq.
  fold (dim_opened st).
  destruct lst as [i |]; [| reflexivity].
  destruct (Hlst i eq_refl) as [n Hn].
  cbn [nonnull negb]. unfold bind, set_sibling.
  erewrite store_put
    by (rewrite after_match_heap; apply Hold; exact Hn).
  reflexivity.
Qed.

(** X24. Dimensions in a parameter list ([dim_exp] without explicit
    dimensions).  Each opening bracket yields one [Dim] node without a
    child, appended to the chain of the brackets before it, and the
    closing bracket is expected at once: what stands between the
    brackets is not parsed.  On "[ ]" nothing is reported; on anything
    else after the opening bracket one syntax error is reported and
    that token stays the lookahead.  So the parameter "a[3]" is
    rejected where "a[]" is accepted. *)
Theorem dim_exp_in_parameters :
  (forall f root lst st l,
     token st = LMBRACKET ->
     alloc_ok st (nalloc st) = true ->
     builds root lst l st ->
     let p := hlen st in
     let st8 := appended lst p (after_match RMBRACKET (dim_opened st)) in
     run (S f) (PDimLoop false root lst) st =
       run f (PDimLoop false (root_after root lst p) (Some p)) st8 /\
     builds (root_after root lst p) (Some p) (l ++ [p]) st8 /\
     heap st8 !! p = Some (dim_cell None) /\
     hlen st8 = S (hlen st) /\
     (scan_kind st = RMBRACKET ->
      diagnostics st8 = diagnostics st /\ Error st8 = Error st /\
      input st8 = tail (tail (input st))) /\
     (scan_kind st <> RMBRACKET ->
      diagnostics st8 = S (diagnostics st) /\ Error st8 = true /\
      token st8 = scan_kind st /\ input st8 = tail (input st))) /\
  outcome (run 10 PParams
             (looking_at (tok LPAREN "(")
                [tok ID "a"; tok LMBRACKET "["; tok RMBRACKET "]";
                 tok RPAREN ")"] never_fails))
  = Some (Some (TNode (ExpK ParamsK) AttrUnset
                  [Some (TNode (ExpK IdK) (AttrName "a")
                           [Some (leaf (ExpK DimK) AttrUnset);
                            None; None; None] None);
                   None; None; None] None),
          ENDFILE, false, 0) /\
  outcome (run 10 PParams
             (looking_at (tok LPAREN "(")
                [tok ID "a"; tok LMBRACKET "["; tok NUM "3";
                 tok RMBRACKET "]"; tok RPAREN ")"] never_fails))
  = Some (Some (TNode (ExpK ParamsK) AttrUnset
                  [Some (TNode (ExpK IdK) (AttrName "a")
                           [Some (leaf (ExpK DimK) AttrUnset);
                            None; None; None] None);
                   None; None; None] None),
          NUM, true, 2).
Proof.
  split; [| split; vm_compute; reflexivity].
  intros f root lst st l Ht Hok HB. cbv zeta.
  destruct (dim_opened_facts st) as (Hlen & Hcell & Htok & Hd & He & Hold).
  assert (Hfresh : forall q, In q l -> q < hlen st).
  { intros q Hq. destruct HB as (Hc & _).
    exact (@chain_bound _ _ _ _ Hc Hq). }
  assert (Hp : ~ In (hlen st) l) by (intros Hq; apply Hfresh in Hq; lia).
  assert (Hin : input (dim_opened st) = tail (input st)).
  { unfold dim_opened, alloc_state, after_advance, scan_next.
    destruct (input st); reflexivity. }
  remember (dim_opened st) as st5 eqn:E5.
  remember (after_match RMBRACKET st5) as st7 eqn:E7.
  assert (Hh7 : heap st7 = heap st5)
    by (subst st7; apply after_match_heap).
  assert (Hcell7 : heap st7 !! hlen st = Some (dim_cell None)).
  { rewrite Hh7. exact Hcell. }
  assert (Hold7 : forall q n, heap st !! q = Some n -> heap st7 !! q = Some n).
  { intros q n Hn. rewrite Hh7. apply Hold. exact Hn. }
  assert (HB7 : builds root lst l st7).
  { destruct HB as (Hc & Hl & Hnd). split; [| split; assumption].
    eapply chain_ext; [| exact Hc].
    intros q Hq. destruct (@chain_lookup _ _ _ _ Hc Hq) as [n Hn].
    rewrite Hn. apply Hold7. exact Hn. }
  assert (Hlast : forall i, lst = Some i -> i <> hlen st).
  { intros i ->. destruct HB as (_ & Hl & _).
    assert (Hi : In i l) by (apply chain_last_In; symmetry; exact Hl).
    apply Hfresh in Hi. lia. }
  assert (Hin8 : input (appended lst (hlen st) st7) = input st7).
  { destruct lst as [i |]; [| reflexivity]. simpl. apply put_input. }
  split; [| split; [| split; [| split; [| split]]]].
  - subst st7 st5. apply dim_loop_bare_run; try assumption.
    intros i ->. eapply builds_lookup_last. exact HB.
  - eapply builds_appended; eauto.
  - destruct lst as [i |]; [| exact Hcell7].
    simpl. rewrite put_other; [exact Hcell7 |].
    specialize (Hlast i eq_refl). congruence.
  - transitivity (hlen st7).
    + destruct lst as [i |]; [| reflexivity]. simpl. apply put_hlen.
    + unfold hlen. rewrite Hh7. exact Hlen.
  - intros Hr.
    destruct (appended_scalars lst (hlen st) st7) as (_ & -> & ->).
    rewrite Hin8. subst st7.
    rewrite after_match_hit by (rewrite Htok; exact Hr).
    destruct (after_advance_diagnostics st5) as (-> & ->).
    split; [exact Hd |]. split; [exact He |].
    destruct (@after_advance_reads (input st5) st5 eq_refl)
      as (_ & -> & _).
    rewrite Hin. reflexivity.
  - intros Hr.
    destruct (appended_scalars lst (hlen st) st7) as (-> & -> & ->).
    rewrite Hin8. subst st7.
    rewrite after_match_miss by (rewrite Htok; exact Hr).
    rewrite diagnostics_after_mismatch, Hd, after_mismatch_token, Htok.
    repeat split. exact Hin.
Qed.

Lemma dim_exp_in_parameters_witness :
  let st := looking_at (tok LMBRACKET "[") [tok RMBRACKET "]"; tok RPAREN ")"]
              never_fails in
  let bad := looking_at (tok LMBRACKET "[") [tok NUM "3"; tok RMBRACKET "]"]
               never_fails in
  (exists st8, heap st8 !! 0 = Some (dim_cell None) /\
               builds (Some 0) (Some 0) [0] st8 /\
               diagnostics st8 = 0 /\ input st8 = []) /\
  (exists st8, heap st8 !! 0 = Some (dim_cell None) /\
               diagnostics st8 = 1 /\ token st8 = NUM).
Proof.
  intros st bad.
  destruct dim_exp_in_parameters as (H & _).
  assert (B : forall s, builds None None [] s)
    by (intros s; split;
        [reflexivity | split; [reflexivity | apply NoDup_nil_2]]).
  split.
  - destruct (H 0 None None st [] eq_refl eq_refl (B st))
      as (_ & HB & Hc & _ & Hhit & _).
    destruct (Hhit eq_refl) as (Hd & _ & Hi).
    eexists. split; [exact Hc |]. split; [exact HB |].
    split; [rewrite Hd; reflexivity | rewrite Hi; reflexivity].
  - destruct (H 0 None None bad [] eq_refl eq_refl (B bad))
      as (_ & _ & Hc & _ & _ & Hmiss).
    destruct Hmiss as (Hd & _ & Ht & _); [discriminate |].
    eexists. split; [exact Hc |].
    split; [rewrite Hd; reflexivity | rewrite Ht; reflexivity].
Defined.

(** ** The name of a function *)

Lemma func_opened_facts st :
  let p := hlen st in
  heap (func_opened st) !! p = Some (func_cell (func_name st) None None) /\
  diagnostics (func_opened st) = diagnostics st /\
  Error (func_opened st) = Error st /\
  input (func_opened st)
    = (if tok_eqb (scan_kind st) ID then tail (tail (input st))
       else tail (input st)).
Proof.
  intros p. subst p. unfold func_opened, func_name. cbv zeta.
  set (st0 := after_advance (alloc_state (StmtK FuncK) st)).
  assert (Hc0 : heap st0 !! hlen st = Some (blank_node (StmtK FuncK))).
  { unfold st0. rewrite after_advance_heap. apply alloc_state_cell. }
  assert (Ht0 : token st0 = scan_kind st).
  { unfold st0, after_advance, scan_next, scan_kind, alloc_state; simpl.
    destruct (input st); reflexivity. }
  assert (Hd0 : diagnostics st0 = diagnostics st /\ Error st0 = Error st).
  { unfold st0.
    destruct (after_advance_diagnostics (alloc_state (StmtK FuncK) st))
      as (-> & ->). split; reflexivity. }
  assert (Hi0 : input st0 = tail (input st)).
  { unfold st0, after_advance, scan_next, alloc_state; simpl.
    destruct (input st); reflexivity. }
  assert (Hs0 : tokenString st0 = scan_text st).
  { unfold st0, after_advance, scan_next, scan_text, alloc_state; simpl.
    destruct (input st); reflexivity. }
  rewrite Ht0. clearbody st0.
  destruct (tok_eqb (scan_kind st) ID).
  - rewrite after_advance_heap.
    destruct (after_advance_diagnostics
                (put (hlen st) (with_attr (AttrName (copyString (tokenString st0))))
                   st0)) as (-> & ->).
    rewrite put_diagnostics.
    destruct (put_scalars (hlen st)
                (with_attr (AttrName (copyString (tokenString st0)))) st0)
      as (_ & _ & _ & -> & _).
    split; [| split; [apply Hd0 | split; [apply Hd0 |]]].
    + erewrite put_cell by exact Hc0. rewrite Hs0. reflexivity.
    + destruct (@after_advance_reads
                  (input (put (hlen st)
                            (with_attr
                               (AttrName (copyString (tokenString st0))))
                            st0)) _ eq_refl) as (_ & -> & _).
      rewrite put_input, Hi0. reflexivity.
  - split; [exact Hc0 |]. split; [apply Hd0 |]. split; [apply Hd0 | exact Hi0].
Qed.

Lemma func_stmt_unfold (f : nat) st :
  token st = FUNC ->
  alloc_ok st (nalloc st) = true ->
  run (S f) PFuncStmt st =
  ((ps <- run f PParams ;;
    set_child (Some (hlen st)) 0 ps ;;
    s <- run f PStmtSequence ;;
    set_child (Some (hlen st)) 1 s) ;;
   match_ END ;;
   ret (Some (hlen st)))%parser (func_opened st).
Proof.
  intros Ht Hok.
  change (run (S f) PFuncStmt) with (func_stmt (run f)).
  unfold func_stmt, func_opened. cbv zeta.
  unfold bind at 1. unfold newStmtNode. rewrite alloc_node_ok by exact Hok.
  unfold bind at 1. rewrite match_eq.
  rewrite after_match_hit by (rewrite alloc_state_token; exact Ht).
  assert (Hc0 : heap (after_advance (alloc_state (StmtK FuncK) st)) !! hlen st
                = Some (blank_node (StmtK FuncK))).
  { rewrite after_advance_heap. apply alloc_state_cell. }
  remember (after_advance (alloc_state (StmtK FuncK) st)) as st0 eqn:E0.
  clear E0.
  unfold bind at 1. unfold gets at 1.
  cbn [nonnull andb].
  destruct (tok_eqb (token st0) ID) eqn:EI.
  - unfold when at 1.
    unfold bind at 1. unfold bind at 1. unfold gets at 1.
    unfold bind at 1. unfold set_name.
    erewrite store_put by exact Hc0.
    rewrite match_eq.
    rewrite after_match_hit
      by (rewrite put_token; apply tok_eqb_eq; exact EI).
    reflexivity.
  - unfold when at 1. unfold bind at 1. unfold ret at 1. reflexivity.
Qed.

(** X25. The name of a function is optional.  [func_stmt], entered on
    [func] with its node allocated, takes the token after [func] as the
    name if it is an identifier and consumes it; if it is anything
    else, no name is stored, nothing is consumed and nothing is
    reported, and [params] is entered on that token.  In both cases
    child 0 is what [params] returns and child 1 what [stmt_sequence]
    returns, and [end] is expected after the body.  So
    "func (a) return a end" is accepted as a function without a name. *)
Theorem func_stmt_name_optional (f : nat) st ps st2 b st3 :
  token st = FUNC ->
  alloc_ok st (nalloc st) = true ->
  let p := hlen st in
  let st1 := func_opened st in
  run f PParams st1 = Ok ps st2 ->
  run f PStmtSequence (put p (with_child 0 ps) st2) = Ok b st3 ->
  let st4 := after_match END (put p (with_child 1 b) st3) in
  run (S f) PFuncStmt st = Ok (Some p) st4 /\
  heap st4 !! p = Some (func_cell (func_name st) ps b) /\
  diagnostics st1 = diagnostics st /\ Error st1 = Error st /\
  input st1 = (if tok_eqb (scan_kind st) ID then tail (tail (input st))
               else tail (input st)) /\
  outcome (parse 30 (initial [tok FUNC "func"; tok LPAREN "(";
                              tok ID "a"; tok RPAREN ")";
                              tok RETURN "return"; tok ID "a";
                              tok END "end"] never_fails))
  = Some (Some (TNode (StmtK FuncK) AttrUnset
                  [Some (TNode (ExpK ParamsK) AttrUnset
                           [Some (Id "a"); None; None; None] None);
                   Some (TNode (StmtK ReturnK) AttrUnset
                           [Some (Id "a"); None; None; None] None);
                   None; None] None),
          ENDFILE, false, 0).
Proof.
  intros Ht Hok p st1 E1 E2 st4.
  destruct (func_opened_facts st) as (Hc1 & Hd1 & He1 & Hi1).
  fold p in Hc1. fold st1 in Hc1, Hd1, He1, Hi1.
  assert (Hc2 : heap st2 !! p = Some (func_cell (func_name st) None None)).
  { eapply run_closed_frame; try exact E1; try reflexivity. exact Hc1. }
  assert (Hc2' : heap (put p (with_child 0 ps) st2) !! p
                 = Some (func_cell (func_name st) ps None)).
  { erewrite put_cell by exact Hc2. reflexivity. }
  assert (Hc3 : heap st3 !! p = Some (func_cell (func_name st) ps None)).
  { eapply run_closed_frame; try exact E2; try reflexivity. exact Hc2'. }
  split; [| split; [| split; [| split; [| split]]]].
  - rewrite func_stmt_unfold by assumption. fold p. fold st1.
    unfold bind at 1. unfold bind at 1. rewrite E1.
    unfold bind at 1. unfold set_child.
    erewrite store_put by exact Hc2.
    unfold bind at 1. rewrite E2.
    erewrite store_put by exact Hc3.
    unfold bind at 1. rewrite match_eq. reflexivity.
  - unfold st4. rewrite after_match_heap.
    erewrite put_cell by exact Hc3. reflexivity.
  - exact Hd1.
  - exact He1.
  - exact Hi1.
  - vm_compute. reflexivity.
Qed.

Lemma func_stmt_name_optional_witness :
  let st := looking_at (tok FUNC "func")
              [tok LPAREN "("; tok ID "a"; tok RPAREN ")";
               tok RETURN "return"; tok ID "a"; tok END "end"]
              never_fails in
  exists ps b st4,
    run 12 PFuncStmt st = Ok (Some 0) st4 /\
    heap st4 !! 0 = Some (func_cell AttrUnset ps b) /\
    ps <> None /\ b <> None /\
    diagnostics (func_opened st) = 0.
Proof.
  intros st.
  assert (E1 : exists ps st2,
             run 11 PParams (func_opened st) = Ok (Some ps) st2)
    by (vm_compute; eauto).
  destruct E1 as (ps & st2 & E1).
  pose proof E1 as E1'. vm_compute in E1'. injection E1' as <- <-.
  match type of E1 with
  | _ = Ok (Some ?q) ?s2 =>
      assert (E2 : exists b st3,
                 run 11 PStmtSequence (put 0 (with_child 0 (Some q)) s2)
                 = Ok (Some b) st3)
        by (vm_compute; eauto)
  end.
  destruct E2 as (b & st3 & E2).
  destruct (@func_stmt_name_optional 11 st _ _ _ _
              eq_refl eq_refl E1 E2) as (E & Hc & Hd & _).
  eexists _, _, _. split; [exact E |]. split; [exact Hc |].
  split; [discriminate |]. split; [discriminate |].
  rewrite Hd. reflexivity.
Defined.

